(** * BitBuffer: a bit-packed FIFO of bounded integers (Arduino library)

    Shallow embedding of [src/BitBuffer.cpp] and [src/BitBuffer.h].

    Target model.  The library is written for the AVR Arduino boards
    (avr-gcc): [byte] is 8 bits, [int] and [unsigned int] are 16 bits,
    [unsigned long] is 32 bits, objects are little endian.  The code relies on
    this: [getMaxRangeValue] and [getIntegerValue] build an [unsigned int] out
    of exactly two bytes written through a [byte*] alias.

    Integers are modelled in [Z].  A conversion ([to_byte], [to_uint],
    [to_ulong], [to_int]) is written wherever the C++ code stores into a
    narrower object, converts between signed and unsigned, or does an unsigned
    subtraction.  [s_data] is a [list Z] of bytes; an access outside the
    allocated block is undefined behaviour and is modelled by [None]. *)

From Stdlib Require Import ZArith List Bool Lia Btauto.
From Stdlib Require String.
From coqutil Require Import Z.bitblast.
Import ListNotations.
Local Open Scope Z_scope.

(** ** Machine integers of the AVR target *)

Module Avr.

Definition to_byte (x : Z) : Z := x mod 2 ^ 8.
Definition to_uint (x : Z) : Z := x mod 2 ^ 16.
Definition to_ulong (x : Z) : Z := x mod 2 ^ 32.

(** Conversion to the 16-bit signed [int]: avr-gcc reduces modulo 2^16. *)
Definition to_int (x : Z) : Z := (x + 2 ^ 15) mod 2 ^ 16 - 2 ^ 15.

(** [((byte * )&x)[k]] on a little-endian object. *)
Definition byte_at (x k : Z) : Z := (x / 2 ^ (8 * k)) mod 2 ^ 8.

(** An [unsigned int] whose two bytes [p[0]], [p[1]] are written through a
    [byte*] alias. *)
Definition uint_of_bytes (p0 p1 : Z) : Z := p0 + 2 ^ 8 * p1.

(** Arduino.h: [#define bitRead(value, bit) (((value) >> (bit)) & 0x01)]. *)
Definition bitRead (value bit : Z) : Z := Z.land (Z.shiftr value bit) 1.

(** The real number [round(log(x) / M_LN2)] for an integer [x >= 1]: the
    integer nearest to the base-2 logarithm of [x].  [round] is
    [floor(y + 1/2)] for [y >= 0], and
    [floor(log2 x + 1/2) = floor((log2 (x*x) + 1) / 2)].  The result is
    computed exactly; rounding errors of the AVR single-precision [log] are
    not modelled. *)
Definition round_log2 (x : Z) : Z := (Z.log2 (x * x) + 1) / 2.

End Avr.
Import Avr.

(** ** Constants (BitBuffer.cpp, lines 40-60) *)

Definition RANGE2 : Z := 0x01.
Definition RANGE4 : Z := 0x03.
Definition RANGE8 : Z := 0x07.
Definition RANGE16 : Z := 0x0F.
Definition RANGE32 : Z := 0x1F.
Definition RANGE64 : Z := 0x3F.
Definition RANGE128 : Z := 0x7F.
Definition RANGE256 : Z := 0xFF.
Definition RANGE512 : Z := 0x02.
Definition RANGE1024 : Z := 0x06.
Definition RANGE2048 : Z := 0x0e.
Definition RANGE4096 : Z := 0x1E.
Definition RANGE8192 : Z := 0x3E.
Definition RANGE16384 : Z := 0x7E.
Definition RANGE32768 : Z := 0xFE.

Definition OVERFLOW_MAX : Z := 0x01.
Definition OVERFLOW_MIN : Z := 0x02.
Definition OVERFLOW_SKIP : Z := 0x03.

(** The fifteen range selectors the header exports. *)
Definition canonical_ranges : list Z :=
  [RANGE2; RANGE4; RANGE8; RANGE16; RANGE32; RANGE64; RANGE128; RANGE256;
   RANGE512; RANGE1024; RANGE2048; RANGE4096; RANGE8192; RANGE16384;
   RANGE32768].

Definition canonical_range (r : Z) : bool :=
  existsb (Z.eqb r) canonical_ranges.

(** ** The object (BitBuffer.h, private members) *)

Record BitBuffer : Type := mkBitBuffer {
  s_range : Z;          (* byte *)
  s_overflow : Z;       (* byte *)
  s_data : list Z;      (* byte*: the malloc'ed block *)
  s_bitIndex : Z;       (* unsigned long *)
  s_popCount : Z;       (* unsigned int *)
  s_size : Z;           (* unsigned int *)
  s_bitSize : Z;        (* unsigned int *)
  s_full : bool         (* boolean *)
}.

Definition set_overflow (st : BitBuffer) (x : Z) : BitBuffer :=
  mkBitBuffer (s_range st) x (s_data st) (s_bitIndex st) (s_popCount st)
              (s_size st) (s_bitSize st) (s_full st).
Definition set_data (st : BitBuffer) (x : list Z) : BitBuffer :=
  mkBitBuffer (s_range st) (s_overflow st) x (s_bitIndex st) (s_popCount st)
              (s_size st) (s_bitSize st) (s_full st).
Definition set_bitIndex (st : BitBuffer) (x : Z) : BitBuffer :=
  mkBitBuffer (s_range st) (s_overflow st) (s_data st) x (s_popCount st)
              (s_size st) (s_bitSize st) (s_full st).
Definition set_popCount (st : BitBuffer) (x : Z) : BitBuffer :=
  mkBitBuffer (s_range st) (s_overflow st) (s_data st) (s_bitIndex st) x
              (s_size st) (s_bitSize st) (s_full st).
Definition set_bitSize (st : BitBuffer) (x : Z) : BitBuffer :=
  mkBitBuffer (s_range st) (s_overflow st) (s_data st) (s_bitIndex st)
              (s_popCount st) (s_size st) x (s_full st).
Definition set_full (st : BitBuffer) (x : bool) : BitBuffer :=
  mkBitBuffer (s_range st) (s_overflow st) (s_data st) (s_bitIndex st)
              (s_popCount st) (s_size st) (s_bitSize st) x.

(** ** Methods run in a state-and-failure monad: a method reads and updates
    the object and fails ([None]) on an access outside [s_data]. *)

Definition M (A : Type) : Type := BitBuffer -> option (A * BitBuffer).

Definition ret {A} (a : A) : M A := fun st => Some (a, st).
Definition bind {A B} (m : M A) (k : A -> M B) : M B :=
  fun st => match m st with
            | Some (a, st') => k a st'
            | None => None
            end.
Definition gets {A} (f : BitBuffer -> A) : M A := fun st => Some (f st, st).
Definition modify (f : BitBuffer -> BitBuffer) : M unit :=
  fun st => Some (tt, f st).
Definition lift {A} (o : option A) : M A :=
  fun st => match o with Some a => Some (a, st) | None => None end.

Notation "x <- m ;; k" := (bind m (fun x => k))
  (at level 61, m at next level, right associativity).
Notation "m ;;; k" := (bind m (fun _ => k))
  (at level 61, right associativity).

(** Memory: [s_data[i]] as an rvalue and as an lvalue. *)

Fixpoint upd (l : list Z) (n : nat) (v : Z) : list Z :=
  match l, n with
  | [], _ => []
  | _ :: t, O => v :: t
  | h :: t, S n' => h :: upd t n' v
  end.

Definition in_block (d : list Z) (i : Z) : bool :=
  (0 <=? i) && (i <? Z.of_nat (length d)).

Definition load (d : list Z) (i : Z) : option Z :=
  if in_block d i then Some (nth (Z.to_nat i) d 0) else None.

Definition store (d : list Z) (i v : Z) : option (list Z) :=
  if in_block d i then Some (upd d (Z.to_nat i) v) else None.

Notation "x <-- o ;; k" := (match o with Some x => k | None => None end)
  (at level 61, o at next level, right associativity).

(** ** RangeCodec *)

(** [getMaxRangeValue(byte p_range)], lines 597-616. *)
Definition getMaxRangeValue_of (p_range : Z) : Z :=
  if bitRead p_range 0 =? 1
  then uint_of_bytes p_range 0x00
  else let p_range := to_byte (Z.shiftr p_range 1) in
       uint_of_bytes 0xFF p_range.

(** [getMaxRangeValue()], lines 593-595. *)
Definition getMaxRangeValue (st : BitBuffer) : Z :=
  getMaxRangeValue_of (s_range st).

(** [getBitSize()], lines 624-632: computed on the first call, cached in
    [s_bitSize] afterwards. *)
Definition getBitSize : M Z := fun st =>
  if s_bitSize st <? 1
  then let b := if getMaxRangeValue st >? 1
                then to_uint (round_log2 (getMaxRangeValue st))
                else 1 in
       Some (b, set_bitSize st b)
  else Some (s_bitSize st, st).

(** [getSize()], lines 123-125. *)
Definition getSize (st : BitBuffer) : Z := s_size st.

(** [getArraySize()], lines 635-638. *)
Definition getArraySize : M Z :=
  bs <- getBitSize ;;
  sz <- gets getSize ;;
  ret (to_uint (to_int (to_uint (bs * sz) / 8) + 1)).

(** [malloc]: a block of [n] bytes with indeterminate contents, here the bytes
    of [junk]. *)
Definition malloc (junk : nat -> Z) (n : Z) : list Z :=
  map (fun i => to_byte (junk i)) (seq 0 (Z.to_nat n)).

(** The constructor, lines 76-98. *)
Definition BitBuffer_new (p_range p_size : Z) (junk : nat -> Z) : BitBuffer :=
  let st := {| s_range := p_range; s_overflow := OVERFLOW_SKIP; s_data := [];
               s_bitIndex := 0; s_popCount := 0; s_size := p_size;
               s_bitSize := 0; s_full := false |} in
  match getArraySize st with
  | Some (n, st') => set_data st' (malloc junk n)
  | None => st
  end.

(** [getOverflowState], [setOverflowState], lines 114-120. *)
Definition getOverflowState (st : BitBuffer) : Z := s_overflow st.
Definition setOverflowState (p_overflow : Z) : M unit :=
  modify (fun st => set_overflow st p_overflow).

(** [getValueCount()], lines 128-130.  The conditional has type
    [unsigned long]; the result is returned as [unsigned int]. *)
Definition getValueCount : M Z :=
  full <- gets s_full ;;
  stored <- (if full then gets s_size
             else bs <- getBitSize ;;
                  bi <- gets s_bitIndex ;;
                  ret (bi / bs)) ;;
  pc <- gets s_popCount ;;
  ret (to_uint (to_ulong (stored - pc))).

(** [getIntegerValue(highByte, lowByte)], lines 775-783: an [int] assembled
    from two bytes, returned as [unsigned int]. *)
Definition getIntegerValue (highByte lowByte : Z) : Z :=
  to_uint (to_int (uint_of_bytes lowByte highByte)).

(** ** BitFieldStore *)

(** The read-modify-write statement
    [*arrayValue = ( *arrayValue & (0xFF - mask)) | v], stored into a byte. *)
Definition merge (old mask v : Z) : Z :=
  to_byte (Z.lor (Z.land old (0xFF - mask)) v).

(** The write logic of [push], lines 152-325: the code between the wrap check
    and the advance of the cursor.  [maxv] and [bs] are the values of
    [getMaxRangeValue()] and [getBitSize()], [bitIndex] is [s_bitIndex]. *)
Definition push_write (maxv bs bitIndex p_value : Z) (d : list Z)
  : option (list Z) :=
  let index := to_int (bitIndex / 8) in
  let offset := to_int (bitIndex mod 8) in
  let mask := 0xFF in
  let valueLow := byte_at p_value 0 in
  if maxv <=? RANGE256 then
    if to_uint (offset + bs) <=? 8 then
      let valueLow := to_byte (Z.shiftl valueLow (to_uint (8 - offset - bs))) in
      let mask := to_byte (Z.shiftl mask (to_uint (8 - bs))) in
      let mask := to_byte (Z.shiftr mask offset) in
      a <-- load d index ;;
      store d index (merge a mask valueLow)
    else
      let overlength := to_int (to_uint (offset + bs - 8)) in
      let v1 := to_byte (Z.shiftr valueLow overlength) in
      let mask := to_byte (Z.shiftl mask (to_uint (8 - bs))) in
      let mask := to_byte (Z.shiftr mask (to_uint (8 - bs + overlength))) in
      a <-- load d index ;;
      d <-- store d index (merge a mask v1) ;;
      let v2 := to_byte (Z.shiftl valueLow (8 - overlength)) in
      let mask := to_byte (Z.shiftl 0xFF (8 - overlength)) in
      a <-- load d (index + 1) ;;
      store d (index + 1) (merge a mask v2)
  else
    if to_uint (offset + bs) <=? 16 then
      let overlength := to_int (to_uint (offset + bs - 8)) in
      let valueIntShifted := to_uint (Z.shiftl p_value (8 - overlength)) in
      let v1 := byte_at valueIntShifted 1 in
      let mask :=
        to_byte (Z.shiftl mask (to_uint (8 - (bs - 8) - (8 - overlength)))) in
      let mask :=
        to_byte (Z.shiftr mask (to_uint (8 - (bs - 8) - (8 - overlength)))) in
      a <-- load d index ;;
      d <-- store d index (merge a mask v1) ;;
      let v2 := byte_at valueIntShifted 0 in
      let mask := to_byte (Z.shiftl 0xFF (8 - overlength)) in
      a <-- load d (index + 1) ;;
      store d (index + 1) (merge a mask v2)
    else
      let overlength := to_int (to_uint (offset + bs - 16)) in
      let v1 := to_byte (Z.shiftr p_value (to_uint (bs - (8 - offset)))) in
      let mask := to_byte (Z.shiftl mask offset) in
      let mask := to_byte (Z.shiftr mask offset) in
      a <-- load d index ;;
      d <-- store d index (merge a mask v1) ;;
      let valueIntShifted :=
        to_uint (Z.shiftl p_value (to_uint ((8 - offset) + (16 - bs)))) in
      let v2 := byte_at valueIntShifted 1 in
      d <-- store d (index + 1) v2 ;;
      let v3 := byte_at valueIntShifted 0 in
      let mask := to_byte (Z.shiftl 0xFF (8 - overlength)) in
      a <-- load d (index + 2) ;;
      store d (index + 2) (merge a mask v3).

(** The body of [getValueInternal], lines 643-772, on the block [d].  The
    array index is [(int) p_bitIndex / 8]: the cast applies to [p_bitIndex],
    the signed quotient truncates toward zero. *)
Definition read_field (maxv bs p_bitIndex : Z) (d : list Z) : option Z :=
  let index := Z.quot (to_int p_bitIndex) 8 in
  let offset := to_int (p_bitIndex mod 8) in
  if to_uint (offset + bs) <=? 8 then
    let mask := to_byte (Z.shiftl 0xFF (to_uint (8 - bs))) in
    let mask := to_byte (Z.shiftr mask offset) in
    a <-- load d index ;;
    let v1 := to_byte (Z.land a mask) in
    let v1 := to_byte (Z.shiftr v1 (to_uint (8 - offset - bs))) in
    Some (getIntegerValue 0x00 v1)
  else if to_uint (offset + bs) <=? 16 then
    let overlength := to_int (to_uint (offset + bs - 8)) in
    let mask := to_byte (Z.shiftl 0xFF (to_uint (8 - bs + overlength))) in
    let mask := to_byte (Z.shiftr mask offset) in
    a <-- load d index ;;
    let valueHigh := to_byte (Z.land a mask) in
    let mask := to_byte (Z.shiftl 0xFF (8 - overlength)) in
    a' <-- load d (index + 1) ;;
    let valueLow := to_byte (Z.land a' mask) in
    if maxv <=? RANGE256 then
      let valueHigh := to_byte (Z.shiftl valueHigh overlength) in
      let valueLow := to_byte (Z.shiftr valueLow (8 - overlength)) in
      Some (getIntegerValue 0x00 (Z.lor valueHigh valueLow))
    else
      let valueIntShifted := getIntegerValue valueHigh valueLow in
      Some (to_uint (Z.shiftr valueIntShifted (to_uint (16 - (offset + bs)))))
  else
    let overlength := to_int (to_uint (offset + bs - 16)) in
    a0 <-- load d index ;;
    a1 <-- load d (index + 1) ;;
    a2 <-- load d (index + 2) ;;
    let valueLongShifted := a2 + 2 ^ 8 * a1 + 2 ^ 16 * a0 in
    let valueLongShifted :=
      to_ulong (Z.shiftl valueLongShifted (8 + offset)) in
    let valueLongShifted :=
      to_ulong (Z.shiftr valueLongShifted (8 + offset + (8 - overlength))) in
    Some (to_uint valueLongShifted).

(** [getValueInternal(p_bitIndex)]. *)
Definition getValueInternal (p_bitIndex : Z) : M Z :=
  bs <- getBitSize ;;
  maxv <- gets getMaxRangeValue ;;
  d <- gets s_data ;;
  lift (read_field maxv bs p_bitIndex d).

(** ** The FIFO *)

(** The overflow policy at the head of [push], lines 134-142: the value to
    store, or [None] when the value is skipped. *)
Definition overflow_policy (st : BitBuffer) (p_value : Z) : option Z :=
  if p_value >? getMaxRangeValue st then
    if s_overflow st =? OVERFLOW_MAX then Some (getMaxRangeValue st)
    else if s_overflow st =? OVERFLOW_MIN then Some 0
    else None
  else Some p_value.

(** [push(p_value)], lines 132-340. *)
Definition push (p_value : Z) : M bool := fun st =>
  match overflow_policy st p_value with
  | None => Some (false, st)
  | Some p_value =>
      (bs <- getBitSize ;;
       bi <- gets s_bitIndex ;;
       sz <- gets getSize ;;
       (if to_ulong (bi + bs) >? to_uint (sz * bs)
        then modify (fun st => set_full (set_bitIndex st 0) true)
        else ret tt) ;;;
       maxv <- gets getMaxRangeValue ;;
       bi <- gets s_bitIndex ;;
       d <- gets s_data ;;
       d' <- lift (push_write maxv bs bi p_value d) ;;
       modify (fun st => set_data st d') ;;;
       modify (fun st => set_bitIndex st (to_ulong (bi + bs))) ;;;
       pc <- gets s_popCount ;;
       (if pc >? 0
        then modify (fun st => set_popCount st (to_uint (pc - 1)))
        else ret tt) ;;;
       ret true) st
  end.

(** [getValue(p_index)], lines 372-399. *)
Definition getValue (p_index : Z) : M Z :=
  c <- getValueCount ;;
  if (c <? p_index) || (p_index <? 1) then ret 0
  else
    c <- getValueCount ;;
    bs <- getBitSize ;;
    let bitDelta := to_uint (to_uint (c - p_index + 1) * bs) in
    bi <- gets s_bitIndex ;;
    sz <- gets getSize ;;
    let bitIndex :=
      if bitDelta <=? bi then to_ulong (bi - bitDelta)
      else to_ulong (to_uint (sz * bs) - bitDelta + bi) in
    getValueInternal bitIndex.

(** [pop()], lines 342-360. *)
Definition pop : M Z :=
  c <- getValueCount ;;
  if c <=? 0 then ret 0
  else
    r <- getValue 1 ;;
    pc <- gets s_popCount ;;
    modify (fun st => set_popCount st (to_uint (pc + 1))) ;;;
    ret r.

(** ** Sequences of calls on one object *)

Inductive call : Type :=
| Push (p_value : Z)
| Pop
| GetValue (p_index : Z)
| SetOverflowState (p_overflow : Z)
| GetValueCount.

Inductive result : Type :=
| RBool (b : bool)
| RVal (v : Z)
| RVoid.

Definition exec (c : call) : M result :=
  match c with
  | Push v => b <- push v ;; ret (RBool b)
  | Pop => v <- pop ;; ret (RVal v)
  | GetValue i => v <- getValue i ;; ret (RVal v)
  | SetOverflowState p => setOverflowState p ;;; ret RVoid
  | GetValueCount => n <- getValueCount ;; ret (RVal n)
  end.

Fixpoint run (cs : list call) : M (list result) :=
  match cs with
  | [] => ret []
  | c :: cs' => r <- exec c ;; rs <- run cs' ;; ret (r :: rs)
  end.

Definition results (o : option (list result * BitBuffer)) : option (list result) :=
  match o with Some (rs, _) => Some rs | None => None end.


(** ** Notions used by the statements *)

(** The bit width [getBitSize] computes for a range selector. *)
Definition bitSize_of (p_range : Z) : Z :=
  if getMaxRangeValue_of p_range >? 1
  then to_uint (round_log2 (getMaxRangeValue_of p_range))
  else 1.

(** Bit [n] of the block, counted from the most significant bit of byte 0. *)
Definition bit_at (d : list Z) (n : Z) : bool :=
  Z.testbit (nth (Z.to_nat (n / 8)) d 0) (7 - n mod 8).

(** The unsigned number held by the [w] bits from bit [o] on, first bit most
    significant. *)
Fixpoint field (d : list Z) (o : Z) (w : nat) : Z :=
  match w with
  | O => 0
  | S w' => 2 * field d o w' + Z.b2z (bit_at d (o + Z.of_nat w'))
  end.

Definition bytes (d : list Z) : Prop := Forall (fun b => 0 <= b < 256) d.

(** The width fits the branch [push] and [getValueInternal] select by
    [getMaxRangeValue() <= RANGE256]. *)
Definition field_ok (maxv bs : Z) : Prop :=
  1 <= bs <= 15 /\ (maxv <= 255 -> bs <= 8) /\ (255 < maxv -> 9 <= bs).

(** Number of slots written so far, before the popped ones are taken off. *)
Definition stored (st : BitBuffer) : Z :=
  if s_full st then s_size st else s_bitIndex st / s_bitSize st.

(** The value [getValueCount()] returns once [s_bitSize] is cached. *)
Definition valueCount (st : BitBuffer) : Z :=
  to_uint (to_ulong (stored st - s_popCount st)).

(** The bit offset [getValue(p_index)] hands to [getValueInternal]. *)
Definition slot_offset (st : BitBuffer) (p_index : Z) : Z :=
  let bs := s_bitSize st in
  let bitDelta := to_uint (to_uint (valueCount st - p_index + 1) * bs) in
  if bitDelta <=? s_bitIndex st then to_ulong (s_bitIndex st - bitDelta)
  else to_ulong (to_uint (s_size st * bs) - bitDelta + s_bitIndex st).

(** The slot [push] reserves: the cursor after the wrap check. *)
Definition reserve (st : BitBuffer) : BitBuffer :=
  if to_ulong (s_bitIndex st + s_bitSize st)
       >? to_uint (s_size st * s_bitSize st)
  then set_full (set_bitIndex st 0) true
  else st.

(** The object after [push] has stored the block [d']. *)
Definition pushed (st : BitBuffer) (d' : list Z) : BitBuffer :=
  let st1 := reserve st in
  let st2 := set_bitIndex (set_data st1 d')
                          (to_ulong (s_bitIndex st1 + s_bitSize st)) in
  if s_popCount st2 >? 0
  then set_popCount st2 (to_uint (s_popCount st2 - 1))
  else st2.

(** State invariant of a constructed object whose bit offsets fit the
    16-bit [unsigned int] products the code computes. *)
Record wf (st : BitBuffer) : Prop := mk_wf {
  wf_range : 0 <= s_range st < 256;
  wf_bitSize : s_bitSize st = bitSize_of (s_range st);
  wf_size : 1 <= s_size st;
  wf_fits : s_size st * s_bitSize st < 2 ^ 16;
  wf_length : Z.of_nat (length (s_data st)) = s_size st * s_bitSize st / 8 + 1;
  wf_bytes : bytes (s_data st);
  wf_cursor : 0 <= s_bitIndex st <= s_size st * s_bitSize st;
  wf_aligned : s_bitIndex st mod s_bitSize st = 0;
  wf_popped : 0 <= s_popCount st <= stored st
}.

(** Every bit offset the object can address is representable in [int]. *)
Definition int_addressable (st : BitBuffer) : Prop :=
  s_size st * s_bitSize st <= 2 ^ 15.

Definition is_set_overflow (c : call) : bool :=
  match c with SetOverflowState _ => true | _ => false end.

Definition zeros : nat -> Z := fun _ => 0.

(** What a write of the [bs]-bit value [v] at in-byte offset [off] leaves in
    bit [j] of the [t]-th byte it touches, [a] being the byte before. *)
Definition wbit (a v off bs t j : Z) : bool :=
  if (off <=? 8 * t + 7 - j) && (8 * t + 7 - j <? off + bs)
  then Z.testbit v (off + bs - 1 - (8 * t + 7 - j))
  else Z.testbit a j.

(** Bit [k] of the value read from the bytes [a0], [a1], [a2] at in-byte
    offset [off]. *)
Definition rbit (a0 a1 a2 off bs k : Z) : bool :=
  let pos := off + bs - 1 - k in
  if pos <? 8 then Z.testbit a0 (7 - pos)
  else if pos <? 16 then Z.testbit a1 (15 - pos)
  else Z.testbit a2 (23 - pos).

(** The block [d'] is [d] with the [bs]-bit value [v] written at bit [o]. *)
Definition written (d d' : list Z) (o bs v : Z) : Prop :=
  forall n, 0 <= n ->
    bit_at d' n = if (o <=? n) && (n <? o + bs)
                  then Z.testbit v (o + bs - 1 - n)
                  else bit_at d n.

(** The values [vs] sit in slots [0 .. length vs - 1], the cursor is behind
    the last of them, the buffer has not wrapped and [p] values are popped. *)
Definition linear (st : BitBuffer) (vs : list Z) (p : Z) : Prop :=
  wf st /\ s_full st = false /\ s_popCount st = p /\
  s_bitIndex st = Z.of_nat (length vs) * s_bitSize st /\
  forall j, (j < length vs)%nat ->
    field (s_data st) (Z.of_nat j * s_bitSize st) (Z.to_nat (s_bitSize st))
    = nth j vs 0.


(** Decidable comparison of call results. *)
Definition result_eqb (a b : result) : bool :=
  match a, b with
  | RBool x, RBool y => Bool.eqb x y
  | RVal x, RVal y => x =? y
  | RVoid, RVoid => true
  | _, _ => false
  end.

Fixpoint results_eqb (l1 l2 : list result) : bool :=
  match l1, l2 with
  | [], [] => true
  | a :: l1', b :: l2' => result_eqb a b && results_eqb l1' l2'
  | _, _ => false
  end.

(** The scenario of the specification: capacity 4, [RANGE4]. *)
Definition scenario_calls : list call :=
  [Push 3; Push 1; Push 2; Push 0; Push 3;
   GetValue 1; GetValue 2; GetValue 3; GetValue 4;
   Pop; Pop; Pop; Pop].

Definition scenario_results : list result :=
  [RBool true; RBool true; RBool true; RBool true; RBool true;
   RVal 1; RVal 2; RVal 0; RVal 3;
   RVal 1; RVal 2; RVal 0; RVal 3].

(** A fresh [RANGE4] buffer of capacity 4 whose block holds [x], [y]. *)
Definition scenario_buffer (x y : Z) : BitBuffer :=
  {| s_range := RANGE4; s_overflow := OVERFLOW_SKIP; s_data := [x; y];
     s_bitIndex := 0; s_popCount := 0; s_size := 4; s_bitSize := 2;
     s_full := false |}.

(** Do the calls that returned produce the expected results? *)
Definition check_results (o : option (list result * BitBuffer))
           (expected : list result) : bool :=
  match o with
  | Some (rs, _) => results_eqb rs expected
  | None => false
  end.

(** A [RANGE4] buffer of capacity 4 after [push(1); push(2); pop()]. *)
Definition popped_buffer : BitBuffer :=
  {| s_range := RANGE4; s_overflow := OVERFLOW_SKIP; s_data := [96; 0];
     s_bitIndex := 4; s_popCount := 1; s_size := 4; s_bitSize := 2;
     s_full := false |}.

(** The slot that holds the [m]-th most recent value when the cursor stands
    behind slot [c - 1] of [cap]: the index computation of [getValue], in
    slots. *)
Definition back (c cap m : Z) : Z :=
  if m <=? c then c - m else cap - m + c.

(** The buffer after the values [hist] were pushed, none of them popped
    before a later push: the last [stored st] of them sit in the slots
    [getValue] looks them up in, and [p] of these are popped. *)
Definition ring (st : BitBuffer) (hist : list Z) (p : Z) : Prop :=
  wf st /\ s_popCount st = p /\
  stored st = Z.min (Z.of_nat (length hist)) (s_size st) /\
  forall m, 1 <= m <= stored st ->
    field (s_data st)
          (back (s_bitIndex st / s_bitSize st) (s_size st) m * s_bitSize st)
          (Z.to_nat (s_bitSize st))
    = nth (length hist - Z.to_nat m) hist 0.

(** [flush()], lines 103-105: [free(s_data)].  The block is gone; [s_data]
    dangles, so every later access lies outside a live block. *)
Definition flush : M unit := modify (fun st => set_data st []).

(** The [byte] and [unsigned int] members hold values of their types, the
    cursor is below 2^16 and the bit width is cached: what the constructor
    establishes for any selector byte and any capacity an [unsigned int]
    holds, and what every method keeps.  No bound on
    [getSize() * getBitSize()] is part of it. *)
Record typed (st : BitBuffer) : Prop := mk_typed {
  ty_range : 0 <= s_range st < 256;
  ty_bitSize : s_bitSize st = bitSize_of (s_range st);
  ty_bytes : bytes (s_data st);
  ty_size : 0 <= s_size st < 65536;
  ty_bitIndex : 0 <= s_bitIndex st < 65536;
  ty_popCount : 0 <= s_popCount st < 65536
}.

(** The slot [push] writes next lies inside the allocated block. *)
Definition slot_in_block (st : BitBuffer) : Prop :=
  s_bitIndex (reserve st) + s_bitSize st
  <= 8 * Z.of_nat (length (s_data st)).


(** [BitBuffer(RANGE8, 21846)] after [push(1); push(2); pop()]: 21846 slots
    of 3 bits are 65538 bits, the block is one byte and every [push] wraps
    to slot 0. *)
Definition wrapped_popped_buffer : BitBuffer :=
  {| s_range := RANGE8; s_overflow := OVERFLOW_SKIP; s_data := [64];
     s_bitIndex := 3; s_popCount := 1; s_size := 21846; s_bitSize := 3;
     s_full := true |}.

(** ** Diagnostics: [printContent2Serial] *)

(** Conversion to the 32-bit signed [long]. *)
Definition to_long (x : Z) : Z := (x + 2 ^ 31) mod 2 ^ 32 - 2 ^ 31.

(** What the object hands to the [Serial] port, call by call.  [Serial]
    itself (the rendering of a number in decimal, the line end of [println])
    is outside the library. *)
Module Serial.
Import String.

Inductive event : Type :=
| Print (s : string)     (* Serial.print("...") *)
| PrintNum (n : Z)       (* Serial.print(<integer>) *)
| Println (s : string).  (* Serial.println("...") *)

Definition list_open : event := Print "[".
Definition list_close : event := Println "]".
Definition entry_sep : event := Print " ".
Definition entry_open : event := Print "{".
Definition entry_close : event := Print "}".
Definition popped_mark : event := Print "P".
Definition next_mark : event := Print "N".

End Serial.

(** How a call that prints ends: it returns, or it has accessed memory
    outside the block (undefined behaviour), or the count of loop iterations
    the model allows is used up; the last happens on no object the
    constructor builds. *)
Inductive outcome (A : Type) : Type :=
| Returned (a : A) (st : BitBuffer)
| OutsideBlock
| LoopBound.

Arguments Returned {A} a st.
Arguments OutsideBlock {A}.
Arguments LoopBound {A}.

(** A computation that prints: what was handed to [Serial] until the call
    ended, in order, and how it ended. *)
Definition Printing (A : Type) : Type :=
  BitBuffer -> list Serial.event * outcome A.

Definition pret {A} (a : A) : Printing A := fun st => ([], Returned a st).

Definition pbind {A B} (m : Printing A) (k : A -> Printing B) : Printing B :=
  fun st => match m st with
            | (out, Returned a st') =>
                let (out', o) := k a st' in (out ++ out', o)
            | (out, OutsideBlock) => (out, OutsideBlock)
            | (out, LoopBound) => (out, LoopBound)
            end.

(** [Serial.print(...)] and [Serial.println(...)]. *)
Definition emit (e : Serial.event) : Printing unit :=
  fun st => ([e], Returned tt st).

(** A method of the object called from a printing one. *)
Definition method {A} (m : M A) : Printing A :=
  fun st => match m st with
            | Some (a, st') => ([], Returned a st')
            | None => ([], OutsideBlock)
            end.

Notation "x <~ m ;; k" := (pbind m (fun x => k))
  (at level 61, m at next level, right associativity).
Notation "m ;;~ k" := (pbind m (fun _ => k))
  (at level 61, right associativity).

(** The [for] loop of [printContent2Serial], lines 554-582, from the counter
    value [bitIndexCounter] on.  The loop is counted by [fuel]; a run out of
    fuel ends in [LoopBound]. *)
Fixpoint print_slots (fuel : nat) (initialBitIndex bitIndexCounter : Z)
  : Printing unit :=
  match fuel with
  | O => fun _ => ([], LoopBound)
  | S fuel' =>
      bs <~ method getBitSize ;;
      full <~ method (gets s_full) ;;
      sz <~ method (gets getSize) ;;
      bi <~ method (gets s_bitIndex) ;;
      if to_ulong (bitIndexCounter + bs - 1)
         <? to_ulong (to_long (if full then to_uint (sz * bs) else bi))
      then
        emit Serial.entry_sep ;;~
        v <~ method (getValueInternal bitIndexCounter) ;;
        emit (Serial.PrintNum v) ;;~
        emit Serial.entry_open ;;~
        emit (Serial.PrintNum bitIndexCounter) ;;~
        pc <~ method (gets s_popCount) ;;
        let popped :=
          if (initialBitIndex =? bi) && (pc >? 0) then true
          else if initialBitIndex <? bi
               then (bitIndexCounter <? initialBitIndex)
                    || (bitIndexCounter >=? bi)
               else (bitIndexCounter >=? bi)
                    && (bitIndexCounter <? initialBitIndex) in
        (if popped then emit Serial.popped_mark else pret tt) ;;~
        let next :=
          (bitIndexCounter =? bi)
          || ((bi =? to_uint (bs * sz)) && (bitIndexCounter =? 0)) in
        (if next then emit Serial.next_mark else pret tt) ;;~
        emit Serial.entry_close ;;~
        print_slots fuel' initialBitIndex (to_ulong (bitIndexCounter + bs))
      else pret tt
  end.

(** [printContent2Serial()], lines 527-585.  The fuel is one more than the
    bound of the loop counter, which grows by [getBitSize() >= 1] per
    iteration. *)
Definition printContent2Serial : Printing unit :=
  c <~ method getValueCount ;;
  bs <~ method getBitSize ;;
  let bitDelta := to_uint (c * bs) in
  bi <~ method (gets s_bitIndex) ;;
  sz <~ method (gets getSize) ;;
  let initialBitIndex :=
    if bitDelta <? bi then to_ulong (bi - bitDelta)
    else to_ulong (to_uint (sz * bs) - bitDelta + bi) in
  emit Serial.list_open ;;~
  full <~ method (gets s_full) ;;
  let bound := if full then to_uint (sz * bs) else bi in
  print_slots (S (Z.to_nat bound)) initialBitIndex 0 ;;~
  emit Serial.list_close.

(** Is slot [k] read by [getValue(i)] for some valid index [i]? *)
Definition live (st : BitBuffer) (k : Z) : bool :=
  existsb (fun i => slot_offset st (Z.of_nat i) =? k * s_bitSize st)
          (seq 1 (Z.to_nat (valueCount st))).

(** The entry [printContent2Serial] is to print for slot [k]: the value in
    the slot, its bit offset, ["P"] unless the slot is live, ["N"] when the
    next [push] writes the slot. *)
Definition slot_entry (st : BitBuffer) (k : Z) : list Serial.event :=
  [Serial.entry_sep;
   Serial.PrintNum (field (s_data st) (k * s_bitSize st)
                          (Z.to_nat (s_bitSize st)));
   Serial.entry_open; Serial.PrintNum (k * s_bitSize st)]
  ++ (if live st k then [] else [Serial.popped_mark])
  ++ (if k * s_bitSize st =? s_bitIndex (reserve st)
      then [Serial.next_mark] else [])
  ++ [Serial.entry_close].

(** * Machine arithmetic and bit-level facts *)

Lemma to_int_small x : 0 <= x < 32768 -> to_int x = x.
Proof.
  intros H. unfold to_int. change (2 ^ 15) with 32768.
  change (2 ^ 16) with 65536. rewrite Z.mod_small; lia.
Qed.

Lemma to_uint_small x : 0 <= x < 65536 -> to_uint x = x.
Proof. intros H. unfold to_uint. apply Z.mod_small. exact H. Qed.

Lemma to_ulong_small x : 0 <= x < 4294967296 -> to_ulong x = x.
Proof. intros H. unfold to_ulong. apply Z.mod_small. exact H. Qed.

Lemma to_byte_range x : 0 <= to_byte x < 256.
Proof. unfold to_byte. apply Z.mod_pos_bound. reflexivity. Qed.

Lemma to_uint_range x : 0 <= to_uint x < 65536.
Proof. unfold to_uint. apply Z.mod_pos_bound. reflexivity. Qed.

Lemma byte_at_range x k : 0 <= byte_at x k < 256.
Proof. unfold byte_at. apply Z.mod_pos_bound. reflexivity. Qed.

Lemma to_uint_to_int x : 0 <= x < 65536 -> to_uint (to_int x) = x.
Proof.
  intros H. unfold to_uint, to_int.
  change (2 ^ 15) with 32768. change (2 ^ 16) with 65536.
  destruct (Z_lt_ge_dec x 32768) as [Hlt | Hge].
  - rewrite (Z.mod_small (x + 32768)) by lia.
    replace (x + 32768 - 32768) with x by lia. apply Z.mod_small. lia.
  - replace (x + 32768) with (x - 32768 + 1 * 65536) by lia.
    rewrite Z.mod_add by lia. rewrite (Z.mod_small (x - 32768)) by lia.
    replace (x - 32768 - 32768) with (x + (-1) * 65536) by lia.
    rewrite Z.mod_add by lia. apply Z.mod_small. lia.
Qed.

Lemma testbit_small v n j :
  0 <= v < 2 ^ n -> 0 <= n <= j -> Z.testbit v j = false.
Proof.
  intros Hv Hj. rewrite <- (Z.mod_small v (2 ^ n)) by exact Hv.
  apply Z.mod_pow2_bits_high. exact Hj.
Qed.

Lemma small_of_testbit r n :
  0 <= n -> 0 <= r -> (forall j, n <= j -> Z.testbit r j = false) ->
  r < 2 ^ n.
Proof.
  intros Hn Hr Hbits.
  destruct (Z_lt_ge_dec r (2 ^ n)) as [Hlt | Hge]; [exact Hlt | exfalso].
  assert (Hpos : 0 < r) by (pose proof (Z.pow_pos_nonneg 2 n); lia).
  pose proof (Z.bit_log2 r Hpos) as Hb.
  assert (Hl : n <= Z.log2 r) by (apply Z.log2_le_pow2; lia).
  rewrite (Hbits _ Hl) in Hb. discriminate.
Qed.

Ltac kill_small :=
  repeat match goal with
  | H : 0 <= ?v < 2 ^ ?n |- context [Z.testbit ?v ?l] =>
      rewrite (testbit_small v n l) by lia
  | H : 0 <= ?v < 256 |- context [Z.testbit ?v ?l] =>
      rewrite (testbit_small v 8 l) by (change (2 ^ 8) with 256; lia)
  | |- context [Z.testbit ?v ?l] =>
      rewrite (Z.testbit_neg_r v l) by lia
  end.

Ltac split_leb :=
  repeat match goal with
  | |- context [ ?a <=? ?b ] => destruct (Z.leb_spec a b)
  | |- context [ ?a <? ?b ] => destruct (Z.ltb_spec a b)
  end.

Ltac bits_fin :=
  split_leb; try lia; kill_small; cbn [andb orb negb];
  try reflexivity; try btauto.

Ltac blast_core :=
  repeat (progress Z.rewrite_bitwise);
  Z.discover_equal_testbit_indices;
  bits_fin.

Ltac norm_conv :=
  repeat match goal with
  | |- context [to_uint ?x] => rewrite (to_uint_small x) by lia
  | |- context [to_int ?x] => rewrite (to_int_small x) by lia
  end.

(** [0xFF - mask] clears the bits of [mask]. *)
Lemma sub_mask a m :
  0 <= m < 256 -> Z.land a (255 - m) = Z.land a (Z.ldiff (Z.ones 8) m).
Proof.
  intros H. f_equal. change 255 with (Z.ones 8).
  apply Z.sub_nocarry_ldiff. Z.bitblast.
  rewrite (testbit_small m 8) by (change (2 ^ 8) with 256; lia).
  reflexivity.
Qed.

Lemma uint_of_bytes_lor lo hi :
  0 <= lo < 256 -> 0 <= hi ->
  uint_of_bytes lo hi = Z.lor lo (Z.shiftl hi 8).
Proof.
  intros Hlo Hhi. unfold uint_of_bytes.
  replace (2 ^ 8 * hi) with (Z.shiftl hi 8)
    by (rewrite Z.shiftl_mul_pow2; lia).
  symmetry. apply Z.or_to_plus. Z.bitblast.
  destruct (Z.ltb_spec i 8); kill_small; btauto.
Qed.

Ltac byte_blast :=
  rewrite ?sub_mask by (apply to_byte_range);
  unfold to_byte, to_uint, byte_at;
  rewrite ?Z.mul_0_r, ?Z.mul_1_r, ?Z.pow_0_r, ?Z.div_1_r;
  change 255 with (Z.ones 8);
  blast_core.

Section ByteLevel.
Variables (a v off bs j : Z).
Hypothesis Ha : 0 <= a < 256.
Hypothesis Hoff : 0 <= off < 8.
Hypothesis Hv : 0 <= v < 2 ^ bs.
Hypothesis Hj : 0 <= j < 8.

Lemma merge_A1 :
  1 <= bs -> off + bs <= 8 ->
  let valueLow := byte_at v 0 in
  let valueLow := to_byte (Z.shiftl valueLow (to_uint (8 - off - bs))) in
  let mask := to_byte (Z.shiftl 255 (to_uint (8 - bs))) in
  let mask := to_byte (Z.shiftr mask off) in
  Z.testbit (merge a mask valueLow) j = wbit a v off bs 0 j.
Proof.
  intros Hbs Hfit. cbv zeta. unfold wbit, merge. norm_conv. byte_blast.
Qed.

Lemma merge_A2_0 :
  1 <= bs <= 8 -> 8 < off + bs ->
  let valueLow := byte_at v 0 in
  let overlength := to_int (to_uint (off + bs - 8)) in
  let v1 := to_byte (Z.shiftr valueLow overlength) in
  let mask := to_byte (Z.shiftl 255 (to_uint (8 - bs))) in
  let mask := to_byte (Z.shiftr mask (to_uint (8 - bs + overlength))) in
  Z.testbit (merge a mask v1) j = wbit a v off bs 0 j.
Proof.
  intros Hbs Hfit. cbv zeta. unfold wbit, merge. norm_conv. byte_blast.
Qed.

Lemma merge_A2_1 :
  1 <= bs <= 8 -> 8 < off + bs ->
  let valueLow := byte_at v 0 in
  let overlength := to_int (to_uint (off + bs - 8)) in
  let v2 := to_byte (Z.shiftl valueLow (8 - overlength)) in
  let mask := to_byte (Z.shiftl 255 (8 - overlength)) in
  Z.testbit (merge a mask v2) j = wbit a v off bs 1 j.
Proof.
  intros Hbs Hfit. cbv zeta. unfold wbit, merge. norm_conv. byte_blast.
Qed.

Lemma merge_B1_0 :
  9 <= bs <= 15 -> off + bs <= 16 ->
  let overlength := to_int (to_uint (off + bs - 8)) in
  let valueIntShifted := to_uint (Z.shiftl v (8 - overlength)) in
  let v1 := byte_at valueIntShifted 1 in
  let mask :=
    to_byte (Z.shiftl 255 (to_uint (8 - (bs - 8) - (8 - overlength)))) in
  let mask :=
    to_byte (Z.shiftr mask (to_uint (8 - (bs - 8) - (8 - overlength)))) in
  Z.testbit (merge a mask v1) j = wbit a v off bs 0 j.
Proof.
  intros Hbs Hfit. cbv zeta. unfold wbit, merge. norm_conv.
  byte_blast.
Qed.

Lemma merge_B1_1 :
  9 <= bs <= 15 -> off + bs <= 16 ->
  let overlength := to_int (to_uint (off + bs - 8)) in
  let valueIntShifted := to_uint (Z.shiftl v (8 - overlength)) in
  let v2 := byte_at valueIntShifted 0 in
  let mask := to_byte (Z.shiftl 255 (8 - overlength)) in
  Z.testbit (merge a mask v2) j = wbit a v off bs 1 j.
Proof.
  intros Hbs Hfit. cbv zeta. unfold wbit, merge. norm_conv. byte_blast.
Qed.

Lemma merge_B2_0 :
  9 <= bs <= 15 -> 16 < off + bs ->
  let v1 := to_byte (Z.shiftr v (to_uint (bs - (8 - off)))) in
  let mask := to_byte (Z.shiftl 255 off) in
  let mask := to_byte (Z.shiftr mask off) in
  Z.testbit (merge a mask v1) j = wbit a v off bs 0 j.
Proof.
  intros Hbs Hfit. cbv zeta. unfold wbit, merge. norm_conv. byte_blast.
Qed.

Lemma store_B2_1 :
  9 <= bs <= 15 -> 16 < off + bs ->
  let valueIntShifted :=
    to_uint (Z.shiftl v (to_uint ((8 - off) + (16 - bs)))) in
  let v2 := byte_at valueIntShifted 1 in
  Z.testbit v2 j = wbit a v off bs 1 j.
Proof.
  intros Hbs Hfit. cbv zeta. unfold wbit. norm_conv.
  byte_blast.
Qed.

Lemma merge_B2_2 :
  9 <= bs <= 15 -> 16 < off + bs ->
  let overlength := to_int (to_uint (off + bs - 16)) in
  let valueIntShifted :=
    to_uint (Z.shiftl v (to_uint ((8 - off) + (16 - bs)))) in
  let v3 := byte_at valueIntShifted 0 in
  let mask := to_byte (Z.shiftl 255 (8 - overlength)) in
  Z.testbit (merge a mask v3) j = wbit a v off bs 2 j.
Proof.
  intros Hbs Hfit. cbv zeta. unfold wbit, merge. norm_conv. byte_blast.
Qed.

End ByteLevel.

Lemma getIntegerValue_bytes hi lo :
  0 <= hi < 256 -> 0 <= lo < 256 ->
  getIntegerValue hi lo = Z.lor lo (Z.shiftl hi 8).
Proof.
  intros Hhi Hlo. unfold getIntegerValue.
  rewrite to_uint_to_int by (unfold uint_of_bytes; change (2 ^ 8) with 256; lia).
  apply uint_of_bytes_lor; lia.
Qed.

Lemma long_of_bytes_lor a0 a1 a2 :
  0 <= a0 < 256 -> 0 <= a1 < 256 -> 0 <= a2 < 256 ->
  a2 + 2 ^ 8 * a1 + 2 ^ 16 * a0
  = Z.lor a2 (Z.lor (Z.shiftl a1 8) (Z.shiftl a0 16)).
Proof.
  intros H0 H1 H2.
  replace (2 ^ 8 * a1) with (Z.shiftl a1 8)
    by (rewrite Z.shiftl_mul_pow2; lia).
  replace (2 ^ 16 * a0) with (Z.shiftl a0 16)
    by (rewrite Z.shiftl_mul_pow2; lia).
  rewrite <- Z.add_assoc.
  rewrite <- (Z.or_to_plus (Z.shiftl a1 8)).
  - symmetry. apply Z.or_to_plus. Z.bitblast.
    destruct (Z.ltb_spec i 8); kill_small; btauto.
  - Z.bitblast. destruct (Z.ltb_spec i 16); kill_small; btauto.
Qed.

Ltac read_blast :=
  unfold to_byte, to_uint, to_ulong;
  change 255 with (Z.ones 8);
  blast_core.

Section ReadLevel.
Variables (a0 a1 a2 off bs k : Z).
Hypothesis H0 : 0 <= a0 < 256.
Hypothesis H1 : 0 <= a1 < 256.
Hypothesis H2 : 0 <= a2 < 256.
Hypothesis Hoff : 0 <= off < 8.
Hypothesis Hk : 0 <= k.

Lemma read_R1 :
  1 <= bs -> off + bs <= 8 ->
  let mask := to_byte (Z.shiftl 255 (to_uint (8 - bs))) in
  let mask := to_byte (Z.shiftr mask off) in
  let v1 := to_byte (Z.land a0 mask) in
  let v1 := to_byte (Z.shiftr v1 (to_uint (8 - off - bs))) in
  Z.testbit (getIntegerValue 0 v1) k = (k <? bs) && rbit a0 a1 a2 off bs k.
Proof.
  intros Hbs Hfit. cbv zeta. unfold rbit.
  rewrite getIntegerValue_bytes by (try apply to_byte_range; lia).
  norm_conv. read_blast.
Qed.

Lemma read_R2a :
  1 <= bs <= 8 -> 8 < off + bs ->
  let overlength := to_int (to_uint (off + bs - 8)) in
  let mask := to_byte (Z.shiftl 255 (to_uint (8 - bs + overlength))) in
  let mask := to_byte (Z.shiftr mask off) in
  let valueHigh := to_byte (Z.land a0 mask) in
  let mask := to_byte (Z.shiftl 255 (8 - overlength)) in
  let valueLow := to_byte (Z.land a1 mask) in
  let valueHigh := to_byte (Z.shiftl valueHigh overlength) in
  let valueLow := to_byte (Z.shiftr valueLow (8 - overlength)) in
  Z.testbit (getIntegerValue 0 (Z.lor valueHigh valueLow)) k
  = (k <? bs) && rbit a0 a1 a2 off bs k.
Proof.
  intros Hbs Hfit. cbv zeta. unfold rbit.
  rewrite getIntegerValue_bytes.
  - norm_conv. read_blast.
  - lia.
  - split.
    + apply Z.lor_nonneg. split; apply to_byte_range.
    + apply small_of_testbit with (n := 8); try lia.
      * apply Z.lor_nonneg. split; apply to_byte_range.
      * intros j Hj. rewrite Z.lor_spec.
        rewrite !(testbit_small (to_byte _) 8) by (try apply to_byte_range; lia).
        reflexivity.
Qed.

Lemma read_R2b :
  9 <= bs <= 15 -> off + bs <= 16 ->
  let overlength := to_int (to_uint (off + bs - 8)) in
  let mask := to_byte (Z.shiftl 255 (to_uint (8 - bs + overlength))) in
  let mask := to_byte (Z.shiftr mask off) in
  let valueHigh := to_byte (Z.land a0 mask) in
  let mask := to_byte (Z.shiftl 255 (8 - overlength)) in
  let valueLow := to_byte (Z.land a1 mask) in
  let valueIntShifted := getIntegerValue valueHigh valueLow in
  Z.testbit
    (to_uint (Z.shiftr valueIntShifted (to_uint (16 - (off + bs))))) k
  = (k <? bs) && rbit a0 a1 a2 off bs k.
Proof.
  intros Hbs Hfit. cbv zeta. unfold rbit.
  rewrite getIntegerValue_bytes by apply to_byte_range.
  replace (to_uint (8 - bs + to_int (to_uint (off + bs - 8)))) with off.
  2:{ rewrite (to_uint_small (off + bs - 8)), to_int_small by lia.
      replace (8 - bs + (off + bs - 8)) with off by lia.
      rewrite to_uint_small; lia. }
  norm_conv. read_blast.
Qed.

Lemma read_R3 :
  9 <= bs <= 15 -> 16 < off + bs ->
  let overlength := to_int (to_uint (off + bs - 16)) in
  let valueLongShifted := a2 + 2 ^ 8 * a1 + 2 ^ 16 * a0 in
  let valueLongShifted :=
    to_ulong (Z.shiftl valueLongShifted (8 + off)) in
  let valueLongShifted :=
    to_ulong (Z.shiftr valueLongShifted (8 + off + (8 - overlength))) in
  Z.testbit (to_uint valueLongShifted) k
  = (k <? bs) && rbit a0 a1 a2 off bs k.
Proof.
  intros Hbs Hfit. cbv zeta. unfold rbit.
  rewrite long_of_bytes_lor by assumption.
  norm_conv. read_blast.
Qed.

End ReadLevel.

(** * The block as a list of bytes *)

Lemma length_upd l n v : length (upd l n v) = length l.
Proof.
  revert n; induction l as [| h t IH]; intros [| n]; simpl; auto.
Qed.

Lemma nth_upd_same l n v : (n < length l)%nat -> nth n (upd l n v) 0 = v.
Proof.
  revert n; induction l as [| h t IH]; intros [| n] H; simpl in *;
    try lia; auto. apply IH. lia.
Qed.

Lemma nth_upd_other l n m v : m <> n -> nth m (upd l n v) 0 = nth m l 0.
Proof.
  revert n m; induction l as [| h t IH]; intros [| n] [| m] H; simpl;
    try congruence; auto.
Qed.

Lemma nth_upd_Z d i k x :
  0 <= i < Z.of_nat (length d) -> 0 <= k ->
  nth (Z.to_nat k) (upd d (Z.to_nat i) x) 0
  = if k =? i then x else nth (Z.to_nat k) d 0.
Proof.
  intros Hi Hk. destruct (Z.eqb_spec k i) as [-> | Hne].
  - apply nth_upd_same. lia.
  - apply nth_upd_other. lia.
Qed.

Lemma bytes_upd d n x : bytes d -> 0 <= x < 256 -> bytes (upd d n x).
Proof.
  unfold bytes. intros Hd Hx. revert n.
  induction Hd as [| h t Hh Ht IH]; intros [| n]; simpl; constructor; auto.
Qed.

Lemma bytes_nth d n : bytes d -> 0 <= nth n d 0 < 256.
Proof.
  unfold bytes. intros Hd. revert n.
  induction Hd as [| h t Hh Ht IH]; intros [| n]; simpl; auto; lia.
Qed.

Lemma load_in d i :
  0 <= i < Z.of_nat (length d) -> load d i = Some (nth (Z.to_nat i) d 0).
Proof.
  intros H. unfold load, in_block.
  destruct (Z.leb_spec 0 i); destruct (Z.ltb_spec i (Z.of_nat (length d)));
    simpl; try lia; reflexivity.
Qed.

Lemma store_in d i x :
  0 <= i < Z.of_nat (length d) -> store d i x = Some (upd d (Z.to_nat i) x).
Proof.
  intros H. unfold store, in_block.
  destruct (Z.leb_spec 0 i); destruct (Z.ltb_spec i (Z.of_nat (length d)));
    simpl; try lia; reflexivity.
Qed.

Lemma load_out d i : i < 0 -> load d i = None.
Proof.
  intros H. unfold load, in_block.
  destruct (Z.leb_spec 0 i); simpl; try lia; reflexivity.
Qed.

Lemma merge_range a m x : 0 <= merge a m x < 256.
Proof. unfold merge. apply to_byte_range. Qed.

(** * Writing a field *)

Ltac bit_cases i n :=
  let q := fresh "q" in
  let r := fresh "r" in
  let Hq := fresh "Hq" in
  let Hr := fresh "Hr" in
  assert (Hq : n = 8 * (n / 8) + n mod 8) by (apply Z.div_mod; lia);
  assert (Hr : 0 <= n mod 8 < 8) by (apply Z.mod_pos_bound; lia);
  set (q := n / 8) in *; set (r := n mod 8) in *;
  assert (0 <= q) by lia.

Lemma push_write_spec maxv bs o v d :
  field_ok maxv bs -> bytes d ->
  0 <= o -> o / 8 < 32768 -> o + bs <= 8 * Z.of_nat (length d) ->
  exists d', push_write maxv bs o v d = Some d' /\
             length d' = length d /\ bytes d' /\
             (0 <= v < 2 ^ bs -> written d d' o bs v).
Proof.
  intros (Hbs & Hlow & Hhigh) Hd Ho Hidx Hlen.
  assert (Ho8 : o = 8 * (o / 8) + o mod 8) by (apply Z.div_mod; lia).
  assert (Hoff : 0 <= o mod 8 < 8) by (apply Z.mod_pos_bound; lia).
  unfold push_write.
  rewrite (to_int_small (o / 8)), (to_int_small (o mod 8)) by lia.
  set (i := o / 8) in *. set (off := o mod 8) in *.
  assert (Hi : 0 <= i) by lia.
  unfold RANGE256.
  destruct (Z.leb_spec maxv 255) as [Hm | Hm].
  - specialize (Hlow Hm). clear Hhigh.
    rewrite (to_uint_small (off + bs)) by lia.
    destruct (Z.leb_spec (off + bs) 8) as [Hfit | Hfit].
    + rewrite load_in, store_in by lia.
      eexists; split; [reflexivity |].
      split; [apply length_upd |].
      split; [apply bytes_upd; [assumption | apply merge_range] |].
      intros Hv n Hn. unfold bit_at. bit_cases i n.
      rewrite nth_upd_Z by lia.
      destruct (Z.eqb_spec q i) as [Hqi | Hqi].
      * etransitivity;
          [apply merge_A1; try lia; apply bytes_nth; assumption |].
        unfold wbit. rewrite Hqi. bits_fin; f_equal; lia.
      * bits_fin.
    + rewrite load_in, store_in by lia. rewrite load_in, store_in
        by (rewrite length_upd; lia).
      eexists; split; [reflexivity |].
      split; [rewrite !length_upd; reflexivity |].
      split; [repeat apply bytes_upd; try assumption; apply merge_range |].
      intros Hv n Hn. unfold bit_at. bit_cases i n.
      rewrite !nth_upd_Z by (rewrite ?length_upd; lia).
      destruct (Z.eqb_spec q (i + 1)) as [Hq1 | Hq1];
        [| destruct (Z.eqb_spec q i) as [Hqi | Hqi]].
      * rewrite Hq1. destruct (Z.eqb_spec (i + 1) i); [lia |].
        etransitivity;
          [apply merge_A2_1; try lia; apply bytes_nth; assumption |].
        unfold wbit. bits_fin; f_equal; lia.
      * rewrite Hqi. etransitivity;
          [apply merge_A2_0; try lia; apply bytes_nth; assumption |].
        unfold wbit. bits_fin; f_equal; lia.
      * bits_fin.
  - specialize (Hhigh Hm). clear Hlow.
    rewrite (to_uint_small (off + bs)) by lia.
    destruct (Z.leb_spec (off + bs) 16) as [Hfit | Hfit].
    + rewrite load_in, store_in by lia. rewrite load_in, store_in
        by (rewrite length_upd; lia).
      eexists; split; [reflexivity |].
      split; [rewrite !length_upd; reflexivity |].
      split; [repeat apply bytes_upd; try assumption; apply merge_range |].
      intros Hv n Hn. unfold bit_at. bit_cases i n.
      rewrite !nth_upd_Z by (rewrite ?length_upd; lia).
      destruct (Z.eqb_spec q (i + 1)) as [Hq1 | Hq1];
        [| destruct (Z.eqb_spec q i) as [Hqi | Hqi]].
      * rewrite Hq1. destruct (Z.eqb_spec (i + 1) i); [lia |].
        etransitivity;
          [apply merge_B1_1; try lia; apply bytes_nth; assumption |].
        unfold wbit. bits_fin; f_equal; lia.
      * rewrite Hqi. etransitivity;
          [apply merge_B1_0; try lia; apply bytes_nth; assumption |].
        unfold wbit. bits_fin; f_equal; lia.
      * bits_fin.
    + rewrite load_in, store_in by lia.
      rewrite store_in by (rewrite length_upd; lia).
      rewrite load_in, store_in by (rewrite !length_upd; lia).
      eexists; split; [reflexivity |].
      split; [rewrite !length_upd; reflexivity |].
      split; [repeat apply bytes_upd; try assumption;
              try apply merge_range; apply byte_at_range |].
      intros Hv n Hn. unfold bit_at. bit_cases i n.
      rewrite !nth_upd_Z by (rewrite ?length_upd; lia).
      destruct (Z.eqb_spec q (i + 2)) as [Hq2 | Hq2];
        [| destruct (Z.eqb_spec q (i + 1)) as [Hq1 | Hq1];
           [| destruct (Z.eqb_spec q i) as [Hqi | Hqi]]].
      * rewrite Hq2. destruct (Z.eqb_spec (i + 2) (i + 1)); [lia |].
        destruct (Z.eqb_spec (i + 2) i); [lia |].
        etransitivity;
          [apply merge_B2_2; try lia; apply bytes_nth; assumption |].
        unfold wbit. bits_fin; f_equal; lia.
      * rewrite Hq1. etransitivity;
          [apply (store_B2_1 0); try lia |].
        unfold wbit. bits_fin; f_equal; lia.
      * rewrite Hqi. etransitivity;
          [apply merge_B2_0; try lia; apply bytes_nth; assumption |].
        unfold wbit. bits_fin; f_equal; lia.
      * bits_fin.
Qed.

(** * Reading a field *)

Lemma eq_of_bits r1 r2 n :
  0 <= n -> 0 <= r1 < 2 ^ n -> 0 <= r2 < 2 ^ n ->
  (forall k, 0 <= k < n -> Z.testbit r1 k = Z.testbit r2 k) -> r1 = r2.
Proof.
  intros Hn H1 H2 Hbits. apply Z.bits_inj'. intros k Hk.
  destruct (Z_lt_ge_dec k n) as [Hlt | Hge].
  - apply Hbits. lia.
  - rewrite (testbit_small r1 n), (testbit_small r2 n) by lia. reflexivity.
Qed.

Lemma rbit_bit_at d o bs k :
  0 <= o -> 1 <= bs <= 15 -> 0 <= k < bs ->
  rbit (nth (Z.to_nat (o / 8)) d 0) (nth (Z.to_nat (o / 8 + 1)) d 0)
       (nth (Z.to_nat (o / 8 + 2)) d 0) (o mod 8) bs k
  = bit_at d (o + bs - 1 - k).
Proof.
  intros Ho Hbs Hk. unfold rbit, bit_at.
  assert (Ho8 : o = 8 * (o / 8) + o mod 8) by (apply Z.div_mod; lia).
  assert (Hoff : 0 <= o mod 8 < 8) by (apply Z.mod_pos_bound; lia).
  set (i := o / 8) in *. set (off := o mod 8) in *.
  set (n := o + bs - 1 - k).
  assert (Hn : 0 <= n) by (unfold n; lia).
  bit_cases i n.
  cbv zeta. split_leb.
  - replace q with i by lia. f_equal. lia.
  - replace q with (i + 1) by lia. f_equal. lia.
  - replace q with (i + 2) by lia. f_equal. lia.
Qed.

Lemma read_finish d o bs r :
  0 <= o -> 1 <= bs <= 15 -> 0 <= r ->
  (forall k, 0 <= k ->
     Z.testbit r k
     = (k <? bs) &&
       rbit (nth (Z.to_nat (o / 8)) d 0) (nth (Z.to_nat (o / 8 + 1)) d 0)
            (nth (Z.to_nat (o / 8 + 2)) d 0) (o mod 8) bs k) ->
  0 <= r < 2 ^ bs /\
  forall k, 0 <= k < bs -> Z.testbit r k = bit_at d (o + bs - 1 - k).
Proof.
  intros Ho Hbs Hr Hbits. split; [split; [exact Hr |] |].
  - apply small_of_testbit; try lia. intros j Hj.
    rewrite Hbits by lia. destruct (Z.ltb_spec j bs); [lia | reflexivity].
  - intros k Hk. rewrite Hbits by lia.
    destruct (Z.ltb_spec k bs); [| lia]. simpl.
    apply rbit_bit_at; lia.
Qed.

Lemma getIntegerValue_nonneg hi lo : 0 <= getIntegerValue hi lo.
Proof. unfold getIntegerValue. apply to_uint_range. Qed.

Lemma read_field_spec maxv bs o d :
  field_ok maxv bs -> bytes d ->
  0 <= o < 32768 -> o + bs <= 8 * Z.of_nat (length d) ->
  exists r, read_field maxv bs o d = Some r /\
            0 <= r < 2 ^ bs /\
            forall k, 0 <= k < bs ->
                      Z.testbit r k = bit_at d (o + bs - 1 - k).
Proof.
  intros (Hbs & Hlow & Hhigh) Hd Ho Hlen.
  assert (Ho8 : o = 8 * (o / 8) + o mod 8) by (apply Z.div_mod; lia).
  assert (Hoff : 0 <= o mod 8 < 8) by (apply Z.mod_pos_bound; lia).
  pose proof (bytes_nth d (Z.to_nat (o / 8)) Hd) as B0.
  pose proof (bytes_nth d (Z.to_nat (o / 8 + 1)) Hd) as B1.
  pose proof (bytes_nth d (Z.to_nat (o / 8 + 2)) Hd) as B2.
  unfold read_field.
  rewrite (to_int_small o), (to_int_small (o mod 8)) by lia.
  rewrite Z.quot_div_nonneg by lia.
  rewrite (to_uint_small (o mod 8 + bs)) by lia.
  destruct (Z.leb_spec (o mod 8 + bs) 8) as [Hfit | Hfit].
  - rewrite load_in by lia.
    eexists; split; [reflexivity |].
    apply read_finish; try lia; [apply getIntegerValue_nonneg |].
    intros k Hk. apply read_R1; try assumption; lia.
  - destruct (Z.leb_spec (o mod 8 + bs) 16) as [Hfit2 | Hfit2].
    + rewrite !load_in by lia. unfold RANGE256.
      destruct (Z.leb_spec maxv 255) as [Hm | Hm].
      * eexists; split; [reflexivity |].
        apply read_finish; try lia; [apply getIntegerValue_nonneg |].
        intros k Hk. apply read_R2a; try assumption; lia.
      * eexists; split; [reflexivity |].
        apply read_finish; try lia; [apply to_uint_range |].
        intros k Hk. apply read_R2b; try assumption; lia.
    + rewrite !load_in by lia.
      eexists; split; [reflexivity |].
      apply read_finish; try lia; [apply to_uint_range |].
      intros k Hk. apply read_R3; try assumption; lia.
Qed.

(** * The value of a field *)

Lemma field_range d o w : 0 <= field d o w < 2 ^ Z.of_nat w.
Proof.
  induction w as [| w IH].
  - simpl. lia.
  - rewrite Nat2Z.inj_succ, Z.pow_succ_r by lia. cbn [field].
    destruct (bit_at d (o + Z.of_nat w)); simpl Z.b2z; lia.
Qed.

Lemma field_testbit d o w k :
  0 <= k < Z.of_nat w ->
  Z.testbit (field d o w) k = bit_at d (o + Z.of_nat w - 1 - k).
Proof.
  revert k. induction w as [| w IH]; intros k Hk; [lia |].
  cbn [field]. destruct (Z.eq_dec k 0) as [-> | Hne].
  - rewrite Z.testbit_0_r. f_equal. lia.
  - replace k with (Z.succ (k - 1)) at 1 by lia.
    rewrite Z.testbit_succ_r by lia. rewrite IH by lia. f_equal. lia.
Qed.

Lemma field_ext d d' o w :
  (forall n, o <= n < o + Z.of_nat w -> bit_at d' n = bit_at d n) ->
  field d' o w = field d o w.
Proof.
  induction w as [| w IH]; intros H; [reflexivity |].
  cbn [field]. rewrite IH, H; [reflexivity | lia |].
  intros n Hn. apply H. lia.
Qed.

Lemma read_field_field maxv bs o d :
  field_ok maxv bs -> bytes d ->
  0 <= o < 32768 -> o + bs <= 8 * Z.of_nat (length d) ->
  read_field maxv bs o d = Some (field d o (Z.to_nat bs)).
Proof.
  intros Hok Hd Ho Hlen.
  destruct (read_field_spec maxv bs o d Hok Hd Ho Hlen) as (r & Hr & Hrng & Hb).
  rewrite Hr. f_equal. destruct Hok as (Hbs & _).
  pose proof (field_range d o (Z.to_nat bs)) as Hf.
  rewrite Z2Nat.id in Hf by lia.
  apply (eq_of_bits _ _ bs); try lia.
  intros k Hk. rewrite Hb by lia. rewrite field_testbit by lia.
  rewrite Z2Nat.id by lia. reflexivity.
Qed.

Lemma field_written_same d d' o bs v :
  written d d' o bs v -> 0 <= o -> 0 <= bs -> 0 <= v < 2 ^ bs ->
  field d' o (Z.to_nat bs) = v.
Proof.
  intros Hw Ho Hbs Hv.
  pose proof (field_range d' o (Z.to_nat bs)) as Hf.
  rewrite Z2Nat.id in Hf by lia.
  apply (eq_of_bits _ _ bs); try lia.
  intros k Hk. rewrite field_testbit by lia. rewrite Z2Nat.id by lia.
  rewrite Hw by lia.
  destruct (Z.leb_spec o (o + bs - 1 - k));
    destruct (Z.ltb_spec (o + bs - 1 - k) (o + bs)); try lia.
  simpl. f_equal. lia.
Qed.

Lemma field_written_other d d' o bs v o' w :
  written d d' o bs v -> 0 <= o' ->
  o' + Z.of_nat w <= o \/ o + bs <= o' ->
  field d' o' w = field d o' w.
Proof.
  intros Hw Ho' Hdis. apply field_ext. intros n Hn. rewrite Hw by lia.
  destruct (Z.leb_spec o n); destruct (Z.ltb_spec n (o + bs));
    simpl; try reflexivity; lia.
Qed.

(** * RangeCodec *)

Lemma forall_below (P : Z -> bool) (n : nat) :
  forallb P (map Z.of_nat (seq 0 n)) = true ->
  forall z, 0 <= z < Z.of_nat n -> P z = true.
Proof.
  intros H z Hz. rewrite forallb_forall in H. apply H.
  rewrite in_map_iff. exists (Z.to_nat z). split; [lia |].
  apply in_seq. lia.
Qed.

Lemma canonical_range_byte r : canonical_range r = true -> 0 <= r < 256.
Proof.
  unfold canonical_range, canonical_ranges. simpl.
  rewrite !orb_true_iff, !Z.eqb_eq.
  unfold RANGE2, RANGE4, RANGE8, RANGE16, RANGE32, RANGE64, RANGE128,
    RANGE256, RANGE512, RANGE1024, RANGE2048, RANGE4096, RANGE8192,
    RANGE16384, RANGE32768.
  intros H. repeat (destruct H as [H | H]; [lia |]). discriminate.
Qed.

Lemma field_ok_bitSize r :
  0 <= r < 256 -> field_ok (getMaxRangeValue_of r) (bitSize_of r).
Proof.
  intros Hr.
  pose proof (forall_below
    (fun r => (1 <=? bitSize_of r) && (bitSize_of r <=? 15)
              && (if getMaxRangeValue_of r <=? 255
                  then bitSize_of r <=? 8 else 9 <=? bitSize_of r))
    256 eq_refl r Hr) as H.
  apply andb_true_iff in H. destruct H as [H H3].
  apply andb_true_iff in H. destruct H as [H1 H2].
  apply Z.leb_le in H1, H2. unfold field_ok.
  destruct (Z.leb_spec (getMaxRangeValue_of r) 255);
    apply Z.leb_le in H3; lia.
Qed.

Lemma canonical_maxRange r :
  canonical_range r = true ->
  getMaxRangeValue_of r = 2 ^ bitSize_of r - 1.
Proof.
  intros Hc. pose proof (canonical_range_byte r Hc) as Hr.
  pose proof (forall_below
    (fun r => negb (canonical_range r)
              || (getMaxRangeValue_of r =? 2 ^ bitSize_of r - 1))
    256 eq_refl r Hr) as H.
  cbv beta in H. rewrite Hc in H. simpl in H. apply Z.eqb_eq in H. exact H.
Qed.

(** * The methods on an object whose bit width is cached *)

Lemma getBitSize_cached st :
  1 <= s_bitSize st -> getBitSize st = Some (s_bitSize st, st).
Proof.
  intros H. unfold getBitSize.
  destruct (Z.ltb_spec (s_bitSize st) 1); [lia | reflexivity].
Qed.

Lemma getBitSize_fresh st :
  s_bitSize st < 1 ->
  getBitSize st
  = Some (bitSize_of (s_range st), set_bitSize st (bitSize_of (s_range st))).
Proof.
  intros H. unfold getBitSize.
  destruct (Z.ltb_spec (s_bitSize st) 1); [reflexivity | lia].
Qed.

Lemma getValueCount_cached st :
  1 <= s_bitSize st -> getValueCount st = Some (valueCount st, st).
Proof.
  intros H. unfold getValueCount, valueCount, stored, bind, gets, ret.
  destruct (s_full st); [reflexivity |].
  rewrite getBitSize_cached by exact H. reflexivity.
Qed.

Lemma getValueInternal_cached p st :
  1 <= s_bitSize st ->
  getValueInternal p st
  = match read_field (getMaxRangeValue st) (s_bitSize st) p (s_data st) with
    | Some v => Some (v, st)
    | None => None
    end.
Proof.
  intros H. unfold getValueInternal, bind, gets, lift.
  rewrite getBitSize_cached by exact H. reflexivity.
Qed.

Lemma getValue_cached i st :
  1 <= s_bitSize st ->
  getValue i st
  = if (valueCount st <? i) || (i <? 1) then Some (0, st)
    else getValueInternal (slot_offset st i) st.
Proof.
  intros H. unfold getValue, bind.
  rewrite getValueCount_cached by exact H.
  destruct ((valueCount st <? i) || (i <? 1)); [reflexivity |].
  rewrite getValueCount_cached, getBitSize_cached by exact H.
  reflexivity.
Qed.

Lemma pop_cached st :
  1 <= s_bitSize st ->
  pop st
  = if valueCount st <=? 0 then Some (0, st)
    else match getValue 1 st with
         | Some (r, st') =>
             Some (r, set_popCount st' (to_uint (s_popCount st' + 1)))
         | None => None
         end.
Proof.
  intros H. unfold pop, bind.
  rewrite getValueCount_cached by exact H.
  destruct (valueCount st <=? 0); [reflexivity |].
  destruct (getValue 1 st) as [[r st'] |]; reflexivity.
Qed.

Lemma push_cached v st :
  1 <= s_bitSize st ->
  push v st
  = match overflow_policy st v with
    | None => Some (false, st)
    | Some v' =>
        match push_write (getMaxRangeValue st) (s_bitSize st)
                         (s_bitIndex (reserve st)) v' (s_data st) with
        | Some d' => Some (true, pushed st d')
        | None => None
        end
    end.
Proof.
  intros H. unfold push. destruct (overflow_policy st v) as [v' |];
    [| reflexivity].
  unfold bind. rewrite getBitSize_cached by exact H.
  unfold gets, modify, ret, lift, pushed, reserve, getSize.
  destruct (to_ulong (s_bitIndex st + s_bitSize st)
              >? to_uint (s_size st * s_bitSize st));
    unfold getMaxRangeValue; simpl;
    repeat match goal with
    | |- context [push_write ?a ?b ?c ?e ?f] =>
        destruct (push_write a b c e f) as [d' |]; simpl
    end; try reflexivity;
    match goal with
    | |- context [?x >? 0] => destruct (x >? 0)
    end; reflexivity.
Qed.

(** * The state invariant *)

Lemma wf_bs st :
  wf st ->
  1 <= s_bitSize st <= 15 /\ field_ok (getMaxRangeValue st) (s_bitSize st).
Proof.
  intros W. pose proof (field_ok_bitSize _ (wf_range st W)) as Hok.
  rewrite (wf_bitSize st W). unfold getMaxRangeValue.
  split; [apply Hok | exact Hok].
Qed.

(** The cursor is a whole number of slots. *)
Lemma wf_slot st :
  wf st ->
  exists c, s_bitIndex st = c * s_bitSize st /\ 0 <= c <= s_size st /\
            s_bitIndex st / s_bitSize st = c.
Proof.
  intros W. destruct (wf_bs st W) as [Hbs _].
  pose proof (wf_cursor st W) as Hc. pose proof (wf_aligned st W) as Ha.
  exists (s_bitIndex st / s_bitSize st).
  assert (E : s_bitIndex st = s_bitIndex st / s_bitSize st * s_bitSize st).
  { rewrite Z.mul_comm. apply Z.div_exact; lia. }
  split; [exact E |]. split; [| reflexivity].
  split; [apply Z.div_pos; lia |].
  apply Z.div_le_upper_bound; lia.
Qed.

Lemma wf_stored st : wf st -> 0 <= stored st <= s_size st.
Proof.
  intros W. destruct (wf_slot st W) as (c & E & Hc & Hd).
  pose proof (wf_size st W). unfold stored.
  destruct (s_full st); lia.
Qed.

Lemma wf_size_bound st : wf st -> s_size st < 65536.
Proof.
  intros W. destruct (wf_bs st W) as [Hbs _].
  pose proof (wf_fits st W) as F. pose proof (wf_size st W).
  change (2 ^ 16) with 65536 in F. nia.
Qed.

Lemma wf_valueCount st :
  wf st -> valueCount st = stored st - s_popCount st.
Proof.
  intros W. pose proof (wf_stored st W). pose proof (wf_popped st W).
  pose proof (wf_size_bound st W). unfold valueCount.
  rewrite to_ulong_small, to_uint_small; lia.
Qed.

Lemma bytes_malloc junk n : bytes (malloc junk n).
Proof.
  unfold bytes, malloc. apply Forall_forall. intros x Hx.
  apply in_map_iff in Hx. destruct Hx as (i & <- & _). apply to_byte_range.
Qed.

Lemma length_malloc junk n : length (malloc junk n) = Z.to_nat n.
Proof. unfold malloc. rewrite length_map, length_seq. reflexivity. Qed.

Lemma BitBuffer_new_eq p_range p_size junk :
  0 <= p_size -> p_size * bitSize_of p_range < 65536 ->
  BitBuffer_new p_range p_size junk
  = {| s_range := p_range; s_overflow := OVERFLOW_SKIP;
       s_data := malloc junk (p_size * bitSize_of p_range / 8 + 1);
       s_bitIndex := 0; s_popCount := 0; s_size := p_size;
       s_bitSize := bitSize_of p_range; s_full := false |}.
Proof.
  intros Hs Hfit. unfold BitBuffer_new, getArraySize, bind, gets, ret.
  rewrite getBitSize_fresh by (simpl; lia). simpl.
  unfold set_data, getSize. simpl. f_equal. f_equal.
  assert (0 <= bitSize_of p_range * p_size < 65536).
  { split; [| lia]. unfold bitSize_of.
    destruct (getMaxRangeValue_of p_range >? 1);
      [pose proof (to_uint_range (round_log2 (getMaxRangeValue_of p_range)))
      |]; nia. }
  rewrite (to_uint_small (bitSize_of p_range * p_size)) by lia.
  assert (0 <= bitSize_of p_range * p_size / 8 < 8192)
    by (split; [apply Z.div_pos | apply Z.div_lt_upper_bound]; lia).
  rewrite to_int_small by lia. rewrite to_uint_small by lia.
  rewrite (Z.mul_comm p_size). reflexivity.
Qed.

Lemma wf_new p_range p_size junk :
  0 <= p_range < 256 -> 1 <= p_size ->
  p_size * bitSize_of p_range < 65536 ->
  wf (BitBuffer_new p_range p_size junk).
Proof.
  intros Hr Hs Hfit. rewrite BitBuffer_new_eq by lia.
  destruct (field_ok_bitSize p_range Hr) as (Hbs & _).
  constructor; simpl.
  - exact Hr.
  - reflexivity.
  - exact Hs.
  - exact Hfit.
  - rewrite length_malloc. rewrite Z2Nat.id; [reflexivity |].
    assert (0 <= p_size * bitSize_of p_range / 8) by (apply Z.div_pos; nia).
    lia.
  - apply bytes_malloc.
  - nia.
  - apply Z.mod_0_l. lia.
  - unfold stored. simpl. rewrite Z.div_0_l; lia.
Qed.

(** * [push] on a well-formed object *)

Lemma reserve_cases st :
  wf st ->
  (s_bitIndex st + s_bitSize st <= s_size st * s_bitSize st
   /\ reserve st = st)
  \/ (s_bitIndex st = s_size st * s_bitSize st
      /\ reserve st = set_full (set_bitIndex st 0) true).
Proof.
  intros W. destruct (wf_bs st W) as [Hbs _].
  destruct (wf_slot st W) as (c & E & Hc & Hd).
  pose proof (wf_fits st W) as F. change (2 ^ 16) with 65536 in F.
  unfold reserve.
  rewrite to_ulong_small by nia. rewrite to_uint_small by nia.
  destruct (Z.gtb_spec (s_bitIndex st + s_bitSize st)
                       (s_size st * s_bitSize st)) as [Hgt | Hle].
  - right. split; [| reflexivity].
    destruct (Z_lt_ge_dec c (s_size st)) as [Hlt | Hge].
    + exfalso.
      assert ((c + 1) * s_bitSize st <= s_size st * s_bitSize st)
        by (apply Z.mul_le_mono_nonneg_r; lia).
      lia.
    + replace c with (s_size st) in E by lia. exact E.
  - left. split; [lia | reflexivity].
Qed.

Lemma block_covers st :
  wf st ->
  s_size st * s_bitSize st < 8 * Z.of_nat (length (s_data st)).
Proof.
  intros W. rewrite (wf_length st W).
  pose proof (Z.div_mod (s_size st * s_bitSize st) 8).
  pose proof (Z.mod_pos_bound (s_size st * s_bitSize st) 8). lia.
Qed.

Lemma push_spec st v v' :
  wf st -> overflow_policy st v = Some v' ->
  exists d',
    push v st = Some (true, pushed st d') /\ wf (pushed st d') /\
    length d' = length (s_data st) /\
    (0 <= v' < 2 ^ s_bitSize st ->
     written (s_data st) d' (s_bitIndex (reserve st)) (s_bitSize st) v').
Proof.
  intros W Hp. destruct (wf_bs st W) as [Hbs Hok].
  destruct (wf_slot st W) as (c & E & Hc & Hd).
  pose proof (wf_fits st W) as F. change (2 ^ 16) with 65536 in F.
  pose proof (block_covers st W) as Hcov.
  pose proof (wf_size st W) as Hsz.
  pose proof (wf_cursor st W) as Hcur.
  pose proof (wf_popped st W) as Hpop.
  pose proof (wf_stored st W) as Hst.
  pose proof (wf_size_bound st W) as Hsb.
  rewrite push_cached by lia. rewrite Hp.
  assert (Ho : 0 <= s_bitIndex (reserve st)
               /\ s_bitIndex (reserve st) + s_bitSize st
                  <= s_size st * s_bitSize st
               /\ s_bitIndex (reserve st) mod s_bitSize st = 0).
  { destruct (reserve_cases st W) as [[Hle ->] | [Heq ->]]; simpl.
    - split; [lia |]. split; [lia |]. apply (wf_aligned st W).
    - split; [lia |]. split; [nia |]. apply Z.mod_0_l. lia. }
  destruct Ho as (Ho1 & Ho2 & Ho3).
  destruct (push_write_spec (getMaxRangeValue st) (s_bitSize st)
              (s_bitIndex (reserve st)) v' (s_data st) Hok (wf_bytes st W))
    as (d' & Hw & Hlen & Hbytes & Hwritten); try lia.
  { apply Z.div_lt_upper_bound; lia. }
  exists d'. rewrite Hw. split; [reflexivity |].
  split; [| split; [exact Hlen | exact Hwritten]].
  assert (Hnew : 0 <= s_bitIndex (reserve st) + s_bitSize st < 4294967296)
    by lia.
  unfold pushed.
  destruct (reserve_cases st W) as [[Hle Hr] | [Heq Hr]]; rewrite Hr in *;
    simpl in *.
  - rewrite to_ulong_small by lia.
    assert (Hdiv : (s_bitIndex st + s_bitSize st) / s_bitSize st = c + 1).
    { rewrite E. replace (c * s_bitSize st + s_bitSize st)
        with ((c + 1) * s_bitSize st) by lia.
      apply Z.div_mul. lia. }
    assert (Hmod : (s_bitIndex st + s_bitSize st) mod s_bitSize st = 0).
    { replace (s_bitIndex st + s_bitSize st)
        with (s_bitIndex st + 1 * s_bitSize st) by lia.
      rewrite Z.mod_add by lia. apply (wf_aligned st W). }
    destruct (Z.gtb_spec (s_popCount st) 0) as [Hpc | Hpc];
      constructor; simpl;
      try (apply (wf_range st W)); try (apply (wf_bitSize st W));
      try (rewrite Hlen; apply (wf_length st W));
      try assumption; try lia;
      try (rewrite to_uint_small by lia);
      unfold stored in *; simpl; destruct (s_full st); lia.
  - rewrite to_ulong_small by lia.
    destruct (Z.gtb_spec (s_popCount st) 0) as [Hpc | Hpc];
      constructor; simpl;
      try (apply (wf_range st W)); try (apply (wf_bitSize st W));
      try (rewrite Hlen; apply (wf_length st W));
      try assumption; try nia;
      try (apply Z.mod_same; lia);
      try (rewrite to_uint_small by lia);
      unfold stored in *; simpl; lia.
Qed.

(** * [getValue] and [pop] on a well-formed object *)

Lemma slot_offset_spec st i :
  wf st -> 1 <= i <= valueCount st ->
  exists s, slot_offset st i = s * s_bitSize st /\ 0 <= s < s_size st /\
            s = (let m := valueCount st - i + 1 in
                 let c := s_bitIndex st / s_bitSize st in
                 if m <=? c then c - m else s_size st - m + c).
Proof.
  intros W Hi. destruct (wf_bs st W) as [Hbs _].
  destruct (wf_slot st W) as (c & E & Hc & Hd).
  pose proof (wf_fits st W) as F. change (2 ^ 16) with 65536 in F.
  pose proof (wf_stored st W) as Hst.
  pose proof (wf_popped st W) as Hpop.
  pose proof (wf_size_bound st W) as Hsb.
  pose proof (wf_valueCount st W) as Hvc.
  unfold slot_offset. rewrite Hd. cbv zeta.
  set (m := valueCount st - i + 1) in *.
  assert (Hm : 1 <= m <= s_size st) by lia.
  assert (Hmb : m * s_bitSize st <= s_size st * s_bitSize st)
    by (apply Z.mul_le_mono_nonneg_r; lia).
  assert (Hcb : c * s_bitSize st <= s_size st * s_bitSize st)
    by (apply Z.mul_le_mono_nonneg_r; lia).
  rewrite (to_uint_small m) by lia.
  rewrite (to_uint_small (m * s_bitSize st)) by nia.
  rewrite (to_uint_small (s_size st * s_bitSize st)) by nia.
  rewrite E.
  destruct (Z.leb_spec (m * s_bitSize st) (c * s_bitSize st)) as [Hle | Hgt].
  - assert (m <= c) by nia.
    destruct (Z.leb_spec m c); [| lia].
    exists (c - m). rewrite to_ulong_small by nia.
    split; [lia |]. split; [lia | reflexivity].
  - assert (c < m) by nia.
    destruct (Z.leb_spec m c); [lia |].
    exists (s_size st - m + c).
    assert (0 <= (s_size st - m + c) * s_bitSize st) by nia.
    rewrite to_ulong_small by nia.
    split; [lia |]. split; [lia | reflexivity].
Qed.

Lemma getValue_spec st i :
  wf st -> 1 <= i <= valueCount st -> slot_offset st i < 32768 ->
  getValue i st
  = Some (field (s_data st) (slot_offset st i) (Z.to_nat (s_bitSize st)), st).
Proof.
  intros W Hi Hadr. destruct (wf_bs st W) as [Hbs Hok].
  destruct (slot_offset_spec st i W Hi) as (s & Hs & Hrng & _).
  pose proof (block_covers st W) as Hcov.
  rewrite getValue_cached by lia.
  destruct (Z.ltb_spec (valueCount st) i); [lia |].
  destruct (Z.ltb_spec i 1); [lia |]. simpl.
  rewrite getValueInternal_cached by lia.
  rewrite read_field_field; try assumption; try reflexivity.
  - apply (wf_bytes st W).
  - rewrite Hs in *. nia.
  - rewrite Hs.
    assert ((s + 1) * s_bitSize st <= s_size st * s_bitSize st)
      by (apply Z.mul_le_mono_nonneg_r; lia).
    lia.
Qed.

Lemma getValue_invalid st i :
  1 <= s_bitSize st -> i < 1 \/ valueCount st < i ->
  getValue i st = Some (0, st).
Proof.
  intros Hbs Hi. rewrite getValue_cached by exact Hbs.
  destruct (Z.ltb_spec (valueCount st) i); destruct (Z.ltb_spec i 1);
    simpl; try reflexivity; lia.
Qed.

Lemma wf_set_popCount st :
  wf st -> 0 < valueCount st ->
  wf (set_popCount st (to_uint (s_popCount st + 1))).
Proof.
  intros W Hc. pose proof (wf_valueCount st W) as Hvc.
  pose proof (wf_stored st W) as Hst. pose proof (wf_popped st W) as Hpop.
  pose proof (wf_size_bound st W) as Hsb.
  rewrite to_uint_small by lia.
  constructor; simpl; try apply W. unfold stored in *. simpl. lia.
Qed.

Lemma pop_spec st :
  wf st -> 0 < valueCount st -> slot_offset st 1 < 32768 ->
  pop st
  = Some (field (s_data st) (slot_offset st 1) (Z.to_nat (s_bitSize st)),
          set_popCount st (to_uint (s_popCount st + 1))).
Proof.
  intros W Hc Hadr. destruct (wf_bs st W) as [Hbs _].
  rewrite pop_cached by lia.
  destruct (Z.leb_spec (valueCount st) 0); [lia |].
  rewrite getValue_spec by (try assumption; lia). reflexivity.
Qed.

Lemma pop_empty st :
  1 <= s_bitSize st -> valueCount st = 0 -> pop st = Some (0, st).
Proof.
  intros Hbs Hc. rewrite pop_cached by exact Hbs. rewrite Hc. reflexivity.
Qed.

(** * Sequences of calls *)

Lemma run_app cs1 cs2 st :
  run (cs1 ++ cs2) st
  = match run cs1 st with
    | Some (rs1, st1) =>
        match run cs2 st1 with
        | Some (rs2, st2) => Some (rs1 ++ rs2, st2)
        | None => None
        end
    | None => None
    end.
Proof.
  revert st. induction cs1 as [| c cs1 IH]; intros st; simpl.
  - unfold ret. destruct (run cs2 st) as [[rs2 st2] |]; reflexivity.
  - unfold bind. destruct (exec c st) as [[r st'] |]; [| reflexivity].
    rewrite IH. destruct (run cs1 st') as [[rs1 st1] |]; [| reflexivity].
    unfold ret. destruct (run cs2 st1) as [[rs2 st2] |]; reflexivity.
Qed.

(** Every call that returns leaves a well-formed object. *)
Lemma exec_wf c st r st' :
  wf st -> exec c st = Some (r, st') ->
  wf st' /\ s_range st' = s_range st /\ s_size st' = s_size st
  /\ s_bitSize st' = s_bitSize st.
Proof.
  intros W H. destruct (wf_bs st W) as [Hbs _].
  destruct c as [v | | i | p |]; unfold exec, bind, ret in H.
  - destruct (overflow_policy st v) as [v' |] eqn:Hp.
    + destruct (push_spec st v v' W Hp) as (d' & Hpush & W' & _).
      rewrite Hpush in H. inversion H; subst. split; [exact W' |].
      unfold pushed, reserve.
      repeat match goal with
             | |- context [if ?b then _ else _] => destruct b
             end; simpl; auto.
    + unfold push in H. rewrite Hp in H. inversion H; subst. auto.
  - rewrite pop_cached in H by lia.
    destruct (Z.leb_spec (valueCount st) 0).
    + inversion H; subst. auto.
    + rewrite getValue_cached in H by lia.
      destruct ((valueCount st <? 1) || (1 <? 1)).
      * inversion H; subst. split; [| simpl; auto].
        apply wf_set_popCount; [exact W | lia].
      * rewrite getValueInternal_cached in H by lia.
        destruct (read_field _ _ _ _); inversion H; subst.
        split; [| simpl; auto]. apply wf_set_popCount; [exact W | lia].
  - rewrite getValue_cached in H by lia.
    destruct ((valueCount st <? i) || (i <? 1)).
    + inversion H; subst. auto.
    + rewrite getValueInternal_cached in H by lia.
      destruct (read_field _ _ _ _); inversion H; subst. auto.
  - unfold setOverflowState, modify in H. inversion H; subst.
    split; [| simpl; auto]. constructor; simpl; apply W.
  - rewrite getValueCount_cached in H by lia. inversion H; subst. auto.
Qed.

Lemma run_wf cs st rs st' :
  wf st -> run cs st = Some (rs, st') ->
  wf st' /\ s_range st' = s_range st /\ s_size st' = s_size st
  /\ s_bitSize st' = s_bitSize st.
Proof.
  revert st rs. induction cs as [| c cs IH]; intros st rs W H; simpl in H.
  - inversion H; subst. auto.
  - unfold bind in H. destruct (exec c st) as [[r st1] |] eqn:He;
      [| discriminate].
    destruct (run cs st1) as [[rs1 st2] |] eqn:Hr; [| discriminate].
    inversion H; subst.
    destruct (exec_wf c st r st1 W He) as (W1 & E1 & E2 & E3).
    destruct (IH st1 rs1 W1 Hr) as (W2 & F1 & F2 & F3).
    split; [exact W2 |]. repeat split; congruence.
Qed.

(** No call leaves the block when every bit offset is representable in
    [int]. *)
Lemma exec_total c st :
  wf st -> int_addressable st -> exists r st', exec c st = Some (r, st').
Proof.
  intros W A. destruct (wf_bs st W) as [Hbs _].
  unfold int_addressable in A. change (2 ^ 15) with 32768 in A.
  assert (Hadr : forall i, 1 <= i <= valueCount st ->
                           slot_offset st i < 32768).
  { intros i Hi.
    destruct (slot_offset_spec st i W Hi) as (s & Hs & Hrng & _).
    rewrite Hs.
    assert ((s + 1) * s_bitSize st <= s_size st * s_bitSize st)
      by (apply Z.mul_le_mono_nonneg_r; lia).
    lia. }
  destruct c as [v | | i | p |]; unfold exec, bind, ret.
  - destruct (overflow_policy st v) as [v' |] eqn:Hp.
    + destruct (push_spec st v v' W Hp) as (d' & Hpush & _).
      rewrite Hpush. eauto.
    + unfold push. rewrite Hp. eauto.
  - destruct (Z_le_gt_dec (valueCount st) 0).
    + pose proof (wf_valueCount st W). pose proof (wf_popped st W).
      rewrite pop_empty by lia. eauto.
    + rewrite pop_spec by (try assumption; try apply Hadr; lia). eauto.
  - destruct (Z_lt_ge_dec i 1);
      [| destruct (Z_lt_ge_dec (valueCount st) i)].
    + rewrite getValue_invalid by lia. eauto.
    + rewrite getValue_invalid by lia. eauto.
    + rewrite getValue_spec by (try assumption; try apply Hadr; lia). eauto.
  - unfold setOverflowState, modify. eauto.
  - rewrite getValueCount_cached by lia. eauto.
Qed.

(** Memory safety: on such an object every sequence of calls runs to the
    end. *)
Theorem run_total cs st :
  wf st -> int_addressable st -> exists rs st', run cs st = Some (rs, st').
Proof.
  revert st. induction cs as [| c cs IH]; intros st W A; simpl.
  - unfold ret. eauto.
  - unfold bind. destruct (exec_total c st W A) as (r & st1 & He).
    rewrite He. destruct (exec_wf c st r st1 W He) as (W1 & E1 & E2 & E3).
    assert (A1 : int_addressable st1)
      by (unfold int_addressable in *; rewrite E2, E3; exact A).
    destruct (IH st1 W1 A1) as (rs & st2 & Hr). rewrite Hr.
    unfold ret. eauto.
Qed.

(** * The fill phase: pushes into a fresh buffer, then pops *)

Lemma linear_new p_range p_size junk :
  0 <= p_range < 256 -> 1 <= p_size ->
  p_size * bitSize_of p_range < 65536 ->
  linear (BitBuffer_new p_range p_size junk) [] 0.
Proof.
  intros Hr Hs Hfit. split; [apply wf_new; assumption |].
  rewrite BitBuffer_new_eq by lia. simpl.
  repeat split; try reflexivity. intros j Hj. simpl in Hj. lia.
Qed.

Lemma overflow_policy_in_range st v :
  v <= getMaxRangeValue st -> overflow_policy st v = Some v.
Proof.
  intros H. unfold overflow_policy.
  destruct (Z.gtb_spec v (getMaxRangeValue st)); [lia | reflexivity].
Qed.

Lemma push_linear st vs v :
  linear st vs 0 -> Z.of_nat (length vs) < s_size st ->
  getMaxRangeValue st = 2 ^ s_bitSize st - 1 ->
  0 <= v <= getMaxRangeValue st ->
  exists st', push v st = Some (true, st') /\ linear st' (vs ++ [v]) 0 /\
              s_range st' = s_range st /\ s_size st' = s_size st /\
              s_bitSize st' = s_bitSize st /\ s_overflow st' = s_overflow st.
Proof.
  intros (W & Hfull & Hpc & Hbi & Hf) Hlen Hmax Hv.
  destruct (wf_bs st W) as [Hbs _].
  destruct (push_spec st v v W (overflow_policy_in_range st v (proj2 Hv)))
    as (d' & Hpush & W' & Hl & Hwr).
  specialize (Hwr ltac:(lia)).
  assert (Hres : reserve st = st).
  { destruct (reserve_cases st W) as [[_ E] | [E _]]; [exact E |].
    exfalso. rewrite Hbi in E.
    apply Z.mul_cancel_r in E; lia. }
  rewrite Hres in *.
  exists (pushed st d'). split; [exact Hpush |].
  assert (Epushed : pushed st d'
                    = set_bitIndex (set_data st d')
                        (to_ulong (s_bitIndex st + s_bitSize st))).
  { unfold pushed. rewrite Hres. simpl. rewrite Hpc. reflexivity. }
  rewrite Epushed in *. simpl.
  split; [| auto].
  split; [exact W' |]. split; [exact Hfull |]. split; [exact Hpc |].
  assert (Hnew : s_bitIndex st + s_bitSize st
                 = Z.of_nat (length (vs ++ [v])) * s_bitSize st).
  { rewrite length_app. simpl. rewrite Hbi. lia. }
  split; simpl.
  - rewrite to_ulong_small; [exact Hnew |].
    pose proof (wf_cursor _ W') as Hc. pose proof (wf_fits _ W') as Hfit.
    simpl in Hc, Hfit. change (2 ^ 16) with 65536 in Hfit.
    pose proof (to_ulong_small (s_bitIndex st + s_bitSize st)).
    pose proof (wf_cursor st W). lia.
  - intros j Hj. rewrite length_app in Hj. simpl in Hj.
    destruct (Nat.eq_dec j (length vs)) as [-> | Hne].
    + rewrite app_nth2 by lia. rewrite Nat.sub_diag. simpl.
      rewrite <- Hbi. apply (field_written_same (s_data st)); try lia.
      exact Hwr.
    + rewrite app_nth1 by lia. rewrite <- (Hf j) by lia.
      apply (field_written_other _ _ _ _ _ _ _ Hwr);
        [apply Z.mul_nonneg_nonneg; lia |].
      left. rewrite Z2Nat.id by lia. rewrite Hbi.
      assert ((Z.of_nat j + 1) * s_bitSize st
              <= Z.of_nat (length vs) * s_bitSize st)
        by (apply Z.mul_le_mono_nonneg_r; lia).
      lia.
Qed.

Lemma linear_stored st vs p :
  linear st vs p -> stored st = Z.of_nat (length vs).
Proof.
  intros (W & Hfull & Hpc & Hbi & Hf). destruct (wf_bs st W) as [Hbs _].
  unfold stored. rewrite Hfull, Hbi. apply Z.div_mul. lia.
Qed.

Lemma linear_slot st vs p :
  linear st vs p -> 0 <= p < Z.of_nat (length vs) ->
  valueCount st = Z.of_nat (length vs) - p /\
  slot_offset st 1 = p * s_bitSize st.
Proof.
  intros L Hp. pose proof (linear_stored st vs p L) as Hst.
  destruct L as (W & Hfull & Hpc & Hbi & Hf).
  destruct (wf_bs st W) as [Hbs _].
  pose proof (wf_valueCount st W) as Hvc. rewrite Hst, Hpc in Hvc.
  split; [exact Hvc |].
  destruct (slot_offset_spec st 1 W ltac:(lia)) as (s & Hs & _ & Es).
  rewrite Hs. f_equal. rewrite Es. cbv zeta.
  unfold stored in Hst. rewrite Hfull in Hst. rewrite Hst, Hvc.
  destruct (Z.leb_spec (Z.of_nat (length vs) - p - 1 + 1)
                       (Z.of_nat (length vs))); lia.
Qed.

Lemma pop_linear st vs p :
  linear st vs p -> 0 <= p < Z.of_nat (length vs) ->
  p * s_bitSize st < 32768 ->
  exists st', pop st = Some (nth (Z.to_nat p) vs 0, st') /\
              linear st' vs (p + 1) /\ s_bitSize st' = s_bitSize st.
Proof.
  intros L Hp Hadr. destruct (linear_slot st vs p L Hp) as [Hvc Hso].
  pose proof L as (W & Hfull & Hpc & Hbi & Hf).
  pose proof (wf_size_bound st W) as Hsb.
  pose proof (wf_stored st W) as Hst.
  rewrite (linear_stored st vs p L) in Hst.
  eexists. split.
  - rewrite pop_spec by (try assumption; lia). rewrite Hso.
    rewrite <- (Z2Nat.id p) at 1 by lia. rewrite Hf by lia. reflexivity.
  - split; [| reflexivity].
    split; [apply wf_set_popCount; [exact W | lia] |].
    simpl. repeat split; try assumption.
    rewrite Hpc. apply to_uint_small. lia.
Qed.

Lemma run_pushes m vs :
  Forall (fun v => 0 <= v <= m) vs ->
  forall st pre,
  linear st pre 0 ->
  Z.of_nat (length pre + length vs) <= s_size st ->
  getMaxRangeValue st = m -> m = 2 ^ s_bitSize st - 1 ->
  exists st', run (map Push vs) st
              = Some (repeat (RBool true) (length vs), st') /\
              linear st' (pre ++ vs) 0 /\
              s_size st' = s_size st /\ s_bitSize st' = s_bitSize st.
Proof.
  induction 1 as [| v vs Hv Hvs IH]; intros st pre L Hlen Hm Hmax.
  - exists st. simpl. rewrite app_nil_r. auto.
  - simpl in Hlen.
    destruct (push_linear st pre v L ltac:(lia) ltac:(congruence)
                ltac:(rewrite Hm; exact Hv))
      as (st1 & Hp & L1 & E1 & E2 & E3 & E4).
    destruct (IH st1 (pre ++ [v]) L1) as (st2 & Hr & L2 & F2 & F3).
    + rewrite length_app. simpl. lia.
    + unfold getMaxRangeValue in *. rewrite E1. exact Hm.
    + rewrite E3. exact Hmax.
    + exists st2. simpl. unfold bind, ret. rewrite Hp, Hr.
      rewrite <- app_assoc in L2. simpl in L2.
      split; [reflexivity |]. split; [exact L2 |]. split; congruence.
Qed.

Lemma run_pops st vs p n :
  linear st vs p -> 0 <= p ->
  (Z.to_nat p + n <= length vs)%nat ->
  (p + Z.of_nat n) * s_bitSize st <= 32767 + s_bitSize st ->
  exists st', run (repeat Pop n) st
              = Some (map RVal (firstn n (skipn (Z.to_nat p) vs)), st') /\
              linear st' vs (p + Z.of_nat n) /\
              s_bitSize st' = s_bitSize st.
Proof.
  revert st p. induction n as [| n IH]; intros st p L Hp Hlen Hadr.
  - exists st. simpl. rewrite Z.add_0_r. auto.
  - destruct (wf_bs st (proj1 L)) as [Hbs _].
    destruct (pop_linear st vs p L ltac:(lia) ltac:(nia))
      as (st1 & Hpop & L1 & E1).
    destruct (IH st1 (p + 1) L1 ltac:(lia) ltac:(lia))
      as (st2 & Hr & L2 & E2).
    { rewrite E1. replace (p + 1 + Z.of_nat n) with (p + Z.of_nat (S n))
        by lia. exact Hadr. }
    exists st2. cbn [repeat run exec]. unfold bind, ret. rewrite Hpop, Hr.
    replace (Z.to_nat (p + 1)) with (S (Z.to_nat p)) by lia.
    split; [| split; [| congruence]].
    + f_equal. f_equal.
      assert (Hsk : skipn (Z.to_nat p) vs
                    = nth (Z.to_nat p) vs 0 :: skipn (S (Z.to_nat p)) vs).
      { clear - Hlen. revert vs Hlen. generalize (Z.to_nat p) as k.
        induction k as [| k IHk]; intros [| x vs] H; simpl in *; try lia.
        - reflexivity.
        - apply IHk. lia. }
      rewrite Hsk. reflexivity.
    + replace (p + Z.of_nat (S n)) with (p + 1 + Z.of_nat n) by lia.
      exact L2.
Qed.

(** * Frame properties that need no invariant *)

Lemma BitBuffer_new_fields p_range p_size junk :
  let st := BitBuffer_new p_range p_size junk in
  s_range st = p_range /\ s_overflow st = OVERFLOW_SKIP /\
  s_bitIndex st = 0 /\ s_popCount st = 0 /\ s_size st = p_size /\
  s_bitSize st = bitSize_of p_range /\ s_full st = false.
Proof.
  unfold BitBuffer_new, getArraySize, bind, gets, ret.
  rewrite getBitSize_fresh by (simpl; lia). simpl. repeat split.
Qed.

Lemma bitSize_of_pos r : 0 <= r < 256 -> 1 <= bitSize_of r.
Proof. intros Hr. apply (field_ok_bitSize r Hr). Qed.

Lemma exec_frame c st r st' :
  1 <= s_bitSize st -> exec c st = Some (r, st') ->
  s_bitSize st' = s_bitSize st /\ s_range st' = s_range st /\
  s_size st' = s_size st /\
  (is_set_overflow c = false -> s_overflow st' = s_overflow st).
Proof.
  intros Hbs H.
  destruct c as [v | | i | p |]; unfold exec, bind, ret in H.
  - rewrite push_cached in H by lia.
    destruct (overflow_policy st v) as [v' |].
    + destruct (push_write _ _ _ _ _) as [d' |]; inversion H; subst.
      unfold pushed, reserve.
      repeat match goal with
             | |- context [if ?b then _ else _] => destruct b
             end; simpl; auto.
    + inversion H; subst. auto.
  - rewrite pop_cached in H by lia.
    destruct (valueCount st <=? 0).
    + inversion H; subst. auto.
    + rewrite getValue_cached in H by lia.
      destruct ((valueCount st <? 1) || (1 <? 1)).
      * inversion H; subst. simpl. auto.
      * rewrite getValueInternal_cached in H by lia.
        destruct (read_field _ _ _ _); inversion H; subst. simpl. auto.
  - rewrite getValue_cached in H by lia.
    destruct ((valueCount st <? i) || (i <? 1)).
    + inversion H; subst. auto.
    + rewrite getValueInternal_cached in H by lia.
      destruct (read_field _ _ _ _); inversion H; subst. auto.
  - unfold setOverflowState, modify in H. inversion H; subst. simpl.
    repeat split; auto. discriminate.
  - rewrite getValueCount_cached in H by lia. inversion H; subst. auto.
Qed.

Lemma run_frame cs st rs st' :
  1 <= s_bitSize st -> run cs st = Some (rs, st') ->
  s_bitSize st' = s_bitSize st /\ s_range st' = s_range st /\
  s_size st' = s_size st /\
  (forallb (fun c => negb (is_set_overflow c)) cs = true ->
   s_overflow st' = s_overflow st).
Proof.
  revert st rs. induction cs as [| c cs IH]; intros st rs Hbs H; simpl in H.
  - inversion H; subst. auto.
  - unfold bind in H. destruct (exec c st) as [[r st1] |] eqn:He;
      [| discriminate].
    destruct (run cs st1) as [[rs1 st2] |] eqn:Hr; [| discriminate].
    inversion H; subst.
    destruct (exec_frame c st r st1 Hbs He) as (E1 & E2 & E3 & E4).
    destruct (IH st1 rs1 ltac:(lia) Hr) as (F1 & F2 & F3 & F4).
    repeat split; try congruence.
    simpl. intros Hall. apply andb_true_iff in Hall.
    destruct Hall as [Hc Hcs]. apply negb_true_iff in Hc.
    rewrite F4, E4; auto.
Qed.

(** * The cursor bound, for every capacity an [unsigned int] can hold *)

Lemma exec_cursor c st r st' :
  1 <= s_bitSize st <= 15 -> 1 <= s_size st < 65536 ->
  0 <= s_bitIndex st <= s_size st * s_bitSize st ->
  exec c st = Some (r, st') ->
  0 <= s_bitIndex st' <= s_size st' * s_bitSize st'.
Proof.
  intros Hbs Hsz Hc H.
  destruct c as [v | | i | p |]; unfold exec, bind, ret in H.
  - rewrite push_cached in H by lia.
    destruct (overflow_policy st v) as [v' |].
    + destruct (push_write _ _ _ _ _) as [d' |]; inversion H; subst.
      assert (Hres : 0 <= s_bitIndex (reserve st)
                     /\ s_bitIndex (reserve st) + s_bitSize st
                        <= s_size st * s_bitSize st).
      { unfold reserve. rewrite to_ulong_small by nia.
        destruct (Z.gtb_spec (s_bitIndex st + s_bitSize st)
                             (to_uint (s_size st * s_bitSize st))); simpl.
        - nia.
        - assert (to_uint (s_size st * s_bitSize st)
                  <= s_size st * s_bitSize st)
            by (unfold to_uint; apply Z.mod_le; nia).
          lia. }
      assert (E : s_bitIndex (pushed st d')
                  = s_bitIndex (reserve st) + s_bitSize st
                  /\ s_size (pushed st d') = s_size st
                  /\ s_bitSize (pushed st d') = s_bitSize st).
      { unfold pushed.
        match goal with
        | |- context [if ?b then _ else _] => destruct b
        end; simpl; (split; [apply to_ulong_small; nia |]);
        unfold reserve;
        match goal with
        | |- context [if ?b then _ else _] => destruct b
        end; simpl; auto. }
      destruct E as (-> & -> & ->). lia.
    + inversion H; subst. exact Hc.
  - rewrite pop_cached in H by lia.
    destruct (valueCount st <=? 0).
    + inversion H; subst. exact Hc.
    + rewrite getValue_cached in H by lia.
      destruct ((valueCount st <? 1) || (1 <? 1)).
      * inversion H; subst. simpl. exact Hc.
      * rewrite getValueInternal_cached in H by lia.
        destruct (read_field _ _ _ _); inversion H; subst. simpl. exact Hc.
  - rewrite getValue_cached in H by lia.
    destruct ((valueCount st <? i) || (i <? 1)).
    + inversion H; subst. exact Hc.
    + rewrite getValueInternal_cached in H by lia.
      destruct (read_field _ _ _ _); inversion H; subst. exact Hc.
  - unfold setOverflowState, modify in H. inversion H; subst. simpl.
    exact Hc.
  - rewrite getValueCount_cached in H by lia. inversion H; subst. exact Hc.
Qed.

Lemma run_cursor cs st rs st' :
  1 <= s_bitSize st <= 15 -> 1 <= s_size st < 65536 ->
  0 <= s_bitIndex st <= s_size st * s_bitSize st ->
  run cs st = Some (rs, st') ->
  0 <= s_bitIndex st' <= s_size st' * s_bitSize st'.
Proof.
  revert st rs. induction cs as [| c cs IH]; intros st rs Hbs Hsz Hc H;
    simpl in H.
  - inversion H; subst. exact Hc.
  - unfold bind in H. destruct (exec c st) as [[r st1] |] eqn:He;
      [| discriminate].
    destruct (run cs st1) as [[rs1 st2] |] eqn:Hr; [| discriminate].
    inversion H; subst.
    destruct (exec_frame c st r st1 ltac:(lia) He) as (E1 & E2 & E3 & _).
    apply (IH st1 rs1); try (rewrite ?E1, ?E3; assumption).
    apply (exec_cursor c st r); assumption.
Qed.

(** * RangeCodec: the claims *)

Lemma getMaxRangeValue_of_byte r :
  0 <= r < 256 ->
  getMaxRangeValue_of r = if Z.odd r then r else Z.shiftr r 1 * 256 + 255.
Proof.
  intros Hr.
  pose proof (forall_below
    (fun r => getMaxRangeValue_of r
              =? (if Z.odd r then r else Z.shiftr r 1 * 256 + 255))
    256 eq_refl r Hr) as H.
  apply Z.eqb_eq in H. exact H.
Qed.

(** [round_log2 x] is the integer nearest to the base-2 logarithm of [x]:
    [| log2 x - k | <= 1/2], squared out. *)
Lemma round_log2_nearest x :
  1 <= x ->
  2 ^ (2 * round_log2 x - 1) <= x * x < 2 ^ (2 * round_log2 x + 1).
Proof.
  intros Hx. unfold round_log2.
  assert (Hxx : 0 < x * x) by nia.
  pose proof (Z.log2_spec (x * x) Hxx) as Hl.
  pose proof (Z.log2_nonneg (x * x)) as Hn.
  set (L := Z.log2 (x * x)) in *.
  pose proof (Z.div_mod (L + 1) 2 ltac:(lia)) as Hd.
  pose proof (Z.mod_pos_bound (L + 1) 2 ltac:(lia)) as Hm.
  set (k := (L + 1) / 2) in *.
  assert (Hcase : (L + 1) mod 2 = 0 \/ (L + 1) mod 2 = 1) by lia.
  destruct Hcase as [E | E]; rewrite E in Hd.
  - replace (2 * k - 1) with L by lia.
    replace (2 * k + 1) with (Z.succ (Z.succ L)) by lia.
    rewrite (Z.pow_succ_r 2 (Z.succ L)) by lia. lia.
  - replace (2 * k + 1) with (Z.succ L) by lia.
    split; [| lia].
    destruct (Z.eq_dec L 0) as [E0 | E0].
    + replace (2 * k - 1) with (-1) by lia. simpl. lia.
    + replace L with (Z.succ (2 * k - 1)) in Hl at 1 by lia.
      rewrite Z.pow_succ_r in Hl by lia.
      assert (0 < 2 ^ (2 * k - 1)) by (apply Z.pow_pos_nonneg; lia).
      lia.
Qed.

(** For the canonical selectors above [RANGE2] the logarithm is far from the
    two values at which the rounding changes: [log2 m] lies in
    [[bs - 1/2 + log2 (9/8) / 2, bs)], more than 0.08 away from either, so a
    floating-point [log] with any smaller error rounds to the same [bs]. *)
Lemma round_log2_margin r :
  canonical_range r = true -> 1 < getMaxRangeValue_of r ->
  9 * 2 ^ (2 * bitSize_of r - 1)
  <= 8 * (getMaxRangeValue_of r * getMaxRangeValue_of r)
  /\ getMaxRangeValue_of r * getMaxRangeValue_of r < 2 ^ (2 * bitSize_of r).
Proof.
  intros Hc Hm. pose proof (canonical_range_byte r Hc) as Hr.
  pose proof (forall_below
    (fun r => negb (canonical_range r)
              || negb (1 <? getMaxRangeValue_of r)
              || ((9 * 2 ^ (2 * bitSize_of r - 1)
                   <=? 8 * (getMaxRangeValue_of r * getMaxRangeValue_of r))
                  && (getMaxRangeValue_of r * getMaxRangeValue_of r
                      <? 2 ^ (2 * bitSize_of r))))
    256 eq_refl r Hr) as H.
  cbv beta in H. rewrite Hc in H.
  destruct (Z.ltb_spec 1 (getMaxRangeValue_of r)); [| lia].
  simpl in H. apply andb_true_iff in H. destruct H as [H1 H2].
  apply Z.leb_le in H1. apply Z.ltb_lt in H2. split; assumption.
Qed.

(** C8.  Range-selector decoding: on a buffer constructed with a canonical
    selector, [getMaxRangeValue] is the selector itself when the selector is
    odd and [(selector >> 1) * 256 + 255] when it is even; [RANGE256] decodes
    to 255 and [RANGE32768] to 32767. *)
Theorem getMaxRangeValue_decodes_selector r size junk :
  canonical_range r = true ->
  getMaxRangeValue (BitBuffer_new r size junk)
  = (if Z.odd r then r else Z.shiftr r 1 * 256 + 255)
  /\ (r = RANGE256 -> getMaxRangeValue (BitBuffer_new r size junk) = 255)
  /\ (r = RANGE32768 ->
      getMaxRangeValue (BitBuffer_new r size junk) = 32767).
Proof.
  intros Hc. unfold getMaxRangeValue.
  destruct (BitBuffer_new_fields r size junk) as (-> & _).
  split; [apply getMaxRangeValue_of_byte, canonical_range_byte, Hc |].
  split; intros ->; reflexivity.
Qed.

Lemma getMaxRangeValue_decodes_selector_witness :
  getMaxRangeValue (BitBuffer_new RANGE1024 10 zeros) = 1023.
Proof.
  exact (proj1 (getMaxRangeValue_decodes_selector RANGE1024 10 zeros
                  eq_refl)).
Defined.

(** C9.  Bit width: on a buffer constructed with one of the fifteen canonical
    selectors, [getBitSize()] returns the least number of bits in which every
    value of [0 .. maxValue] fits ([maxValue = 2^bitWidth - 1]); it is 1 for
    [maxValue <= 1] and [round(log2 maxValue)] otherwise; it is 8 for
    [RANGE256] and 15 for [RANGE32768]. *)
Theorem getBitSize_exact_width r size junk :
  canonical_range r = true ->
  let st := BitBuffer_new r size junk in
  let m := getMaxRangeValue st in
  exists bs,
    getBitSize st = Some (bs, st) /\
    m = 2 ^ bs - 1 /\
    (forall k, 0 <= k -> m < 2 ^ k -> bs <= k) /\
    bs = (if m <=? 1 then 1 else round_log2 m) /\
    (r = RANGE256 -> bs = 8) /\ (r = RANGE32768 -> bs = 15).
Proof.
  intros Hc st m. pose proof (canonical_range_byte r Hc) as Hr.
  destruct (BitBuffer_new_fields r size junk)
    as (Er & _ & _ & _ & _ & Eb & _).
  fold st in Er, Eb.
  assert (Em : m = getMaxRangeValue_of r)
    by (unfold m, getMaxRangeValue; rewrite Er; reflexivity).
  pose proof (bitSize_of_pos r Hr) as Hpos.
  exists (bitSize_of r). rewrite Em.
  split; [rewrite getBitSize_cached by lia; rewrite Eb; reflexivity |].
  pose proof (canonical_maxRange r Hc) as Hmax.
  split; [exact Hmax |]. split.
  - intros k Hk Hlt. rewrite Hmax in Hlt.
    destruct (Z_le_gt_dec (bitSize_of r) k) as [Hle | Hgt]; [exact Hle |].
    exfalso.
    assert (2 ^ (k + 1) <= 2 ^ bitSize_of r)
      by (apply Z.pow_le_mono_r; lia).
    rewrite Z.pow_add_r in H by lia.
    assert (0 < 2 ^ k) by (apply Z.pow_pos_nonneg; lia). lia.
  - split; [| split; intros ->; reflexivity].
    pose proof (forall_below
      (fun r => bitSize_of r
                =? (if getMaxRangeValue_of r <=? 1 then 1
                    else round_log2 (getMaxRangeValue_of r)))
      256 eq_refl r Hr) as H.
    apply Z.eqb_eq in H. exact H.
Qed.

Lemma getBitSize_exact_width_witness :
  exists bs,
    getBitSize (BitBuffer_new RANGE2048 5 zeros)
    = Some (bs, BitBuffer_new RANGE2048 5 zeros) /\
    getMaxRangeValue (BitBuffer_new RANGE2048 5 zeros) = 2 ^ bs - 1.
Proof.
  destruct (getBitSize_exact_width RANGE2048 5 zeros eq_refl)
    as (bs & H1 & H2 & _).
  exists bs. split; assumption.
Defined.

(** * OverflowPolicy and the counters: the claims *)

(** C10.  Default overflow policy: right after construction
    [getOverflowState()] is [OVERFLOW_SKIP], and as long as no call is a
    [setOverflowState], every [push] of a value above [maxValue] returns
    [false] and leaves the object as it was. *)
Theorem default_overflow_is_skip r size junk :
  0 <= r < 256 ->
  getOverflowState (BitBuffer_new r size junk) = OVERFLOW_SKIP /\
  forall cs rs st v,
    forallb (fun c => negb (is_set_overflow c)) cs = true ->
    run cs (BitBuffer_new r size junk) = Some (rs, st) ->
    getMaxRangeValue st < v ->
    getOverflowState st = OVERFLOW_SKIP /\ push v st = Some (false, st).
Proof.
  intros Hr.
  destruct (BitBuffer_new_fields r size junk)
    as (Er & Eo & _ & _ & _ & Eb & _).
  split; [exact Eo |].
  intros cs rs st v Hcs Hrun Hv.
  pose proof (bitSize_of_pos r Hr) as Hpos.
  destruct (run_frame cs _ rs st ltac:(rewrite Eb; exact Hpos) Hrun)
    as (_ & _ & _ & Ho).
  specialize (Ho Hcs). rewrite Eo in Ho.
  split; [exact Ho |].
  unfold push, overflow_policy. unfold getOverflowState in *.
  destruct (Z.gtb_spec v (getMaxRangeValue st)); [| lia].
  rewrite Ho. reflexivity.
Qed.

Lemma default_overflow_is_skip_witness :
  getOverflowState (BitBuffer_new RANGE8 6 zeros) = OVERFLOW_SKIP.
Proof.
  exact (proj1 (default_overflow_is_skip RANGE8 6 zeros
                  ltac:(unfold RANGE8; lia))).
Defined.

Lemma s_data_pushed st d' : s_data (pushed st d') = d'.
Proof.
  unfold pushed.
  match goal with
  | |- context [if ?b then _ else _] => destruct b
  end; reflexivity.
Qed.

Lemma s_popCount_pushed st d' :
  s_popCount (pushed st d')
  = if s_popCount st >? 0 then to_uint (s_popCount st - 1)
    else s_popCount st.
Proof.
  unfold pushed, reserve.
  destruct (to_ulong (s_bitIndex st + s_bitSize st)
              >? to_uint (s_size st * s_bitSize st)); simpl;
    destruct (s_popCount st >? 0); reflexivity.
Qed.

(** * Objects of any capacity *)

Lemma store_bytes d i x d' :
  bytes d -> 0 <= x < 256 -> store d i x = Some d' ->
  bytes d' /\ length d' = length d.
Proof.
  intros Hd Hx H. unfold store in H.
  destruct (in_block d i); [| discriminate].
  inversion H; subst. split; [apply bytes_upd; assumption | apply length_upd].
Qed.

Ltac byte_value := first [apply merge_range | apply byte_at_range].

Ltac store_step H :=
  match type of H with
  | match load ?l ?i with _ => _ end = _ =>
      destruct (load l i); [| discriminate H]
  | match store ?l ?i ?x with _ => _ end = _ =>
      let E := fresh "E" in
      destruct (store l i x) as [? |] eqn:E; [| discriminate H];
      apply store_bytes in E; [destruct E | assumption | byte_value]
  end.

(** Whatever [push] writes, it writes bytes and keeps the block length. *)
Lemma push_write_bytes maxv bs o v d d' :
  bytes d -> push_write maxv bs o v d = Some d' ->
  bytes d' /\ length d' = length d.
Proof.
  intros Hd H. unfold push_write in H.
  repeat match type of H with
         | (if ?b then _ else _) = _ => destruct b
         end;
    repeat store_step H;
    (apply store_bytes in H; [| assumption | byte_value]);
    destruct H as [Hb' Hl']; (split; [exact Hb' | congruence]).
Qed.

Lemma wf_typed st : wf st -> typed st.
Proof.
  intros W. pose proof (wf_fits st W) as F. change (2 ^ 16) with 65536 in F.
  pose proof (wf_cursor st W). pose proof (wf_popped st W).
  pose proof (wf_stored st W). pose proof (wf_size_bound st W).
  pose proof (wf_size st W).
  constructor; try lia.
  - apply (wf_range st W).
  - apply (wf_bitSize st W).
  - apply (wf_bytes st W).
Qed.

Lemma typed_bs st :
  typed st ->
  1 <= s_bitSize st <= 15 /\ field_ok (getMaxRangeValue st) (s_bitSize st).
Proof.
  intros T. pose proof (field_ok_bitSize _ (ty_range st T)) as Hok.
  rewrite (ty_bitSize st T). unfold getMaxRangeValue.
  split; [apply Hok | exact Hok].
Qed.

(** The cursor after the wrap check of [push]. *)
Lemma typed_reserve st :
  typed st ->
  0 <= s_bitIndex (reserve st) /\
  s_bitIndex (reserve st) + s_bitSize st <= 65535 + 15.
Proof.
  intros T. destruct (typed_bs st T) as [Hbs _].
  pose proof (ty_bitIndex st T) as Hbi.
  pose proof (to_uint_range (s_size st * s_bitSize st)) as Hu.
  unfold reserve. rewrite to_ulong_small by lia.
  destruct (Z.gtb_spec (s_bitIndex st + s_bitSize st)
                       (to_uint (s_size st * s_bitSize st))); simpl; lia.
Qed.

Lemma wf_slot_in_block st : wf st -> slot_in_block st.
Proof.
  intros W. destruct (wf_bs st W) as [Hbs _].
  pose proof (block_covers st W) as Hcov. pose proof (wf_size st W) as Hsz.
  unfold slot_in_block.
  destruct (reserve_cases st W) as [[Hle ->] | [Heq ->]];
    [lia |].
  change (0 + s_bitSize st <= 8 * Z.of_nat (length (s_data st))). nia.
Qed.

(** On an object of any capacity an accepted [push] whose slot lies inside
    the block returns [true], writes that slot and nothing else, and keeps
    the members inside their types. *)
Lemma push_in_block st v v' :
  typed st -> slot_in_block st -> overflow_policy st v = Some v' ->
  exists d',
    push v st = Some (true, pushed st d') /\
    length d' = length (s_data st) /\ bytes d' /\
    (0 <= v' < 2 ^ s_bitSize st ->
     written (s_data st) d' (s_bitIndex (reserve st)) (s_bitSize st) v').
Proof.
  intros T Hin Hp. destruct (typed_bs st T) as [Hbs Hok].
  destruct (typed_reserve st T) as [Ho1 Ho2].
  rewrite push_cached by lia. rewrite Hp.
  destruct (push_write_spec (getMaxRangeValue st) (s_bitSize st)
              (s_bitIndex (reserve st)) v' (s_data st) Hok (ty_bytes st T))
    as (d' & Hw & Hlen & Hbytes & Hwritten); try lia.
  { apply Z.div_lt_upper_bound; lia. }
  { exact Hin. }
  exists d'. rewrite Hw. auto.
Qed.

Lemma load_beyond d i : Z.of_nat (length d) <= i -> load d i = None.
Proof.
  intros H. unfold load, in_block.
  destruct (Z.ltb_spec i (Z.of_nat (length d))); [lia |].
  rewrite andb_false_r. reflexivity.
Qed.

Lemma store_beyond d i x : Z.of_nat (length d) <= i -> store d i x = None.
Proof.
  intros H. unfold store, in_block.
  destruct (Z.ltb_spec i (Z.of_nat (length d))); [lia |].
  rewrite andb_false_r. reflexivity.
Qed.

Lemma store_length d i x d' : store d i x = Some d' -> length d' = length d.
Proof.
  unfold store. destruct (in_block d i); intros H; inversion H.
  apply length_upd.
Qed.

(** A write of [push] whose field ends behind the block accesses a byte
    behind the block. *)
Lemma push_write_outside maxv bs o v d :
  field_ok maxv bs -> 0 <= o -> o / 8 < 32768 ->
  8 * Z.of_nat (length d) < o + bs ->
  push_write maxv bs o v d = None.
Proof.
  intros (Hbs & Hlow & Hhigh) Ho Hidx Hlen.
  assert (Ho8 : o = 8 * (o / 8) + o mod 8) by (apply Z.div_mod; lia).
  assert (Hoff : 0 <= o mod 8 < 8) by (apply Z.mod_pos_bound; lia).
  assert (Hi : 0 <= o / 8) by (apply Z.div_pos; lia).
  unfold push_write.
  rewrite (to_int_small (o / 8)), (to_int_small (o mod 8)) by lia.
  set (i := o / 8) in *. set (off := o mod 8) in *.
  unfold RANGE256.
  destruct (Z.leb_spec maxv 255) as [Hm | Hm].
  - specialize (Hlow Hm).
    rewrite (to_uint_small (off + bs)) by lia.
    destruct (Z.leb_spec (off + bs) 8) as [Hfit | Hfit].
    + rewrite load_beyond by lia. reflexivity.
    + destruct (load d i); [| reflexivity].
      destruct (store d i _) as [d1 |] eqn:E1; [| reflexivity].
      apply store_length in E1.
      rewrite load_beyond by lia. reflexivity.
  - specialize (Hhigh ltac:(lia)).
    rewrite (to_uint_small (off + bs)) by lia.
    destruct (Z.leb_spec (off + bs) 16) as [Hfit | Hfit].
    + destruct (load d i); [| reflexivity].
      destruct (store d i _) as [d1 |] eqn:E1; [| reflexivity].
      apply store_length in E1.
      rewrite load_beyond by lia. reflexivity.
    + destruct (load d i); [| reflexivity].
      destruct (store d i _) as [d1 |] eqn:E1; [| reflexivity].
      apply store_length in E1.
      destruct (store d1 (i + 1) _) as [d2 |] eqn:E2; [| reflexivity].
      apply store_length in E2.
      rewrite load_beyond by lia. reflexivity.
Qed.

(** When the slot does not lie inside the block, an accepted [push] leaves
    the block. *)
Lemma push_outside_block st v v' :
  typed st -> ~ slot_in_block st -> overflow_policy st v = Some v' ->
  push v st = None.
Proof.
  intros T Hout Hp. destruct (typed_bs st T) as [Hbs Hok].
  destruct (typed_reserve st T) as [Ho1 Ho2].
  unfold slot_in_block in Hout.
  rewrite push_cached by lia. rewrite Hp.
  rewrite push_write_outside; try assumption; try lia.
  - reflexivity.
  - apply Z.div_lt_upper_bound; lia.
Qed.

Lemma typed_pushed st d' :
  typed st -> bytes d' -> typed (pushed st d').
Proof.
  intros T Hb. destruct (typed_bs st T) as [Hbs _].
  pose proof (ty_bitIndex st T) as Hbi. pose proof (ty_popCount st T) as Hpc.
  pose proof (to_uint_range (s_size st * s_bitSize st)) as Hu.
  assert (Hnew : 0 <= to_ulong (s_bitIndex (reserve st) + s_bitSize st)
                 < 65536).
  { unfold reserve. rewrite (to_ulong_small (s_bitIndex st + s_bitSize st))
      by lia.
    destruct (Z.gtb_spec (s_bitIndex st + s_bitSize st)
                         (to_uint (s_size st * s_bitSize st))); simpl;
      rewrite to_ulong_small by lia; lia. }
  assert (Hfr : s_range (reserve st) = s_range st
                /\ s_bitSize (reserve st) = s_bitSize st
                /\ s_size (reserve st) = s_size st
                /\ s_popCount (reserve st) = s_popCount st).
  { unfold reserve.
    destruct (to_ulong (s_bitIndex st + s_bitSize st)
                >? to_uint (s_size st * s_bitSize st)); simpl; auto. }
  destruct Hfr as (F1 & F2 & F3 & F4).
  unfold pushed. cbn [s_popCount set_bitIndex set_data].
  rewrite F4.
  destruct (Z.gtb_spec (s_popCount st) 0);
    constructor; cbn; rewrite ?F1, ?F2, ?F3, ?F4;
    try apply (ty_range st T); try apply (ty_bitSize st T);
    try apply (ty_size st T); try assumption;
    try (pose proof (to_uint_range (s_popCount st - 1)); lia); try lia.
Qed.


Lemma typed_set_popCount st p :
  typed st -> 0 <= p < 65536 -> typed (set_popCount st p).
Proof. intros T Hp. constructor; simpl; try apply T. exact Hp. Qed.

Lemma typed_set_overflow st p : typed st -> typed (set_overflow st p).
Proof. intros T. constructor; simpl; apply T. Qed.

Lemma exec_typed c st r st' :
  typed st -> exec c st = Some (r, st') -> typed st'.
Proof.
  intros T H. destruct (typed_bs st T) as [Hbs _].
  destruct c as [v | | i | p |]; unfold exec, bind, ret in H.
  - rewrite push_cached in H by lia.
    destruct (overflow_policy st v) as [v' |].
    + destruct (push_write _ _ _ _ _) as [d' |] eqn:Hw; inversion H; subst.
      apply typed_pushed; [exact T |].
      apply (push_write_bytes _ _ _ _ _ _ (ty_bytes st T) Hw).
    + inversion H; subst. exact T.
  - rewrite pop_cached in H by lia.
    destruct (valueCount st <=? 0).
    + inversion H; subst. exact T.
    + rewrite getValue_cached in H by lia.
      destruct ((valueCount st <? 1) || (1 <? 1)).
      * inversion H; subst.
        apply typed_set_popCount; [exact T | apply to_uint_range].
      * rewrite getValueInternal_cached in H by lia.
        destruct (read_field _ _ _ _); inversion H; subst.
        apply typed_set_popCount; [exact T | apply to_uint_range].
  - rewrite getValue_cached in H by lia.
    destruct ((valueCount st <? i) || (i <? 1)).
    + inversion H; subst. exact T.
    + rewrite getValueInternal_cached in H by lia.
      destruct (read_field _ _ _ _); inversion H; subst. exact T.
  - unfold setOverflowState, modify in H. inversion H; subst.
    apply typed_set_overflow. exact T.
  - rewrite getValueCount_cached in H by lia. inversion H; subst. exact T.
Qed.

(** Every state reachable from a constructed object, whatever its capacity,
    keeps its members inside their types. *)
Lemma run_typed cs st rs st' :
  typed st -> run cs st = Some (rs, st') -> typed st'.
Proof.
  revert st rs. induction cs as [| c cs IH]; intros st rs T H; simpl in H.
  - inversion H; subst. exact T.
  - unfold bind in H. destruct (exec c st) as [[r st1] |] eqn:He;
      [| discriminate].
    destruct (run cs st1) as [[rs1 st2] |] eqn:Hr; [| discriminate].
    inversion H; subst.
    apply (IH st1 rs1); [apply (exec_typed c st r); assumption | exact Hr].
Qed.




(** C7.  Popped debt, on an object of any capacity: every [push] that
    returns [true] has taken exactly one off [s_popCount] when it was
    positive, wrapped cursor or not, and any [push] leaves [s_popCount] at 0
    when it was 0; and a [push] of an accepted value does return [true]
    whenever the slot it writes lies inside the allocated block. *)
Theorem push_decrements_popCount st v :
  typed st ->
  (forall b st', push v st = Some (b, st') ->
     (b = true -> 0 < s_popCount st ->
      s_popCount st' = s_popCount st - 1) /\
     (s_popCount st = 0 -> s_popCount st' = 0))
  /\ (forall v', overflow_policy st v = Some v' -> slot_in_block st ->
                 exists st', push v st = Some (true, st')).
Proof.
  intros T. destruct (typed_bs st T) as [Hbs _].
  pose proof (ty_popCount st T) as Hpc.
  split.
  - intros b st' H. rewrite push_cached in H by lia.
    destruct (overflow_policy st v) as [v' |].
    + destruct (push_write _ _ _ _ _) as [d' |]; inversion H; subst.
      rewrite s_popCount_pushed.
      destruct (Z.gtb_spec (s_popCount st) 0).
      * rewrite to_uint_small by lia. split; intros; lia.
      * split; intros; lia.
    + inversion H; subst. split; [discriminate | auto].
  - intros v' Hp Hin.
    destruct (push_in_block st v v' T Hin Hp) as (d' & Hpush & _).
    exists (pushed st d'). exact Hpush.
Qed.

(** C5.  Sentinel: once the bit width is cached (as it is on every
    constructed object), [pop()] with [getValueCount() == 0] returns 0 and
    [getValue(i)] with [i] outside [1 .. getValueCount()] returns 0, and both
    leave the whole object unchanged. *)
Theorem empty_and_invalid_index_return_zero st :
  1 <= s_bitSize st ->
  exists n, getValueCount st = Some (n, st) /\
            (n = 0 -> pop st = Some (0, st)) /\
            (forall i, i < 1 \/ n < i -> getValue i st = Some (0, st)).
Proof.
  intros Hbs. exists (valueCount st).
  split; [apply getValueCount_cached; exact Hbs |].
  split.
  - intros Hn. apply pop_empty; assumption.
  - intros i Hi. apply getValue_invalid; assumption.
Qed.

(** * The write cursor: the claim *)

(** C6, as stated, fails: after the push that fills the last slot the cursor
    equals [getSize() * getBitSize()]; [push] wraps it only at the start of
    the next call. *)
Lemma cursor_reaches_capacity :
  ~ (forall r size junk cs rs st,
       canonical_range r = true -> 1 <= size ->
       run cs (BitBuffer_new r size junk) = Some (rs, st) ->
       0 <= s_bitIndex st < getSize st * s_bitSize st).
Proof.
  intros H.
  specialize (H RANGE2 1 zeros [Push 0] [RBool true]
                (set_bitIndex (BitBuffer_new RANGE2 1 zeros) 1)
                eq_refl ltac:(lia) eq_refl).
  vm_compute in H. destruct H as [_ H]. discriminate H.
Qed.

Lemma s_bitIndex_pushed st d' :
  s_bitIndex (pushed st d')
  = to_ulong (s_bitIndex (reserve st) + s_bitSize st).
Proof.
  unfold pushed.
  match goal with
  | |- context [if ?b then _ else _] => destruct b
  end; reflexivity.
Qed.

(** What the overflow policy lets through fits the slot. *)
Lemma overflow_policy_fits st v v' :
  canonical_range (s_range st) = true ->
  s_bitSize st = bitSize_of (s_range st) ->
  0 <= v -> overflow_policy st v = Some v' ->
  0 <= v' < 2 ^ s_bitSize st.
Proof.
  intros Hc Hb Hv Hp.
  pose proof (canonical_maxRange _ Hc) as Hmax.
  rewrite <- Hb in Hmax. fold (getMaxRangeValue st) in Hmax.
  pose proof (field_ok_bitSize _ (canonical_range_byte _ Hc)) as (Hbs & _).
  rewrite <- Hb in Hbs.
  assert (Hpow : 0 < 2 ^ s_bitSize st) by (apply Z.pow_pos_nonneg; lia).
  unfold overflow_policy in Hp.
  destruct (Z.gtb_spec v (getMaxRangeValue st)).
  - destruct (s_overflow st =? OVERFLOW_MAX).
    + inversion Hp; subst. lia.
    + destruct (s_overflow st =? OVERFLOW_MIN); inversion Hp; subst. lia.
  - inversion Hp; subst. lia.
Qed.

(** C6, amended.  In every state reachable from construction (canonical
    selector, capacity at least 1) by [push], [pop], [getValue],
    [getValueCount] and [setOverflowState], the write cursor lies in the
    closed range [0 <= s_bitIndex <= getSize() * getBitSize()].  When
    [getSize() * getBitSize()] is below 2^16 the upper end is taken: an
    accepted [push] with the cursor below it writes the slot at the cursor
    and moves the cursor on by [getBitSize()], an accepted [push] with the
    cursor at it writes the slot at bit 0 and leaves the cursor at
    [getBitSize()], and [getSize()] in-range pushes into the new buffer
    leave the cursor at [getSize() * getBitSize()]. *)
Theorem cursor_within_capacity r size junk :
  canonical_range r = true -> 1 <= size < 65536 ->
  (forall cs rs st,
     run cs (BitBuffer_new r size junk) = Some (rs, st) ->
     exists bs, getBitSize st = Some (bs, st) /\
                0 <= s_bitIndex st <= getSize st * bs)
  /\ (size * bitSize_of r < 65536 ->
      (forall cs rs st v v',
         run cs (BitBuffer_new r size junk) = Some (rs, st) ->
         0 <= v -> overflow_policy st v = Some v' ->
         exists st',
           push v st = Some (true, st') /\
           (s_bitIndex st < getSize st * s_bitSize st ->
            s_bitIndex st' = s_bitIndex st + s_bitSize st /\
            written (s_data st) (s_data st') (s_bitIndex st)
                    (s_bitSize st) v') /\
           (s_bitIndex st = getSize st * s_bitSize st ->
            s_bitIndex st' = s_bitSize st /\
            written (s_data st) (s_data st') 0 (s_bitSize st) v'))
      /\ (forall vs,
            Z.of_nat (length vs) = size ->
            Forall (fun v => 0 <= v <= getMaxRangeValue_of r) vs ->
            exists st,
              run (map Push vs) (BitBuffer_new r size junk)
              = Some (repeat (RBool true) (length vs), st) /\
              s_bitIndex st = getSize st * s_bitSize st)).
Proof.
  intros Hc Hsz. pose proof (canonical_range_byte r Hc) as Hr.
  destruct (BitBuffer_new_fields r size junk)
    as (Er & _ & Ei & _ & Es & Eb & _).
  destruct (field_ok_bitSize r Hr) as (Hbs & _).
  split; [| intros Hfit; split].
  - intros cs rs st Hrun.
    destruct (run_frame cs _ rs st ltac:(rewrite Eb; lia) Hrun)
      as (F1 & _ & _ & _).
    exists (s_bitSize st).
    split; [apply getBitSize_cached; rewrite F1, Eb; lia |].
    unfold getSize.
    apply (run_cursor cs (BitBuffer_new r size junk) rs st);
      rewrite ?Eb, ?Es, ?Ei; try lia; try assumption.
  - intros cs rs st v v' Hrun Hv Hp.
    pose proof (wf_new r size junk Hr ltac:(lia) Hfit) as W0.
    destruct (run_wf cs _ rs st W0 Hrun) as (W & Fr & Fs & Fb).
    destruct (wf_bs st W) as [Hb _].
    pose proof (wf_cursor st W) as Hcur.
    pose proof (wf_fits st W) as F. change (2 ^ 16) with 65536 in F.
    assert (Hv' : 0 <= v' < 2 ^ s_bitSize st).
    { apply (overflow_policy_fits st v v'); try assumption.
      - rewrite Fr, Er. exact Hc.
      - apply (wf_bitSize st W). }
    destruct (push_spec st v v' W Hp) as (d' & Hpush & _ & _ & Hwr).
    specialize (Hwr Hv').
    exists (pushed st d'). split; [exact Hpush |].
    rewrite s_bitIndex_pushed, s_data_pushed. unfold getSize.
    destruct (reserve_cases st W) as [[Hle Hres] | [Heq Hres]];
      rewrite Hres in Hwr |- *.
    + split; [| lia].
      intros _. split; [apply to_ulong_small; lia | exact Hwr].
    + change (s_bitIndex (set_full (set_bitIndex st 0) true)) with 0
        in Hwr |- *.
      split; [lia |].
      intros _. split; [apply to_ulong_small; lia | exact Hwr].
  - intros vs Hlen Hall.
    pose proof (linear_new r size junk Hr ltac:(lia) Hfit) as L0.
    destruct (run_pushes (getMaxRangeValue_of r) vs Hall
                (BitBuffer_new r size junk) [] L0) as (st & Hrun & L & Fs & Fb).
    + rewrite Es. simpl. lia.
    + unfold getMaxRangeValue. rewrite Er. reflexivity.
    + rewrite Eb. apply canonical_maxRange. exact Hc.
    + exists st. split; [exact Hrun |].
      destruct L as (_ & _ & _ & Hbi & _). simpl in Hbi.
      unfold getSize. rewrite Hbi, Fs, Es, Hlen. reflexivity.
Qed.

(** * The wrap scenario *)

Lemma result_eqb_eq a b : result_eqb a b = true -> a = b.
Proof.
  destruct a, b; simpl; intros H; try discriminate; try reflexivity.
  - apply Bool.eqb_prop in H. congruence.
  - apply Z.eqb_eq in H. congruence.
Qed.

Lemma results_eqb_eq l1 l2 : results_eqb l1 l2 = true -> l1 = l2.
Proof.
  revert l2. induction l1 as [| a l1 IH]; intros [| b l2]; simpl;
    intros H; try discriminate; try reflexivity.
  apply andb_true_iff in H. destruct H as [Ha Hl].
  f_equal; [apply result_eqb_eq, Ha | apply IH, Hl].
Qed.

Lemma check_results_sound o expected :
  check_results o expected = true -> results o = Some expected.
Proof.
  destruct o as [[rs st] |]; simpl; intros H; [| discriminate].
  f_equal. apply results_eqb_eq. exact H.
Qed.

(** The scenario on every possible first byte of the block; the second byte
    is never read. *)
Lemma scenario_run x y :
  0 <= x < 256 ->
  results (run scenario_calls (scenario_buffer x y)) = Some scenario_results.
Proof.
  intros Hx. apply check_results_sound.
  assert (H : forallb
                (fun x => check_results
                            (run scenario_calls (scenario_buffer x y))
                            scenario_results)
                (map Z.of_nat (seq 0 256)) = true)
    by (vm_compute; reflexivity).
  exact (forall_below _ 256 H x Hx).
Qed.

(** C2.  The wrap scenario: on a buffer of capacity 4 for [RANGE4], whatever
    the fresh block holds, the pushes 3,1,2,0,3 all return [true]; then
    [getValue(1)] .. [getValue(4)] return 1,2,0,3 and four [pop()] calls
    return 1,2,0,3. *)
Theorem wrap_scenario junk :
  results (run scenario_calls (BitBuffer_new RANGE4 4 junk))
  = Some scenario_results.
Proof.
  rewrite BitBuffer_new_eq by (vm_compute; try discriminate; reflexivity).
  change (malloc junk (4 * bitSize_of RANGE4 / 8 + 1))
    with [to_byte (junk 0%nat); to_byte (junk 1%nat)].
  change (bitSize_of RANGE4) with 2.
  exact (scenario_run (to_byte (junk 0%nat)) (to_byte (junk 1%nat))
           (to_byte_range _)).
Qed.

(** * Bit fields: the round trip and where it stops *)

(** X4.  Round trip of the write logic of [push] and [getValueInternal], for
    every bit offset below 2^15: the field reads back as written and no bit
    outside it changes. *)
Theorem field_round_trip_int_offsets maxv bs o v d :
  field_ok maxv bs -> bytes d ->
  0 <= o < 32768 -> o + bs <= 8 * Z.of_nat (length d) ->
  0 <= v < 2 ^ bs ->
  exists d', push_write maxv bs o v d = Some d' /\
             read_field maxv bs o d' = Some v /\
             forall n, 0 <= n -> n < o \/ o + bs <= n ->
                       bit_at d' n = bit_at d n.
Proof.
  intros Hok Hd Ho Hlen Hv. pose proof Hok as (Hbs & _).
  destruct (push_write_spec maxv bs o v d Hok Hd) as (d' & Hw & Hl & Hb & Hwr);
    try lia.
  { apply Z.div_lt_upper_bound; lia. }
  specialize (Hwr Hv). exists d'. split; [exact Hw |]. split.
  - rewrite read_field_field by (try assumption; rewrite ?Hl; lia).
    f_equal. apply (field_written_same d); try lia. exact Hwr.
  - intros n Hn Hout. rewrite Hwr by exact Hn.
    destruct (Z.leb_spec o n); destruct (Z.ltb_spec n (o + bs));
      simpl; try reflexivity; lia.
Qed.

Lemma to_int_high x : 32768 <= x < 65536 -> to_int x = x - 65536.
Proof.
  intros H. unfold to_int. change (2 ^ 15) with 32768.
  change (2 ^ 16) with 65536.
  replace (x + 32768) with (x - 32768 + 1 * 65536) by lia.
  rewrite Z.mod_add by lia. rewrite Z.mod_small; lia.
Qed.

(** A bit offset from 2^15 on turns negative under [(int) p_bitIndex], and
    the array index [(int) p_bitIndex / 8] lies in front of the block. *)
Lemma read_field_wrapped maxv bs o d :
  32768 <= o <= 65528 -> read_field maxv bs o d = None.
Proof.
  intros Ho. unfold read_field. rewrite (to_int_high o) by lia.
  assert (Hq : Z.quot (o - 65536) 8 < 0).
  { replace (o - 65536) with (- (65536 - o)) by lia.
    rewrite Z.quot_opp_l by lia. rewrite Z.quot_div_nonneg by lia.
    assert (1 <= (65536 - o) / 8) by (apply Z.div_le_lower_bound; lia).
    lia. }
  rewrite (load_out d _ Hq).
  repeat match goal with
         | |- context [if ?b then _ else _] => destruct b
         end; reflexivity.
Qed.

Lemma Forall_repeat (P : Z -> Prop) x n : P x -> Forall P (repeat x n).
Proof. intros H. induction n; simpl; constructor; auto. Qed.

Lemma linear_after_pushes junk k :
  0 <= k <= 2186 ->
  exists st,
    run (repeat (Push 5) (Z.to_nat k)) (BitBuffer_new RANGE32768 2186 junk)
    = Some (repeat (RBool true) (Z.to_nat k), st) /\
    linear st (repeat 5 (Z.to_nat k)) 0 /\
    s_size st = 2186 /\ s_bitSize st = 15 /\ getMaxRangeValue st = 32767.
Proof.
  intros Hk.
  assert (L0 : linear (BitBuffer_new RANGE32768 2186 junk) [] 0).
  { apply linear_new; [unfold RANGE32768; lia | lia |].
    change (bitSize_of RANGE32768) with 15. lia. }
  destruct (BitBuffer_new_fields RANGE32768 2186 junk)
    as (Er & _ & _ & _ & Es & Eb & _).
  change (bitSize_of RANGE32768) with 15 in Eb.
  assert (Em : getMaxRangeValue (BitBuffer_new RANGE32768 2186 junk) = 32767)
    by (unfold getMaxRangeValue; rewrite Er; reflexivity).
  destruct (run_pushes 32767 (repeat 5 (Z.to_nat k))
              (Forall_repeat (fun v => 0 <= v <= 32767) 5 _
                 ltac:(simpl; lia)) _ [] L0)
    as (st & Hr & L & E1 & E2).
  - rewrite repeat_length, Es. cbn [length Nat.add]. lia.
  - exact Em.
  - rewrite Eb. reflexivity.
  - exists st. rewrite map_repeat, repeat_length in Hr. simpl in L.
    split; [exact Hr |]. split; [exact L |].
    split; [congruence |]. split; [congruence |].
    destruct (run_frame _ _ _ _ ltac:(rewrite Eb; lia) Hr) as (_ & F & _).
    unfold getMaxRangeValue in *. rewrite F. exact Em.
Qed.

(** C1, where the code departs from it.  The buffer
    [BitBuffer(RANGE32768, 2186)] holds 2185 values; the next [push] places
    its slot at bit offset 32775 and returns [true]; [getValueInternal] at
    that offset then indexes [s_data[(int) 32775 / 8]], that is
    [s_data[-4095]], outside the block. *)
Theorem read_back_lost_beyond_int_offsets junk :
  exists st st',
    run (repeat (Push 5) (Z.to_nat 2185)) (BitBuffer_new RANGE32768 2186 junk)
    = Some (repeat (RBool true) (Z.to_nat 2185), st) /\
    s_bitIndex (reserve st) = 32775 /\
    push 5 st = Some (true, st') /\
    getValueInternal 32775 st' = None.
Proof.
  destruct (linear_after_pushes junk 2185 ltac:(lia))
    as (st & Hr & L & Es & Eb & Em).
  pose proof L as (W & Hfull & Hpc & Hbi & Hf).
  rewrite repeat_length, Eb, Z2Nat.id in Hbi by lia.
  destruct (push_linear st _ 5 L) as (st' & Hp & L' & E1 & E2 & E3 & E4).
  - rewrite repeat_length, Es, Z2Nat.id; lia.
  - rewrite Em, Eb. reflexivity.
  - rewrite Em. lia.
  - exists st, st'. split; [exact Hr |]. split; [| split; [exact Hp |]].
    + destruct (reserve_cases st W) as [[_ ->] | [E _]]; [lia |].
      rewrite Es, Eb in E. lia.
    + rewrite getValueInternal_cached by (rewrite E3, Eb; lia).
      rewrite read_field_wrapped by lia. reflexivity.
Qed.

(** * FIFO order *)

(** FIFO order on every buffer whose bit offsets are representable in
    [int]: [k <= capacity] in-range values pushed into a fresh buffer are
    popped in the order they were pushed. *)
Theorem fifo_order_int_addressable r size junk vs :
  canonical_range r = true -> 1 <= size ->
  size * bitSize_of r <= 32768 ->
  Z.of_nat (length vs) <= size ->
  Forall (fun v => 0 <= v <= getMaxRangeValue_of r) vs ->
  results (run (map Push vs ++ repeat Pop (length vs))
               (BitBuffer_new r size junk))
  = Some (repeat (RBool true) (length vs) ++ map RVal vs).
Proof.
  intros Hc Hs Hfit Hlen Hvs.
  pose proof (canonical_range_byte r Hc) as Hr.
  assert (L0 : linear (BitBuffer_new r size junk) [] 0)
    by (apply linear_new; lia).
  destruct (BitBuffer_new_fields r size junk)
    as (Er & _ & _ & _ & Es & Eb & _).
  destruct (run_pushes _ vs Hvs _ [] L0) as (st1 & Hr1 & L1 & E1 & E2).
  - rewrite Es. cbn [length Nat.add]. exact Hlen.
  - unfold getMaxRangeValue. rewrite Er. reflexivity.
  - rewrite Eb. apply canonical_maxRange. exact Hc.
  - simpl in L1.
    destruct (run_pops st1 vs 0 (length vs) L1 ltac:(lia) ltac:(simpl; lia))
      as (st2 & Hr2 & _).
    + rewrite E2, Eb. pose proof (bitSize_of_pos r Hr).
      assert (Z.of_nat (length vs) * bitSize_of r <= size * bitSize_of r)
        by (apply Z.mul_le_mono_nonneg_r; lia).
      lia.
    + rewrite run_app, Hr1, Hr2. simpl.
      rewrite firstn_all. reflexivity.
Qed.

Lemma pop_beyond_int st vs p :
  linear st vs p -> 0 <= p < Z.of_nat (length vs) ->
  32768 <= p * s_bitSize st <= 65528 ->
  pop st = None.
Proof.
  intros L Hp Hadr. destruct (linear_slot st vs p L Hp) as [Hvc Hso].
  destruct L as (W & _). destruct (wf_bs st W) as [Hbs _].
  rewrite pop_cached by lia.
  destruct (Z.leb_spec (valueCount st) 0); [lia |].
  rewrite getValue_cached by lia.
  destruct (Z.ltb_spec (valueCount st) 1); [lia |]. simpl.
  rewrite getValueInternal_cached by lia.
  rewrite Hso, read_field_wrapped by lia. reflexivity.
Qed.

(** C3, where the code departs from it.  On [BitBuffer(RANGE32768, 2186)]
    2186 pushes of an in-range value succeed, 2185 pops return it, and the
    last [pop()] reads bit offset 32775 through [(int) p_bitIndex / 8]:
    outside the block, no value is returned. *)
Theorem fifo_lost_beyond_int_offsets junk :
  results (run (map Push (repeat 5 (Z.to_nat 2186))
                ++ repeat Pop (Z.to_nat 2186))
               (BitBuffer_new RANGE32768 2186 junk))
  = None.
Proof.
  destruct (linear_after_pushes junk 2186 ltac:(lia))
    as (st & Hr & L & Es & Eb & Em).
  rewrite map_repeat, run_app, Hr.
  replace (Z.to_nat 2186) with (Z.to_nat 2185 + 1)%nat by lia.
  rewrite repeat_app, run_app.
  destruct (run_pops st _ 0 (Z.to_nat 2185) L ltac:(lia))
    as (st2 & Hr2 & L2 & E2).
  - rewrite repeat_length. lia.
  - rewrite Eb. lia.
  - rewrite Hr2. simpl run. unfold bind.
    rewrite (pop_beyond_int st2 _ _ L2).
    + reflexivity.
    + rewrite repeat_length. lia.
    + rewrite E2, Eb. lia.
Qed.

(** * Instances *)

Lemma wf_set_overflow st p : wf st -> wf (set_overflow st p).
Proof. intros W. constructor; simpl; apply W. Qed.

(** A [RANGE4] buffer of capacity 4 after [push(1); push(2); pop()]. *)
Lemma wf_popped_buffer : wf popped_buffer.
Proof.
  constructor; simpl.
  - unfold RANGE4. lia.
  - reflexivity.
  - lia.
  - reflexivity.
  - reflexivity.
  - repeat constructor; lia.
  - lia.
  - reflexivity.
  - unfold stored. simpl. change (4 / 2) with 2. lia.
Qed.


(** [wrapped_popped_buffer] is what the calls leave. *)
Example wrapped_popped_buffer_reached :
  run [Push 1; Push 2; Pop] (BitBuffer_new RANGE8 21846 zeros)
  = Some ([RBool true; RBool true; RVal 4], wrapped_popped_buffer).
Proof. vm_compute. reflexivity. Qed.

Lemma typed_wrapped_popped_buffer : typed wrapped_popped_buffer.
Proof.
  constructor; simpl; try lia.
  - unfold RANGE8. lia.
  - reflexivity.
  - repeat constructor; lia.
Qed.

Lemma push_decrements_popCount_witness :
  exists st', push 3 wrapped_popped_buffer = Some (true, st') /\
              s_popCount st' = 0.
Proof.
  destruct (push_decrements_popCount wrapped_popped_buffer 3
              typed_wrapped_popped_buffer) as [Hdec Hret].
  destruct (Hret 3 eq_refl) as (st' & Hp).
  - unfold slot_in_block. vm_compute. discriminate.
  - exists st'. split; [exact Hp |].
    destruct (Hdec true st' Hp) as (H1 & _).
    rewrite H1; [reflexivity | reflexivity | simpl; lia].
Defined.

Lemma empty_and_invalid_index_return_zero_witness :
  exists n,
    getValueCount (BitBuffer_new RANGE4 4 zeros)
    = Some (n, BitBuffer_new RANGE4 4 zeros) /\
    (n = 0 -> pop (BitBuffer_new RANGE4 4 zeros)
              = Some (0, BitBuffer_new RANGE4 4 zeros)) /\
    (forall i, i < 1 \/ n < i ->
               getValue i (BitBuffer_new RANGE4 4 zeros)
               = Some (0, BitBuffer_new RANGE4 4 zeros)).
Proof.
  apply (empty_and_invalid_index_return_zero (BitBuffer_new RANGE4 4 zeros)).
  vm_compute. discriminate.
Defined.

Lemma cursor_within_capacity_witness :
  (exists bs,
     getBitSize (set_bitIndex (BitBuffer_new RANGE2 1 zeros) 1)
     = Some (bs, set_bitIndex (BitBuffer_new RANGE2 1 zeros) 1) /\
     0 <= s_bitIndex (set_bitIndex (BitBuffer_new RANGE2 1 zeros) 1)
       <= getSize (set_bitIndex (BitBuffer_new RANGE2 1 zeros) 1) * bs)
  /\ (exists st',
        push 1 (set_bitIndex (BitBuffer_new RANGE2 1 zeros) 1)
        = Some (true, st') /\ s_bitIndex st' = 1).
Proof.
  destruct (cursor_within_capacity RANGE2 1 zeros eq_refl ltac:(lia))
    as [Hrange Hend].
  split.
  - apply (Hrange [Push 0] [RBool true]). reflexivity.
  - destruct (Hend ltac:(vm_compute; reflexivity)) as [Hstep _].
    destruct (Hstep [Push 0] [RBool true]
                (set_bitIndex (BitBuffer_new RANGE2 1 zeros) 1) 1 1
                eq_refl ltac:(lia) eq_refl) as (st' & Hp & _ & Hwrap).
    exists st'. split; [exact Hp |].
    apply Hwrap. reflexivity.
Defined.

(** The popped debt shrinks on a push into a brand-new slot: after
    [push(1); push(2); pop(); push(3)] on capacity 4 the cursor has not
    wrapped, [getValueCount()] is 3 and [getValue(1)] is the popped 1. *)
Example popped_debt_without_wrap :
  results (run [Push 1; Push 2; Pop; Push 3; GetValueCount; GetValue 1]
               (BitBuffer_new RANGE4 4 zeros))
  = Some [RBool true; RBool true; RVal 1; RBool true; RVal 3; RVal 1].
Proof. vm_compute. reflexivity. Qed.

(** * The ring: pushes beyond the capacity *)

Lemma ring_new p_range p_size junk :
  0 <= p_range < 256 -> 1 <= p_size ->
  p_size * bitSize_of p_range < 65536 ->
  ring (BitBuffer_new p_range p_size junk) [] 0.
Proof.
  intros Hr Hs Hfit. split; [apply wf_new; assumption |].
  rewrite BitBuffer_new_eq by lia. unfold stored. simpl.
  rewrite Z.div_0_l by (pose proof (bitSize_of_pos p_range Hr); lia).
  split; [reflexivity |]. split; [lia |]. intros m Hm. lia.
Qed.

Lemma back_step c cap m :
  0 <= c < cap -> 2 <= m -> back (c + 1) cap m = back c cap (m - 1).
Proof.
  intros Hc Hm. unfold back.
  destruct (Z.leb_spec m (c + 1)); destruct (Z.leb_spec (m - 1) c); lia.
Qed.

Lemma back_wrap cap m :
  1 <= cap -> 2 <= m <= cap -> back 1 cap m = back cap cap (m - 1).
Proof.
  intros Hc Hm. unfold back.
  destruct (Z.leb_spec m 1); destruct (Z.leb_spec (m - 1) cap); lia.
Qed.

Lemma back_other c cap m :
  0 <= c -> 1 <= m < cap ->
  0 <= back c cap m /\ (back c cap m < c \/ c < back c cap m).
Proof.
  intros Hc Hm. unfold back. destruct (Z.leb_spec m c); lia.
Qed.

Lemma slots_apart s w bs :
  1 <= bs -> 0 <= s -> s < w \/ w < s ->
  s * bs + bs <= w * bs \/ w * bs + bs <= s * bs.
Proof.
  intros Hbs Hs [H | H]; [left | right].
  - replace (s * bs + bs) with ((s + 1) * bs) by lia.
    apply Z.mul_le_mono_nonneg_r; lia.
  - replace (w * bs + bs) with ((w + 1) * bs) by lia.
    apply Z.mul_le_mono_nonneg_r; lia.
Qed.

Lemma nth_app_recent (hist : list Z) v m :
  2 <= m <= Z.of_nat (length hist) + 1 ->
  nth (length (hist ++ [v]) - Z.to_nat m) (hist ++ [v]) 0
  = nth (length hist - Z.to_nat (m - 1)) hist 0.
Proof.
  intros Hm. rewrite length_app. simpl length.
  rewrite app_nth1 by lia. f_equal. lia.
Qed.

Lemma push_ring st hist v :
  ring st hist 0 ->
  getMaxRangeValue st = 2 ^ s_bitSize st - 1 ->
  0 <= v <= getMaxRangeValue st ->
  exists st', push v st = Some (true, st') /\ ring st' (hist ++ [v]) 0 /\
              s_range st' = s_range st /\ s_size st' = s_size st /\
              s_bitSize st' = s_bitSize st.
Proof.
  intros (W & Hpc & Hst & Hf) Hmax Hv.
  destruct (wf_bs st W) as [Hbs _].
  destruct (wf_slot st W) as (c & E & Hc & Hd).
  pose proof (wf_size st W) as Hsz.
  pose proof (wf_fits st W) as Hfit. change (2 ^ 16) with 65536 in Hfit.
  destruct (push_spec st v v W (overflow_policy_in_range st v (proj2 Hv)))
    as (d' & Hpush & W' & Hl & Hwr).
  specialize (Hwr ltac:(lia)).
  exists (pushed st d'). split; [exact Hpush |].
  rewrite Hd in Hf.
  assert (Hcb : c * s_bitSize st <= s_size st * s_bitSize st)
    by (apply Z.mul_le_mono_nonneg_r; lia).
  destruct (reserve_cases st W) as [[Hle Hres] | [Heq Hres]].
  - (* the cursor stays: the value goes to slot [c] *)
    assert (Hclt : c < s_size st).
    { destruct (Z_lt_ge_dec c (s_size st)) as [H | H]; [exact H | exfalso].
      assert (c = s_size st) by lia. subst c. lia. }
    assert (Ep : pushed st d'
                 = set_bitIndex (set_data st d')
                                (s_bitIndex st + s_bitSize st)).
    { unfold pushed. rewrite Hres. simpl. rewrite Hpc. simpl.
      rewrite to_ulong_small by lia. reflexivity. }
    rewrite Hres in Hwr. rewrite Ep in *. simpl.
    split; [| auto].
    assert (Ediv : (s_bitIndex st + s_bitSize st) / s_bitSize st = c + 1).
    { rewrite E. replace (c * s_bitSize st + s_bitSize st)
        with ((c + 1) * s_bitSize st) by lia.
      apply Z.div_mul. lia. }
    assert (Est : stored (set_bitIndex (set_data st d')
                            (s_bitIndex st + s_bitSize st))
                  = Z.min (Z.of_nat (length (hist ++ [v]))) (s_size st)).
    { unfold stored in *. simpl. rewrite length_app. simpl length.
      rewrite Ediv. rewrite Hd in Hst. destruct (s_full st); lia. }
    split; [exact W' |]. split; [exact Hpc |]. split; [exact Est |].
    rewrite Est. simpl. rewrite Ediv. rewrite length_app. simpl length.
    intros m Hm.
    destruct (Z.eq_dec m 1) as [-> | Hne].
    + replace (back (c + 1) (s_size st) 1) with c
        by (unfold back; destruct (Z.leb_spec 1 (c + 1)); lia).
      rewrite app_nth2 by lia.
      replace (length hist + 1 - Z.to_nat 1 - length hist)%nat with 0%nat
        by lia.
      simpl. rewrite <- E.
      apply (field_written_same (s_data st)); try lia. exact Hwr.
    + rewrite back_step by lia.
      destruct (back_other c (s_size st) (m - 1) ltac:(lia) ltac:(lia))
        as [Hb0 Hbne].
      rewrite (field_written_other _ _ _ _ _ _ _ Hwr).
      * rewrite Hf.
        -- rewrite app_nth1 by lia. f_equal. lia.
        -- unfold stored in *. rewrite Hd in Hst.
           destruct (s_full st); lia.
      * apply Z.mul_nonneg_nonneg; lia.
      * rewrite Z2Nat.id by lia. rewrite E.
        apply slots_apart; lia.
  - (* the cursor wraps: the value goes to slot 0 *)
    assert (Hceq : c = s_size st).
    { rewrite E in Heq. apply Z.mul_cancel_r in Heq; lia. }
    assert (Ep : pushed st d'
                 = set_bitIndex (set_data (set_full (set_bitIndex st 0) true)
                                          d')
                                (s_bitSize st)).
    { unfold pushed. rewrite Hres. simpl. rewrite Hpc. simpl.
      rewrite to_ulong_small by lia. reflexivity. }
    rewrite Hres in Hwr. simpl in Hwr. rewrite Ep in *. simpl.
    split; [| auto].
    assert (Hn : s_size st <= Z.of_nat (length hist)).
    { unfold stored in Hst. rewrite Hd in Hst. destruct (s_full st); lia. }
    assert (Est : stored (set_bitIndex
                            (set_data (set_full (set_bitIndex st 0) true) d')
                            (s_bitSize st))
                  = Z.min (Z.of_nat (length (hist ++ [v]))) (s_size st)).
    { unfold stored. simpl. rewrite length_app. simpl length. lia. }
    assert (Hstored : stored st = s_size st) by (rewrite Hst; lia).
    split; [exact W' |]. split; [exact Hpc |]. split; [exact Est |].
    rewrite Est. simpl. rewrite Z.div_same by lia.
    rewrite length_app. simpl length.
    intros m Hm.
    destruct (Z.eq_dec m 1) as [-> | Hne].
    + replace (back 1 (s_size st) 1) with 0 by reflexivity.
      rewrite app_nth2 by lia.
      replace (length hist + 1 - Z.to_nat 1 - length hist)%nat with 0%nat
        by lia.
      simpl.
      apply (field_written_same (s_data st)); try lia. exact Hwr.
    + rewrite back_wrap by lia. rewrite <- Hceq.
      assert (Hb : back c c (m - 1) = c - (m - 1))
        by (unfold back; destruct (Z.leb_spec (m - 1) c); lia).
      rewrite (field_written_other _ _ _ _ _ _ _ Hwr).
      * rewrite Hceq at 2. rewrite Hf by lia.
        rewrite app_nth1 by lia. f_equal. lia.
      * rewrite Hb. apply Z.mul_nonneg_nonneg; lia.
      * right. rewrite Hb.
        assert (1 * s_bitSize st <= (c - (m - 1)) * s_bitSize st)
          by (apply Z.mul_le_mono_nonneg_r; lia).
        lia.
Qed.

Lemma slot_offset_addressable st i :
  wf st -> int_addressable st -> 1 <= i <= valueCount st ->
  slot_offset st i < 32768.
Proof.
  intros W A Hi. destruct (wf_bs st W) as [Hbs _].
  unfold int_addressable in A. change (2 ^ 15) with 32768 in A.
  destruct (slot_offset_spec st i W Hi) as (s & Hs & Hrng & _).
  rewrite Hs.
  assert ((s + 1) * s_bitSize st <= s_size st * s_bitSize st)
    by (apply Z.mul_le_mono_nonneg_r; lia).
  lia.
Qed.

Lemma getValue_ring st hist p i :
  ring st hist p -> int_addressable st -> 0 <= p ->
  1 <= i <= stored st - p ->
  getValue i st
  = Some (nth (length hist - Z.to_nat (stored st - p - i + 1)) hist 0, st).
Proof.
  intros (W & Hpc & Hst & Hf) A Hp Hi.
  pose proof (wf_valueCount st W) as Hvc. rewrite Hpc in Hvc.
  rewrite getValue_spec
    by (try assumption; try apply slot_offset_addressable;
        try assumption; lia).
  destruct (slot_offset_spec st i W ltac:(lia)) as (s & Hs & _ & Es).
  rewrite Hs, Es. cbv zeta. rewrite Hvc. f_equal. f_equal.
  apply (Hf (stored st - p - i + 1)). lia.
Qed.

Lemma pop_ring st hist p :
  ring st hist p -> int_addressable st -> 0 <= p < stored st ->
  exists st', pop st
              = Some (nth (length hist - Z.to_nat (stored st - p)) hist 0,
                      st') /\
              ring st' hist (p + 1) /\ stored st' = stored st /\
              s_size st' = s_size st /\ s_bitSize st' = s_bitSize st.
Proof.
  intros R A Hp. pose proof R as (W & Hpc & Hst & Hf).
  pose proof (wf_valueCount st W) as Hvc. rewrite Hpc in Hvc.
  pose proof (wf_size_bound st W) as Hsb.
  pose proof (wf_stored st W) as Hs.
  destruct (wf_bs st W) as [Hbs _].
  assert (Hg := getValue_ring st hist p 1 R A ltac:(lia) ltac:(lia)).
  eexists. split.
  - rewrite pop_cached by lia.
    destruct (Z.leb_spec (valueCount st) 0); [lia |].
    rewrite Hg. replace (stored st - p - 1 + 1) with (stored st - p) by lia.
    reflexivity.
  - split; [| simpl; auto].
    split; [apply wf_set_popCount; [exact W | lia] |].
    simpl. split; [rewrite Hpc; apply to_uint_small; lia |].
    split; [exact Hst | exact Hf].
Qed.

Lemma run_pushes_ring m vs :
  Forall (fun v => 0 <= v <= m) vs ->
  forall st pre,
  ring st pre 0 ->
  getMaxRangeValue st = m -> m = 2 ^ s_bitSize st - 1 ->
  exists st', run (map Push vs) st
              = Some (repeat (RBool true) (length vs), st') /\
              ring st' (pre ++ vs) 0 /\
              s_size st' = s_size st /\ s_bitSize st' = s_bitSize st.
Proof.
  induction 1 as [| v vs Hv Hvs IH]; intros st pre R Hm Hmax.
  - exists st. simpl. rewrite app_nil_r. auto.
  - destruct (push_ring st pre v R ltac:(congruence)
                ltac:(rewrite Hm; exact Hv))
      as (st1 & Hp & R1 & E1 & E2 & E3).
    destruct (IH st1 (pre ++ [v]) R1) as (st2 & Hr & R2 & F2 & F3).
    + unfold getMaxRangeValue in *. rewrite E1. exact Hm.
    + rewrite E3. exact Hmax.
    + exists st2. cbn [map run exec length repeat]. unfold bind, ret.
      rewrite Hp, Hr. rewrite <- app_assoc in R2. simpl in R2.
      split; [reflexivity |]. split; [exact R2 |]. split; congruence.
Qed.

Lemma skipn_cons_nth (l : list Z) k :
  (k < length l)%nat -> skipn k l = nth k l 0 :: skipn (S k) l.
Proof.
  revert l. induction k as [| k IH]; intros [| x l] H; simpl in *; try lia.
  - reflexivity.
  - apply IH. lia.
Qed.

Lemma run_pops_ring st hist p k :
  ring st hist p -> int_addressable st -> 0 <= p ->
  p + Z.of_nat k <= stored st ->
  exists st',
    run (repeat Pop k) st
    = Some (map RVal
              (firstn k (skipn (length hist - Z.to_nat (stored st - p)) hist)),
            st') /\
    ring st' hist (p + Z.of_nat k) /\ stored st' = stored st.
Proof.
  revert st p. induction k as [| k IH]; intros st p R A Hp Hk.
  - exists st. simpl. rewrite Z.add_0_r. auto.
  - pose proof R as (W & Hpc & Hst & Hf).
    destruct (pop_ring st hist p R A ltac:(lia))
      as (st1 & Hpop & R1 & S1 & E1 & E2).
    assert (A1 : int_addressable st1)
      by (unfold int_addressable in *; rewrite E1, E2; exact A).
    destruct (IH st1 (p + 1) R1 A1 ltac:(lia) ltac:(lia))
      as (st2 & Hr & R2 & S2).
    exists st2. cbn [repeat run exec]. unfold bind, ret.
    rewrite Hpop, Hr. rewrite S1.
    split; [| split; [| congruence]].
    + f_equal. f_equal.
      rewrite (skipn_cons_nth hist
                 (length hist - Z.to_nat (stored st - p))) by lia.
      cbn [firstn map]. f_equal. f_equal.
      pose proof (wf_stored st W).
      replace (length hist - Z.to_nat (stored st - (p + 1)))%nat
        with (S (length hist - Z.to_nat (stored st - p))) by lia.
      reflexivity.
    + replace (p + Z.of_nat (S k)) with (p + 1 + Z.of_nat k) by lia.
      exact R2.
Qed.

(** * Pushing more values than the capacity *)

Lemma fresh_ring r size junk :
  canonical_range r = true -> 1 <= size -> size * bitSize_of r <= 32768 ->
  let st := BitBuffer_new r size junk in
  ring st [] 0 /\ int_addressable st /\
  getMaxRangeValue st = getMaxRangeValue_of r /\
  getMaxRangeValue_of r = 2 ^ s_bitSize st - 1 /\
  s_size st = size /\ s_bitSize st = bitSize_of r.
Proof.
  intros Hc Hs Hfit st. pose proof (canonical_range_byte r Hc) as Hr.
  destruct (BitBuffer_new_fields r size junk)
    as (Er & _ & _ & _ & Es & Eb & _).
  fold st in Er, Es, Eb.
  split; [apply ring_new; lia |].
  split; [unfold int_addressable; rewrite Es, Eb; exact Hfit |].
  split; [unfold getMaxRangeValue; rewrite Er; reflexivity |].
  split; [rewrite Eb; apply canonical_maxRange; exact Hc |].
  split; assumption.
Qed.

(** X1.  Overwrite on full: after any number of in-range pushes into a fresh
    buffer, [getValueCount()] is the smaller of that number and the capacity,
    and [getValue(1)] .. [getValue(count)] are the most recent [count]
    values, oldest first. *)
Theorem newest_values_survive r size junk vs :
  canonical_range r = true -> 1 <= size -> size * bitSize_of r <= 32768 ->
  Forall (fun v => 0 <= v <= getMaxRangeValue_of r) vs ->
  let n := Z.of_nat (length vs) in
  let count := Z.min n size in
  exists st,
    run (map Push vs) (BitBuffer_new r size junk)
    = Some (repeat (RBool true) (length vs), st) /\
    getValueCount st = Some (count, st) /\
    forall i, 1 <= i <= count ->
      getValue i st = Some (nth (Z.to_nat (n - count + i - 1)) vs 0, st).
Proof.
  intros Hc Hs Hfit Hvs n count.
  destruct (fresh_ring r size junk Hc Hs Hfit)
    as (R0 & A0 & Em & Emax & Es & Eb).
  destruct (run_pushes_ring _ vs Hvs _ [] R0 Em Emax)
    as (st & Hr & R & E1 & E2).
  simpl in R. exists st. split; [exact Hr |].
  pose proof R as (W & Hpc & Hst & Hf).
  destruct (wf_bs st W) as [Hbs _].
  assert (A : int_addressable st)
    by (unfold int_addressable in *; rewrite E1, E2; exact A0).
  assert (Hcount : stored st = count)
    by (rewrite Hst, E1, Es; reflexivity).
  split.
  - rewrite getValueCount_cached by lia.
    rewrite (wf_valueCount st W), Hpc, Hcount, Z.sub_0_r. reflexivity.
  - intros i Hi.
    rewrite (getValue_ring st vs 0 i R A) by lia.
    rewrite Hcount.
    replace (length vs - Z.to_nat (count - 0 - i + 1))%nat
      with (Z.to_nat (n - count + i - 1)) by (unfold n, count in *; lia).
    reflexivity.
Qed.

Lemma newest_values_survive_witness :
  exists st,
    run (map Push [3; 1; 2; 0; 3]) (BitBuffer_new RANGE4 4 zeros)
    = Some (repeat (RBool true) 5, st) /\
    getValueCount st = Some (4, st) /\
    getValue 1 st = Some (1, st).
Proof.
  destruct (newest_values_survive RANGE4 4 zeros [3; 1; 2; 0; 3] eq_refl
              ltac:(lia) ltac:(vm_compute; discriminate)
              ltac:(repeat constructor; vm_compute; discriminate))
    as (st & Hr & Hc & Hg).
  exists st. split; [exact Hr |]. split; [exact Hc |].
  exact (Hg 1 ltac:(vm_compute; split; discriminate)).
Defined.

(** X2.  After any number of in-range pushes into a fresh buffer, [k] pops
    ([k] at most the number of live values) return the oldest [k] of the
    values that survived, in the order they were pushed. *)
Theorem pops_return_survivors_in_order r size junk vs k :
  canonical_range r = true -> 1 <= size -> size * bitSize_of r <= 32768 ->
  Forall (fun v => 0 <= v <= getMaxRangeValue_of r) vs ->
  Z.of_nat k <= Z.min (Z.of_nat (length vs)) size ->
  results (run (map Push vs ++ repeat Pop k) (BitBuffer_new r size junk))
  = Some (repeat (RBool true) (length vs)
          ++ map RVal
               (firstn k
                  (skipn (length vs
                          - Z.to_nat (Z.min (Z.of_nat (length vs)) size))
                         vs))).
Proof.
  intros Hc Hs Hfit Hvs Hk.
  destruct (fresh_ring r size junk Hc Hs Hfit)
    as (R0 & A0 & Em & Emax & Es & Eb).
  destruct (run_pushes_ring _ vs Hvs _ [] R0 Em Emax)
    as (st & Hr & R & E1 & E2).
  simpl in R. pose proof R as (W & Hpc & Hst & Hf).
  assert (A : int_addressable st)
    by (unfold int_addressable in *; rewrite E1, E2; exact A0).
  assert (Hcount : stored st = Z.min (Z.of_nat (length vs)) size)
    by (rewrite Hst, E1, Es; reflexivity).
  destruct (run_pops_ring st vs 0 k R A ltac:(lia) ltac:(lia))
    as (st2 & Hr2 & _).
  rewrite run_app, Hr, Hr2. simpl. rewrite Z.sub_0_r, Hcount. reflexivity.
Qed.

Lemma pops_return_survivors_in_order_witness :
  results (run (map Push [3; 1; 2; 0; 3] ++ repeat Pop 4)
               (BitBuffer_new RANGE4 4 zeros))
  = Some (repeat (RBool true) 5 ++ map RVal [1; 2; 0; 3]).
Proof.
  exact (pops_return_survivors_in_order RANGE4 4 zeros [3; 1; 2; 0; 3] 4
           eq_refl ltac:(lia) ltac:(vm_compute; discriminate)
           ltac:(repeat constructor; vm_compute; discriminate)
           ltac:(vm_compute; discriminate)).
Defined.

(** * A push after a pop, before the wrap *)

Lemma push_linear_popped st vs p v :
  linear st vs p -> 1 <= p -> Z.of_nat (length vs) < s_size st ->
  getMaxRangeValue st = 2 ^ s_bitSize st - 1 ->
  0 <= v <= getMaxRangeValue st ->
  exists st', push v st = Some (true, st') /\ linear st' (vs ++ [v]) (p - 1) /\
              s_size st' = s_size st /\ s_bitSize st' = s_bitSize st.
Proof.
  intros (W & Hfull & Hpc & Hbi & Hf) Hp Hlen Hmax Hv.
  destruct (wf_bs st W) as [Hbs _].
  pose proof (wf_popped st W) as Hpop. pose proof (wf_stored st W) as Hst.
  pose proof (wf_size_bound st W) as Hsb.
  pose proof (wf_cursor st W) as Hcur.
  pose proof (wf_fits st W) as Hfit. change (2 ^ 16) with 65536 in Hfit.
  destruct (push_spec st v v W (overflow_policy_in_range st v (proj2 Hv)))
    as (d' & Hpush & W' & Hl & Hwr).
  specialize (Hwr ltac:(lia)).
  assert (Hres : reserve st = st).
  { destruct (reserve_cases st W) as [[_ E] | [E _]]; [exact E |].
    exfalso. rewrite Hbi in E. apply Z.mul_cancel_r in E; lia. }
  rewrite Hres in Hwr.
  assert (Ep : pushed st d'
               = set_popCount
                   (set_bitIndex (set_data st d')
                                 (s_bitIndex st + s_bitSize st))
                   (p - 1)).
  { unfold pushed. rewrite Hres. simpl. rewrite Hpc.
    destruct (Z.gtb_spec p 0); [| lia].
    rewrite to_ulong_small, to_uint_small by lia. reflexivity. }
  exists (pushed st d'). split; [exact Hpush |].
  rewrite Ep in *. simpl. split; [| auto].
  split; [exact W' |]. split; [exact Hfull |]. split; [reflexivity |].
  split; simpl.
  - rewrite length_app. simpl length. rewrite Hbi. lia.
  - intros j Hj. rewrite length_app in Hj. simpl in Hj.
    destruct (Nat.eq_dec j (length vs)) as [-> | Hne].
    + rewrite app_nth2 by lia. rewrite Nat.sub_diag. simpl.
      rewrite <- Hbi. apply (field_written_same (s_data st)); try lia.
      exact Hwr.
    + rewrite app_nth1 by lia. rewrite <- (Hf j) by lia.
      apply (field_written_other _ _ _ _ _ _ _ Hwr);
        [apply Z.mul_nonneg_nonneg; lia |].
      left. rewrite Z2Nat.id by lia. rewrite Hbi.
      assert ((Z.of_nat j + 1) * s_bitSize st
              <= Z.of_nat (length vs) * s_bitSize st)
        by (apply Z.mul_le_mono_nonneg_r; lia).
      lia.
Qed.

(** X3.  The popped debt shrinks on a push into a brand-new slot: in a
    buffer with a canonical selector and [getSize() * getBitSize() <= 2^15]
    that has not wrapped, after [n] in-range pushes and [k >= 1] pops, one
    more in-range push raises [getValueCount()] from [n - k] to [n - k + 2]
    and [getValue(1)] is again the value the last [pop()] returned. *)
Theorem push_revives_last_popped r size junk vs k v :
  canonical_range r = true -> 1 <= size -> size * bitSize_of r <= 32768 ->
  Forall (fun v => 0 <= v <= getMaxRangeValue_of r) vs ->
  0 <= v <= getMaxRangeValue_of r ->
  Z.of_nat (length vs) < size -> (1 <= k <= length vs)%nat ->
  results (run (map Push vs ++ repeat Pop k
                ++ [GetValueCount; Push v; GetValueCount; GetValue 1])
               (BitBuffer_new r size junk))
  = Some (repeat (RBool true) (length vs) ++ map RVal (firstn k vs)
          ++ [RVal (Z.of_nat (length vs) - Z.of_nat k); RBool true;
              RVal (Z.of_nat (length vs) - Z.of_nat k + 2);
              RVal (nth (k - 1) vs 0)]).
Proof.
  intros Hc Hs Hfit Hvs Hv Hn Hk.
  pose proof (canonical_range_byte r Hc) as Hr.
  pose proof (bitSize_of_pos r Hr) as Hpos.
  assert (L0 : linear (BitBuffer_new r size junk) [] 0)
    by (apply linear_new; lia).
  destruct (BitBuffer_new_fields r size junk)
    as (Er & _ & _ & _ & Es & Eb & _).
  destruct (run_pushes _ vs Hvs _ [] L0) as (st1 & Hr1 & L1 & E1 & E2).
  { rewrite Es. cbn [length Nat.add]. lia. }
  { unfold getMaxRangeValue. rewrite Er. reflexivity. }
  { rewrite Eb. apply canonical_maxRange. exact Hc. }
  simpl in L1.
  assert (Hsb : Z.of_nat (length vs) * bitSize_of r <= size * bitSize_of r)
    by (apply Z.mul_le_mono_nonneg_r; lia).
  assert (Hkb : Z.of_nat k * bitSize_of r
                <= Z.of_nat (length vs) * bitSize_of r)
    by (apply Z.mul_le_mono_nonneg_r; lia).
  destruct (run_pops st1 vs 0 k L1 ltac:(lia) ltac:(simpl; lia))
    as (st2 & Hr2 & L2 & E3).
  { rewrite E2, Eb. lia. }
  simpl in L2, Hr2.
  assert (Emax : getMaxRangeValue st2 = getMaxRangeValue_of r).
  { destruct (run_frame _ _ _ _ ltac:(rewrite Eb; lia) Hr1) as (_ & F1 & _).
    destruct (run_frame _ _ _ _ ltac:(rewrite E2, Eb; lia) Hr2)
      as (_ & F2 & _).
    unfold getMaxRangeValue. rewrite F2, F1, Er. reflexivity. }
  assert (Esz : s_size st2 = size).
  { destruct (run_frame _ _ _ _ ltac:(rewrite E2, Eb; lia) Hr2)
      as (_ & _ & F & _). congruence. }
  assert (Ebs : s_bitSize st2 = bitSize_of r) by congruence.
  destruct (push_linear_popped st2 vs (Z.of_nat k) v L2)
    as (st3 & Hp & L3 & E5 & E6); try lia.
  { rewrite Emax, Ebs. apply canonical_maxRange. exact Hc. }
  pose proof L2 as (W2 & _ & Hpc2 & _).
  pose proof L3 as (W3 & _ & Hpc3 & _ & Hf3).
  destruct (linear_slot st3 (vs ++ [v]) (Z.of_nat k - 1) L3) as [Hvc3 Hso3].
  { rewrite length_app. simpl length. lia. }
  rewrite length_app in Hvc3. simpl length in Hvc3.
  assert (Hvc2 : valueCount st2 = Z.of_nat (length vs) - Z.of_nat k).
  { rewrite (wf_valueCount st2 W2), (linear_stored st2 vs _ L2), Hpc2.
    reflexivity. }
  assert (Hg : getValue 1 st3 = Some (nth (k - 1) vs 0, st3)).
  { assert (Hadr : slot_offset st3 1 < 32768).
    { rewrite Hso3, E6, Ebs.
      assert ((Z.of_nat k - 1) * bitSize_of r <= Z.of_nat k * bitSize_of r)
        by (apply Z.mul_le_mono_nonneg_r; lia).
      lia. }
    rewrite (getValue_spec st3 1 W3 ltac:(lia) Hadr).
    rewrite Hso3. f_equal. f_equal.
    replace (Z.of_nat k - 1) with (Z.of_nat (k - 1)) by lia.
    rewrite Hf3 by (rewrite length_app; simpl length; lia).
    apply app_nth1. lia. }
  rewrite run_app, Hr1, run_app, Hr2.
  cbn [run exec]. unfold bind, ret.
  rewrite getValueCount_cached by (rewrite Ebs; lia).
  rewrite Hp.
  rewrite getValueCount_cached by (rewrite E6, Ebs; lia).
  rewrite Hg, Hvc2, Hvc3. cbn [results].
  replace (Z.of_nat (length vs + 1) - (Z.of_nat k - 1))
    with (Z.of_nat (length vs) - Z.of_nat k + 2) by lia.
  reflexivity.
Qed.

Lemma push_revives_last_popped_witness :
  results (run (map Push [1; 2] ++ repeat Pop 1
                ++ [GetValueCount; Push 3; GetValueCount; GetValue 1])
               (BitBuffer_new RANGE4 4 zeros))
  = Some (repeat (RBool true) 2 ++ map RVal [1]
          ++ [RVal 1; RBool true; RVal 3; RVal 1]).
Proof.
  exact (push_revives_last_popped RANGE4 4 zeros [1; 2] 1 3 eq_refl
           ltac:(lia) ltac:(vm_compute; discriminate)
           ltac:(repeat constructor; vm_compute; discriminate)
           ltac:(vm_compute; split; discriminate)
           ltac:(simpl; lia) ltac:(simpl; lia)).
Defined.

(** * Safety and invariants of whole runs *)

(** X5.  Memory safety: on a buffer constructed with any selector byte and a
    capacity with [1 <= capacity] and [capacity * bitWidth <= 2^15], every
    sequence of [push], [pop], [getValue], [getValueCount] and
    [setOverflowState] calls, with any arguments, runs to its end: no call
    reads or writes outside the [malloc]'ed block. *)
Theorem calls_stay_in_block r size junk cs :
  0 <= r < 256 -> 1 <= size -> size * bitSize_of r <= 32768 ->
  exists rs st,
    run cs (BitBuffer_new r size junk) = Some (rs, st) /\
    length rs = length cs /\
    length (s_data st) = length (s_data (BitBuffer_new r size junk)).
Proof.
  intros Hr Hs Hfit.
  assert (W : wf (BitBuffer_new r size junk)) by (apply wf_new; lia).
  destruct (BitBuffer_new_fields r size junk)
    as (_ & _ & _ & _ & Es & Eb & _).
  assert (A : int_addressable (BitBuffer_new r size junk))
    by (unfold int_addressable; rewrite Es, Eb; exact Hfit).
  destruct (run_total cs _ W A) as (rs & st & Hrun).
  exists rs, st. split; [exact Hrun |].
  destruct (run_wf cs _ rs st W Hrun) as (W' & _ & E1 & E2).
  split.
  - clear - Hrun. revert rs Hrun.
    generalize (BitBuffer_new r size junk) as st0.
    induction cs as [| c cs IH]; intros st0 rs H; simpl in H.
    + inversion H. reflexivity.
    + unfold bind in H. destruct (exec c st0) as [[x st1] |]; [| discriminate].
      destruct (run cs st1) as [[rs1 st2] |] eqn:Hr1; [| discriminate].
      inversion H; subst. simpl. f_equal. apply (IH st1). exact Hr1.
  - apply Nat2Z.inj. rewrite (wf_length st W'), (wf_length _ W), E1, E2.
    reflexivity.
Qed.

Lemma calls_stay_in_block_witness :
  exists rs st,
    run [Push 60000; Pop; GetValue 0; SetOverflowState 9; Push 2; GetValue 1]
        (BitBuffer_new 5 3 zeros) = Some (rs, st) /\
    length rs = 6%nat /\
    length (s_data st) = length (s_data (BitBuffer_new 5 3 zeros)).
Proof.
  exact (calls_stay_in_block 5 3 zeros
           [Push 60000; Pop; GetValue 0; SetOverflowState 9; Push 2;
            GetValue 1]
           ltac:(lia) ltac:(lia) ltac:(vm_compute; discriminate)).
Defined.

(** X6.  [push] alone stays inside the block whenever
    [capacity * bitWidth] fits the 16-bit [unsigned int], whatever the value
    and the overflow policy, and keeps the object well formed; this covers
    the bit offsets from 2^15 on, where [getValueInternal] does not. *)
Theorem push_stays_in_block st v :
  wf st ->
  exists b st', push v st = Some (b, st') /\ wf st' /\
                length (s_data st') = length (s_data st).
Proof.
  intros W. destruct (overflow_policy st v) as [v' |] eqn:Hp.
  - destruct (push_spec st v v' W Hp) as (d' & Hpush & W' & Hl & _).
    exists true, (pushed st d'). split; [exact Hpush |].
    split; [exact W' |]. rewrite s_data_pushed. exact Hl.
  - exists false, st. unfold push. rewrite Hp. auto.
Qed.

Lemma push_stays_in_block_witness :
  exists b st', push 5 popped_buffer = Some (b, st') /\ wf st' /\
                length (s_data st') = length (s_data popped_buffer).
Proof. exact (push_stays_in_block popped_buffer 5 wf_popped_buffer). Defined.

(** X7.  Invariants of every reachable state (any selector byte, capacity at
    least 1, [capacity * bitWidth < 2^16]): the cursor is a multiple of the
    bit width, [0 <= s_popCount <= stored <= getSize()] where [stored] is the
    number of slots written, [getValueCount()] is [stored - s_popCount] and
    at most [getSize()], and the capacity, the bit width and the size of the
    block never change. *)
Theorem reachable_invariants r size junk cs rs st :
  0 <= r < 256 -> 1 <= size -> size * bitSize_of r < 65536 ->
  run cs (BitBuffer_new r size junk) = Some (rs, st) ->
  s_bitIndex st mod s_bitSize st = 0 /\
  0 <= s_popCount st <= stored st /\ stored st <= getSize st /\
  getValueCount st = Some (stored st - s_popCount st, st) /\
  getSize st = size /\ s_bitSize st = bitSize_of r /\
  Z.of_nat (length (s_data st)) = size * bitSize_of r / 8 + 1.
Proof.
  intros Hr Hs Hfit Hrun.
  assert (W : wf (BitBuffer_new r size junk)) by (apply wf_new; lia).
  destruct (BitBuffer_new_fields r size junk)
    as (_ & _ & _ & _ & Es & Eb & _).
  destruct (run_wf cs _ rs st W Hrun) as (W' & _ & E1 & E2).
  destruct (wf_bs st W') as [Hbs _]. unfold getSize.
  split; [apply (wf_aligned st W') |].
  split; [apply (wf_popped st W') |].
  split; [apply (wf_stored st W') |].
  split; [rewrite getValueCount_cached by lia;
          rewrite (wf_valueCount st W'); reflexivity |].
  split; [congruence |]. split; [congruence |].
  rewrite (wf_length st W'), E1, E2, Es, Eb. reflexivity.
Qed.

Lemma reachable_invariants_witness :
  s_bitIndex popped_buffer mod s_bitSize popped_buffer = 0 /\
  0 <= s_popCount popped_buffer <= stored popped_buffer.
Proof.
  destruct (reachable_invariants RANGE4 4 zeros [Push 1; Push 2; Pop]
              [RBool true; RBool true; RVal 1] popped_buffer
              ltac:(unfold RANGE4; lia) ltac:(lia)
              ltac:(vm_compute; reflexivity) eq_refl)
    as (H1 & H2 & _).
  split; assumption.
Defined.
(** * Peek and pop *)

(** X8.  Peek is total and non-destructive on a well-formed object whose
    bit offsets are representable in [int]: for every index, valid or not,
    [getValue] returns a value and leaves the whole object as it was, so a
    repeated [getValue(i)] returns the same value and [getValueCount()] is
    unchanged. *)
Theorem getValue_leaves_object st i :
  wf st -> int_addressable st ->
  exists v, getValue i st = Some (v, st) /\
            (forall n, (run (repeat (GetValue i) n) st
                        = Some (repeat (RVal v) n, st))).
Proof.
  intros W A. destruct (wf_bs st W) as [Hbs _].
  assert (Hg : exists v, getValue i st = Some (v, st)).
  { destruct (Z_lt_ge_dec i 1);
      [| destruct (Z_lt_ge_dec (valueCount st) i)].
    - exists 0. apply getValue_invalid; lia.
    - exists 0. apply getValue_invalid; lia.
    - eexists. apply getValue_spec; try assumption; try lia.
      apply slot_offset_addressable; try assumption; lia. }
  destruct Hg as (v & Hg). exists v. split; [exact Hg |].
  induction n as [| n IH]; [reflexivity |].
  cbn [repeat run exec]. unfold bind, ret. rewrite Hg, IH. reflexivity.
Qed.

Lemma getValue_leaves_object_witness :
  exists v, getValue 1 popped_buffer = Some (v, popped_buffer) /\
            run (repeat (GetValue 1) 3) popped_buffer
            = Some (repeat (RVal v) 3, popped_buffer).
Proof.
  destruct (getValue_leaves_object popped_buffer 1 wf_popped_buffer
              ltac:(vm_compute; discriminate)) as (v & Hg & Hr).
  exists v. split; [exact Hg | exact (Hr 3%nat)].
Defined.

(** X9.  [pop()] on a buffer with live values returns what [getValue(1)]
    returns, lowers [getValueCount()] by exactly one, and changes nothing
    but [s_popCount]: the stored bits, the cursor and the wrapped flag stay
    as they were. *)
Theorem pop_takes_oldest_value st :
  wf st -> int_addressable st -> 0 < valueCount st ->
  exists v st',
    pop st = Some (v, st') /\ getValue 1 st = Some (v, st) /\
    getValueCount st' = Some (valueCount st - 1, st') /\
    st' = set_popCount st (s_popCount st + 1).
Proof.
  intros W A Hc. destruct (wf_bs st W) as [Hbs _].
  pose proof (wf_valueCount st W) as Hvc.
  pose proof (wf_stored st W) as Hst. pose proof (wf_popped st W) as Hpop.
  pose proof (wf_size_bound st W) as Hsb.
  assert (Hadr : slot_offset st 1 < 32768)
    by (apply slot_offset_addressable; try assumption; lia).
  eexists. eexists. split; [apply pop_spec; assumption |].
  split; [apply getValue_spec; try assumption; lia |].
  rewrite to_uint_small by lia. split; [| reflexivity].
  pose proof (wf_set_popCount st W Hc) as W'.
  rewrite to_uint_small in W' by lia.
  rewrite getValueCount_cached by (simpl; lia).
  rewrite (wf_valueCount _ W'). unfold stored in *. simpl.
  f_equal. f_equal. lia.
Qed.

Lemma pop_takes_oldest_value_witness :
  exists v st',
    pop popped_buffer = Some (v, st') /\
    getValue 1 popped_buffer = Some (v, popped_buffer) /\
    getValueCount st' = Some (valueCount popped_buffer - 1, st') /\
    st' = set_popCount popped_buffer (s_popCount popped_buffer + 1).
Proof.
  exact (pop_takes_oldest_value popped_buffer wf_popped_buffer
           ltac:(vm_compute; discriminate) ltac:(vm_compute; reflexivity)).
Defined.
(** * Selectors outside the canonical set *)

(** X10.  The constructor has no error path for the selector: for every
    byte, [getMaxRangeValue()] lies in [1 .. 32767] and [getBitSize()] in
    [1 .. 15], the width is at most 8 exactly when [maxValue <= 255] (the
    test [push] and [getValueInternal] branch on), and the width is at most
    one bit short of what [maxValue] needs: [2^width <= 2 * maxValue] and
    [maxValue < 2^(width + 1)].  It is short for the selector [0x05]. *)
Theorem every_selector_has_a_width r size junk :
  0 <= r < 256 ->
  let st := BitBuffer_new r size junk in
  let m := getMaxRangeValue st in
  exists bs,
    getBitSize st = Some (bs, st) /\
    1 <= m <= 32767 /\ 1 <= bs <= 15 /\
    (bs <= 8 <-> m <= 255) /\
    2 ^ bs <= 2 * m /\ m < 2 ^ (bs + 1) /\
    (r = 5 -> 2 ^ bs <= m).
Proof.
  intros Hr st m.
  destruct (BitBuffer_new_fields r size junk)
    as (Er & _ & _ & _ & _ & Eb & _).
  fold st in Er, Eb.
  assert (Em : m = getMaxRangeValue_of r)
    by (unfold m, getMaxRangeValue; rewrite Er; reflexivity).
  pose proof (bitSize_of_pos r Hr) as Hpos.
  exists (bitSize_of r). rewrite Em.
  split; [rewrite getBitSize_cached by lia; rewrite Eb; reflexivity |].
  pose proof (forall_below
    (fun r => (1 <=? getMaxRangeValue_of r)
              && (getMaxRangeValue_of r <=? 32767)
              && (bitSize_of r <=? 15)
              && (Bool.eqb (bitSize_of r <=? 8)
                           (getMaxRangeValue_of r <=? 255))
              && (2 ^ bitSize_of r <=? 2 * getMaxRangeValue_of r)
              && (getMaxRangeValue_of r <? 2 ^ (bitSize_of r + 1)))
    256 eq_refl r Hr) as H.
  cbv beta in H. repeat rewrite andb_true_iff in H.
  destruct H as (((((H1 & H2) & H3) & H4) & H5) & H6).
  apply Z.leb_le in H1, H2, H3, H5. apply Z.ltb_lt in H6.
  apply Bool.eqb_prop in H4.
  split; [lia |]. split; [lia |]. split.
  - rewrite <- !Z.leb_le. rewrite H4. tauto.
  - split; [exact H5 |]. split; [exact H6 |].
    intros ->. vm_compute. discriminate.
Qed.

Lemma every_selector_has_a_width_witness :
  exists bs,
    getBitSize (BitBuffer_new 5 3 zeros)
    = Some (bs, BitBuffer_new 5 3 zeros) /\ 1 <= bs <= 15.
Proof.
  destruct (every_selector_has_a_width 5 3 zeros ltac:(lia))
    as (bs & H1 & _ & H2 & _).
  exists bs. split; assumption.
Defined.
(** * [flush] *)

Lemma load_nil i : load [] i = None.
Proof.
  unfold load, in_block. simpl length.
  destruct (Z.leb_spec 0 i); destruct (Z.ltb_spec i (Z.of_nat 0));
    simpl; try reflexivity; lia.
Qed.

Lemma read_field_nil maxv bs p : read_field maxv bs p [] = None.
Proof.
  unfold read_field. rewrite !load_nil.
  repeat match goal with
         | |- context [if ?b then _ else _] => destruct b
         end; reflexivity.
Qed.

Lemma push_write_nil maxv bs p v : push_write maxv bs p v [] = None.
Proof.
  unfold push_write. rewrite !load_nil.
  repeat match goal with
         | |- context [if ?b then _ else _] => destruct b
         end; reflexivity.
Qed.

(** X11.  [flush()] only frees the block: it resets no counter, so after it
    [getValueCount()] still reports the live values, while a [pop()] and
    every accepted [push] touch freed memory. *)
Theorem flush_keeps_counters st :
  wf st -> 0 < valueCount st ->
  exists st',
    flush st = Some (tt, st') /\
    getValueCount st' = Some (valueCount st, st') /\
    pop st' = None /\
    forall v v', overflow_policy st v = Some v' -> push v st' = None.
Proof.
  intros W Hc. destruct (wf_bs st W) as [Hbs _].
  exists (set_data st []). split; [reflexivity |].
  split; [rewrite getValueCount_cached by (simpl; lia); reflexivity |].
  split.
  - rewrite pop_cached by (simpl; lia).
    change (valueCount (set_data st [])) with (valueCount st).
    destruct (Z.leb_spec (valueCount st) 0); [lia |].
    rewrite getValue_cached by (simpl; lia).
    change (valueCount (set_data st [])) with (valueCount st).
    destruct (Z.ltb_spec (valueCount st) 1); [lia |]. simpl.
    rewrite getValueInternal_cached by (simpl; lia).
    change (s_data (set_data st [])) with (@nil Z).
    rewrite read_field_nil. reflexivity.
  - intros v v' Hp. rewrite push_cached by (simpl; lia).
    change (overflow_policy (set_data st []) v) with (overflow_policy st v).
    rewrite Hp.
    change (s_data (set_data st [])) with (@nil Z).
    rewrite push_write_nil. reflexivity.
Qed.

Lemma flush_keeps_counters_witness :
  exists st',
    flush popped_buffer = Some (tt, st') /\
    getValueCount st' = Some (1, st') /\ pop st' = None.
Proof.
  destruct (flush_keeps_counters popped_buffer wf_popped_buffer
              ltac:(vm_compute; reflexivity)) as (st' & H1 & H2 & H3 & _).
  exists st'. split; [exact H1 |]. split; [exact H2 | exact H3].
Defined.

Lemma field_round_trip_int_offsets_witness :
  exists d', push_write 255 8 4 171 [0; 255] = Some d' /\
             read_field 255 8 4 d' = Some 171.
Proof.
  destruct (field_round_trip_int_offsets 255 8 4 171 [0; 255])
    as (d' & Hw & Hr & _).
  - unfold field_ok. lia.
  - repeat constructor; lia.
  - lia.
  - simpl. lia.
  - change (2 ^ 8) with 256. lia.
  - exists d'. split; assumption.
Defined.

(** ** The listing of [printContent2Serial] *)

Lemma to_long_small x : 0 <= x < 2147483648 -> to_long x = x.
Proof.
  intros H. unfold to_long. change (2 ^ 31) with 2147483648.
  change (2 ^ 32) with 4294967296. rewrite Z.mod_small; lia.
Qed.

(** The bit offsets below the loop bound of [printContent2Serial] are the
    slots written so far. *)
Lemma stored_bits st :
  wf st ->
  (if s_full st then to_uint (getSize st * s_bitSize st) else s_bitIndex st)
  = stored st * s_bitSize st.
Proof.
  intros W. destruct (wf_slot st W) as (c & E & Hc & Hd).
  pose proof (wf_fits st W) as F. change (2 ^ 16) with 65536 in F.
  destruct (wf_bs st W) as [Hbs _]. pose proof (wf_size st W).
  unfold stored, getSize. destruct (s_full st).
  - apply to_uint_small. nia.
  - rewrite Hd. exact E.
Qed.

(** A slot is live when it lies at most [valueCount st] slots behind the
    cursor, around the end of the block. *)
Lemma live_spec st k :
  wf st ->
  (live st k = true <->
   exists m, 1 <= m <= valueCount st /\
             back (s_bitIndex st / s_bitSize st) (s_size st) m = k).
Proof.
  intros W. destruct (wf_bs st W) as [Hbs _].
  pose proof (wf_valueCount st W) as Hvc.
  pose proof (wf_stored st W) as Hst. pose proof (wf_popped st W) as Hp.
  unfold live. rewrite existsb_exists. split.
  - intros (i & Hin & Hi). apply in_seq in Hin. apply Z.eqb_eq in Hi.
    assert (Hi' : 1 <= Z.of_nat i <= valueCount st) by lia.
    destruct (slot_offset_spec st (Z.of_nat i) W Hi') as (s & Hs & _ & Hb).
    exists (valueCount st - Z.of_nat i + 1). split; [lia |].
    cbv zeta in Hb. unfold back. rewrite <- Hb.
    rewrite Hs in Hi. nia.
  - intros (m & Hm & Hb).
    exists (Z.to_nat (valueCount st - m + 1)). split.
    + apply in_seq. lia.
    + apply Z.eqb_eq. rewrite Z2Nat.id by lia.
      assert (Hi' : 1 <= valueCount st - m + 1 <= valueCount st) by lia.
      destruct (slot_offset_spec st _ W Hi') as (s & Hs & _ & Hb').
      cbv zeta in Hb'.
      replace (valueCount st - (valueCount st - m + 1) + 1) with m in Hb'
        by lia.
      unfold back in Hb. rewrite Hs. f_equal. lia.
Qed.

(** The ["P"] test of lines 563-576 marks the slots that are not live. *)
Lemma popped_flag st k :
  wf st -> 0 <= k < stored st ->
  let bs := s_bitSize st in
  let bi := s_bitIndex st in
  let bitDelta := to_uint (valueCount st * bs) in
  let initialBitIndex :=
    if bitDelta <? bi then to_ulong (bi - bitDelta)
    else to_ulong (to_uint (getSize st * bs) - bitDelta + bi) in
  (if (initialBitIndex =? bi) && (s_popCount st >? 0) then true
   else if initialBitIndex <? bi
        then (k * bs <? initialBitIndex) || (k * bs >=? bi)
        else (k * bs >=? bi) && (k * bs <? initialBitIndex))
  = negb (live st k).
Proof.
  intros W Hk. destruct (wf_bs st W) as [Hbs _].
  destruct (wf_slot st W) as (c & E & Hc & Hd).
  pose proof (wf_fits st W) as F. change (2 ^ 16) with 65536 in F.
  pose proof (wf_valueCount st W) as Hvc.
  pose proof (wf_stored st W) as Hst. pose proof (wf_popped st W) as Hp.
  pose proof (wf_size st W) as Hsz.
  pose proof (live_spec st k W) as HL. rewrite Hd in HL.
  cbv zeta. unfold getSize.
  set (n := valueCount st) in *. set (bs := s_bitSize st) in *.
  set (sz := s_size st) in *. rewrite E.
  assert (Hn : 0 <= n <= sz) by lia.
  assert (Hnb : 0 <= n * bs <= sz * bs) by nia.
  assert (Hcb : 0 <= c * bs <= sz * bs) by nia.
  assert (Hkb : 0 <= k * bs < sz * bs) by nia.
  assert (Hsc : stored st = sz \/ stored st = c).
  { unfold stored. fold sz bs. rewrite E. fold bs.
    destruct (s_full st); [left; reflexivity | right].
    rewrite Z.div_mul by lia. reflexivity. }
  rewrite (to_uint_small (n * bs)) by lia.
  rewrite (to_uint_small (sz * bs)) by lia.
  destruct (Z.ltb_spec (n * bs) (c * bs)) as [Hlt | Hge].
  - (* the live slots end at the cursor without passing the block start *)
    assert (Hnc : n < c) by nia.
    rewrite to_ulong_small by lia.
    destruct (live st k) eqn:Elive; cbn [negb].
    + apply proj1 in HL. destruct (HL eq_refl) as (m & Hm & Hb).
      unfold back in Hb. destruct (Z.leb_spec m c); [| lia].
      assert (c * bs - n * bs <= k * bs) by nia.
      assert (k * bs < c * bs) by nia.
      destruct (Z.eqb_spec (c * bs - n * bs) (c * bs)); [nia |].
      cbn [andb].
      destruct (Z.ltb_spec (c * bs - n * bs) (c * bs)); [| lia].
      destruct (Z.ltb_spec (k * bs) (c * bs - n * bs)); [lia |].
      destruct (Z.geb_spec (k * bs) (c * bs)); [lia | reflexivity].
    + destruct (Z.eqb_spec (c * bs - n * bs) (c * bs)) as [E0 | N0].
      * assert (n = 0) by nia.
        destruct (Z.gtb_spec (s_popCount st) 0); [reflexivity | lia].
      * cbn [andb].
        destruct (Z.ltb_spec (c * bs - n * bs) (c * bs)); [| lia].
        destruct (Z.ltb_spec (k * bs) (c * bs - n * bs)); [reflexivity |].
        destruct (Z.geb_spec (k * bs) (c * bs)); [reflexivity |].
        exfalso. assert (Hf : false = true); [| discriminate Hf].
        apply HL. exists (c - k). split; [nia |].
        unfold back. destruct (Z.leb_spec (c - k) c); lia.
  - (* the live slots reach the cursor from the block start, the older ones
       sit at the block end *)
    assert (Hnc : c <= n) by nia.
    rewrite to_ulong_small by lia.
    destruct (Z.eqb_spec (sz * bs - n * bs + c * bs) (c * bs)) as [E0 | N0].
    + assert (n = sz) by nia.
      destruct (Z.gtb_spec (s_popCount st) 0); [lia |]. cbn [andb].
      destruct (Z.ltb_spec (sz * bs - n * bs + c * bs) (c * bs)); [lia |].
      destruct (Z.ltb_spec (k * bs) (sz * bs - n * bs + c * bs));
        destruct (Z.geb_spec (k * bs) (c * bs)); cbn [andb]; try lia.
      * symmetry. apply negb_false_iff. apply HL.
        exists (c - k). split; [nia |].
        unfold back. destruct (Z.leb_spec (c - k) c); lia.
      * symmetry. apply negb_false_iff. apply HL.
        exists (sz - k + c). split; [nia |].
        unfold back. destruct (Z.leb_spec (sz - k + c) c); nia.
    + cbn [andb].
      destruct (Z.ltb_spec (sz * bs - n * bs + c * bs) (c * bs)); [lia |].
      destruct (Z.geb_spec (k * bs) (c * bs)) as [Hkc | Hkc]; cbn [andb].
      * destruct (Z.ltb_spec (k * bs) (sz * bs - n * bs + c * bs)) as [Hki | Hki].
        -- symmetry. apply negb_true_iff.
           destruct (live st k) eqn:Elive; [| reflexivity].
           apply proj1 in HL. destruct (HL eq_refl) as (m & Hm & Hb).
           unfold back in Hb. destruct (Z.leb_spec m c); nia.
        -- symmetry. apply negb_false_iff. apply HL.
           exists (sz - k + c). split; [nia |].
           unfold back. destruct (Z.leb_spec (sz - k + c) c); nia.
      * symmetry. apply negb_false_iff. apply HL.
        exists (c - k). split; [nia |].
        unfold back. destruct (Z.leb_spec (c - k) c); lia.
Qed.

(** The ["N"] test of line 578 marks the slot the next [push] writes. *)
Lemma next_flag st k :
  wf st -> 0 <= k < stored st ->
  let bs := s_bitSize st in
  let bi := s_bitIndex st in
  (k * bs =? bi) || ((bi =? to_uint (bs * getSize st)) && (k * bs =? 0))
  = (k * bs =? s_bitIndex (reserve st)).
Proof.
  intros W Hk. destruct (wf_bs st W) as [Hbs _].
  destruct (wf_slot st W) as (c & E & Hc & Hd).
  pose proof (wf_fits st W) as F. change (2 ^ 16) with 65536 in F.
  pose proof (wf_stored st W) as Hst. pose proof (wf_size st W) as Hsz.
  cbv zeta. unfold getSize.
  rewrite (Z.mul_comm (s_bitSize st) (s_size st)).
  rewrite to_uint_small by nia.
  assert (Hkb : 0 <= k * s_bitSize st < s_size st * s_bitSize st) by nia.
  destruct (reserve_cases st W) as [[Hfit ->] | [Hend ->]].
  - destruct (Z.eqb_spec (s_bitIndex st) (s_size st * s_bitSize st));
      [lia |].
    cbn [andb]. apply orb_false_r.
  - rewrite Hend.
    change (s_bitIndex (set_full (set_bitIndex st 0) true)) with 0.
    rewrite Z.eqb_refl. cbn [andb].
    destruct (Z.eqb_spec (k * s_bitSize st) (s_size st * s_bitSize st));
      [lia | reflexivity].
Qed.

Lemma pbind_method {A B} (m : M A) (k : A -> Printing B) st a st' :
  m st = Some (a, st') -> pbind (method m) k st = k a st'.
Proof.
  intros H. unfold pbind, method. rewrite H.
  destruct (k a st') as [out o]. reflexivity.
Qed.

Lemma pbind_method_fails {A B} (m : M A) (k : A -> Printing B) st :
  m st = None -> pbind (method m) k st = ([], OutsideBlock).
Proof. intros H. unfold pbind, method. rewrite H. reflexivity. Qed.

Lemma pbind_gets {A B} (f : BitBuffer -> A) (k : A -> Printing B) st :
  pbind (method (gets f)) k st = k (f st) st.
Proof. apply pbind_method. reflexivity. Qed.

Lemma pbind_emit {B} e (k : unit -> Printing B) st :
  pbind (emit e) k st = (let (out, o) := k tt st in (e :: out, o)).
Proof. reflexivity. Qed.

Lemma pbind_pret {A B} (a : A) (k : A -> Printing B) st :
  pbind (pret a) k st = k a st.
Proof.
  unfold pbind, pret. destruct (k a st) as [out o]. reflexivity.
Qed.

(** The first checks of an iteration of the loop, on a well-formed object:
    the loop goes on exactly below the slots written so far. *)
Lemma print_slots_head st initialBitIndex fuel k :
  wf st -> 0 <= k <= stored st ->
  print_slots (S fuel) initialBitIndex (k * s_bitSize st) st
  = if k <? stored st
    then
      (emit Serial.entry_sep ;;~
       v <~ method (getValueInternal (k * s_bitSize st)) ;;
       emit (Serial.PrintNum v) ;;~
       emit Serial.entry_open ;;~
       emit (Serial.PrintNum (k * s_bitSize st)) ;;~
       pc <~ method (gets s_popCount) ;;
       (if (if (initialBitIndex =? s_bitIndex st) && (pc >? 0) then true
            else if initialBitIndex <? s_bitIndex st
                 then (k * s_bitSize st <? initialBitIndex)
                      || (k * s_bitSize st >=? s_bitIndex st)
                 else (k * s_bitSize st >=? s_bitIndex st)
                      && (k * s_bitSize st <? initialBitIndex))
        then emit Serial.popped_mark else pret tt) ;;~
       (if (k * s_bitSize st =? s_bitIndex st)
           || ((s_bitIndex st =? to_uint (s_bitSize st * getSize st))
               && (k * s_bitSize st =? 0))
        then emit Serial.next_mark else pret tt) ;;~
       emit Serial.entry_close ;;~
       print_slots fuel initialBitIndex ((k + 1) * s_bitSize st)) st
    else ([], Returned tt st).
Proof.
  intros W Hk. destruct (wf_bs st W) as [Hbs _].
  pose proof (wf_fits st W) as F. change (2 ^ 16) with 65536 in F.
  pose proof (wf_stored st W) as Hst. pose proof (wf_size st W) as Hsz.
  assert (Hsb : 0 <= stored st * s_bitSize st <= s_size st * s_bitSize st)
    by nia.
  assert (Hkb : 0 <= k * s_bitSize st <= stored st * s_bitSize st) by nia.
  cbn [print_slots].
  rewrite (pbind_method getBitSize _ st _ st (getBitSize_cached st ltac:(lia))).
  rewrite !pbind_gets.
  rewrite (stored_bits st W).
  rewrite to_long_small by lia.
  rewrite (to_ulong_small (stored st * s_bitSize st)) by lia.
  rewrite (to_ulong_small (k * s_bitSize st + s_bitSize st - 1)) by lia.
  destruct (Z.ltb_spec k (stored st)) as [Hlt | Hge].
  - assert ((k + 1) * s_bitSize st <= stored st * s_bitSize st)
      by (apply Z.mul_le_mono_nonneg_r; lia).
    destruct (Z.ltb_spec (k * s_bitSize st + s_bitSize st - 1)
                         (stored st * s_bitSize st)); [| lia].
    rewrite (to_ulong_small (k * s_bitSize st + s_bitSize st)) by lia.
    replace (k * s_bitSize st + s_bitSize st) with ((k + 1) * s_bitSize st)
      by lia.
    reflexivity.
  - destruct (Z.ltb_spec (k * s_bitSize st + s_bitSize st - 1)
                         (stored st * s_bitSize st)); [nia | reflexivity].
Qed.

(** An iteration on a slot that starts below bit 2^15 prints the entry of
    the slot and leaves the object as it was. *)
Lemma print_slots_entry st fuel k :
  wf st -> 0 <= k < stored st -> k * s_bitSize st < 32768 ->
  let bitDelta := to_uint (valueCount st * s_bitSize st) in
  let initialBitIndex :=
    if bitDelta <? s_bitIndex st then to_ulong (s_bitIndex st - bitDelta)
    else to_ulong (to_uint (getSize st * s_bitSize st) - bitDelta
                   + s_bitIndex st) in
  print_slots (S fuel) initialBitIndex (k * s_bitSize st) st
  = (let (out, o) :=
       print_slots fuel initialBitIndex ((k + 1) * s_bitSize st) st in
     (slot_entry st k ++ out, o)).
Proof.
  intros W Hk Hadr. cbv zeta.
  destruct (wf_bs st W) as [Hbs Hok].
  pose proof (wf_stored st W) as Hst.
  pose proof (block_covers st W) as Hcov.
  pose proof (wf_bytes st W) as Hby.
  assert (Hk1 : (k + 1) * s_bitSize st <= s_size st * s_bitSize st)
    by (apply Z.mul_le_mono_nonneg_r; lia).
  assert (Hkb : 0 <= k * s_bitSize st) by nia.
  rewrite print_slots_head by (try assumption; lia).
  destruct (Z.ltb_spec k (stored st)); [| lia].
  rewrite pbind_emit.
  rewrite (pbind_method (getValueInternal (k * s_bitSize st)) _ st
             (field (s_data st) (k * s_bitSize st) (Z.to_nat (s_bitSize st)))
             st).
  2:{ rewrite getValueInternal_cached by lia.
      rewrite read_field_field by (try assumption; lia). reflexivity. }
  rewrite !pbind_emit. rewrite pbind_gets.
  pose proof (popped_flag st k W ltac:(lia)) as HP. cbv zeta in HP.
  pose proof (next_flag st k W ltac:(lia)) as HN. cbv zeta in HN.
  rewrite HP, HN. unfold slot_entry.
  destruct (live st k); cbn [negb];
    destruct (k * s_bitSize st =? s_bitIndex (reserve st));
    repeat (rewrite pbind_emit || rewrite pbind_pret);
    destruct (print_slots fuel _ ((k + 1) * s_bitSize st) st) as [out o];
    reflexivity.
Qed.

(** An iteration on a slot that starts at bit 2^15 or later prints the
    separator, and the read that follows leaves the block. *)
Lemma print_slots_fault st initialBitIndex fuel k :
  wf st -> 0 <= k < stored st -> 32768 <= k * s_bitSize st <= 65528 ->
  print_slots (S fuel) initialBitIndex (k * s_bitSize st) st
  = ([Serial.entry_sep], OutsideBlock).
Proof.
  intros W Hk Hadr. destruct (wf_bs st W) as [Hbs _].
  rewrite print_slots_head by (try assumption; lia).
  destruct (Z.ltb_spec k (stored st)); [| lia].
  rewrite pbind_emit. rewrite pbind_method_fails; [reflexivity |].
  rewrite getValueInternal_cached by lia.
  rewrite read_field_wrapped by lia. reflexivity.
Qed.

(** [j] iterations over slots that start below bit 2^15. *)
Lemma print_slots_prefix st (j fuel : nat) k :
  wf st -> 0 <= k -> k + Z.of_nat j <= stored st ->
  (k + Z.of_nat j - 1) * s_bitSize st < 32768 ->
  let bitDelta := to_uint (valueCount st * s_bitSize st) in
  let initialBitIndex :=
    if bitDelta <? s_bitIndex st then to_ulong (s_bitIndex st - bitDelta)
    else to_ulong (to_uint (getSize st * s_bitSize st) - bitDelta
                   + s_bitIndex st) in
  print_slots (j + fuel) initialBitIndex (k * s_bitSize st) st
  = (let (out, o) :=
       print_slots fuel initialBitIndex
                   ((k + Z.of_nat j) * s_bitSize st) st in
     (flat_map (slot_entry st) (map Z.of_nat (seq (Z.to_nat k) j)) ++ out,
      o)).
Proof.
  intros W. cbv zeta. revert k.
  destruct (wf_bs st W) as [Hbs _].
  induction j as [| j IH]; intros k Hk Hkj Hadr.
  - cbn [Nat.add seq map flat_map app]. rewrite Z.add_0_r.
    destruct (print_slots fuel _ (k * s_bitSize st) st) as [out o].
    reflexivity.
  - cbn [Nat.add].
    assert (Hk' : k * s_bitSize st
                  <= (k + Z.of_nat (S j) - 1) * s_bitSize st)
      by (apply Z.mul_le_mono_nonneg_r; lia).
    pose proof (print_slots_entry st (j + fuel) k W ltac:(lia) ltac:(lia))
      as Hstep.
    cbv zeta in Hstep. rewrite Hstep.
    rewrite (IH (k + 1)) by lia.
    replace (k + 1 + Z.of_nat j) with (k + Z.of_nat (S j)) by lia.
    destruct (print_slots fuel _ ((k + Z.of_nat (S j)) * s_bitSize st) st)
      as [out o].
    cbn [seq map flat_map].
    rewrite Z2Nat.id by lia.
    replace (Z.to_nat (k + 1)) with (S (Z.to_nat k)) by lia.
    rewrite <- app_assoc. reflexivity.
Qed.

(** [printContent2Serial] around its loop, on a well-formed object. *)
Lemma printContent2Serial_loop st :
  wf st ->
  let bitDelta := to_uint (valueCount st * s_bitSize st) in
  let initialBitIndex :=
    if bitDelta <? s_bitIndex st then to_ulong (s_bitIndex st - bitDelta)
    else to_ulong (to_uint (getSize st * s_bitSize st) - bitDelta
                   + s_bitIndex st) in
  printContent2Serial st
  = (let (out, o) :=
       print_slots (S (Z.to_nat (stored st * s_bitSize st)))
                   initialBitIndex (0 * s_bitSize st) st in
     match o with
     | Returned _ st' =>
         (Serial.list_open :: out ++ [Serial.list_close], Returned tt st')
     | OutsideBlock => (Serial.list_open :: out, OutsideBlock)
     | LoopBound => (Serial.list_open :: out, LoopBound)
     end).
Proof.
  intros W. cbv zeta. destruct (wf_bs st W) as [Hbs _].
  unfold printContent2Serial.
  rewrite (pbind_method getValueCount _ st _ st
             (getValueCount_cached st ltac:(lia))).
  rewrite (pbind_method getBitSize _ st _ st
             (getBitSize_cached st ltac:(lia))).
  rewrite !pbind_gets. rewrite pbind_emit. rewrite pbind_gets.
  rewrite (stored_bits st W). change (0 * s_bitSize st) with 0.
  unfold pbind at 1.
  destruct (print_slots _ _ 0 st) as [out [[] st' | |]]; reflexivity.
Qed.

(** The listing when no slot in use starts at bit 2^15 or later. *)
Lemma printContent2Serial_listing st :
  wf st -> (stored st - 1) * s_bitSize st < 32768 ->
  printContent2Serial st
  = ([Serial.list_open]
     ++ flat_map (slot_entry st)
                 (map Z.of_nat (seq 0 (Z.to_nat (stored st))))
     ++ [Serial.list_close], Returned tt st).
Proof.
  intros W Hadr. destruct (wf_bs st W) as [Hbs _].
  pose proof (wf_stored st W) as Hst.
  pose proof (printContent2Serial_loop st W) as HL. cbv zeta in HL.
  rewrite HL. clear HL.
  assert (Hn : stored st <= stored st * s_bitSize st) by nia.
  replace (S (Z.to_nat (stored st * s_bitSize st)))
    with (Z.to_nat (stored st)
          + S (Z.to_nat (stored st * s_bitSize st) - Z.to_nat (stored st)))%nat
    by lia.
  pose proof (print_slots_prefix st (Z.to_nat (stored st))
                (S (Z.to_nat (stored st * s_bitSize st)
                    - Z.to_nat (stored st))) 0 W
                ltac:(lia) ltac:(lia)) as HP.
  cbv zeta in HP. rewrite HP by (rewrite Z2Nat.id by lia; exact Hadr).
  clear HP. rewrite Z2Nat.id by lia. rewrite Z.add_0_l.
  rewrite print_slots_head by (try assumption; lia).
  rewrite Z.ltb_irrefl. rewrite app_nil_r. reflexivity.
Qed.

(** The listing when a slot in use starts at bit 2^15 or later: it stops
    after the separator of the first such slot, at the read of the slot. *)
Lemma printContent2Serial_fault st :
  wf st -> 32768 <= (stored st - 1) * s_bitSize st ->
  let bad := (32768 + s_bitSize st - 1) / s_bitSize st in
  printContent2Serial st
  = ([Serial.list_open]
     ++ flat_map (slot_entry st) (map Z.of_nat (seq 0 (Z.to_nat bad)))
     ++ [Serial.entry_sep], OutsideBlock)
  /\ 0 <= bad < stored st
  /\ (bad - 1) * s_bitSize st < 32768 <= bad * s_bitSize st
  /\ bad * s_bitSize st <= 65528.
Proof.
  intros W Hadr. cbv zeta. destruct (wf_bs st W) as [Hbs _].
  pose proof (wf_stored st W) as Hst.
  set (bs := s_bitSize st) in *.
  set (bad := (32768 + bs - 1) / bs).
  pose proof (Z.div_mod (32768 + bs - 1) bs ltac:(lia)) as Hd.
  pose proof (Z.mod_pos_bound (32768 + bs - 1) bs ltac:(lia)) as Hm.
  fold bad in Hd.
  assert (Hlo : 32768 <= bad * bs) by lia.
  assert (Hhi : bad * bs <= 32768 + bs - 1) by lia.
  assert (Hb0 : 0 <= bad) by (apply Z.div_pos; lia).
  assert (Hbs' : bad < stored st).
  { destruct (Z.lt_ge_cases bad (stored st)) as [Hl | Hg]; [exact Hl |].
    exfalso.
    assert (stored st * bs <= bad * bs)
      by (apply Z.mul_le_mono_nonneg_r; lia).
    lia. }
  split; [| lia].
  assert (Hn : stored st <= stored st * bs) by nia.
  clear Hd Hm. subst bs.
  pose proof (printContent2Serial_loop st W) as HL. cbv zeta in HL.
  rewrite HL. clear HL.
  replace (S (Z.to_nat (stored st * s_bitSize st)))
    with (Z.to_nat bad
          + S (Z.to_nat (stored st * s_bitSize st) - Z.to_nat bad))%nat
    by lia.
  pose proof (print_slots_prefix st (Z.to_nat bad)
                (S (Z.to_nat (stored st * s_bitSize st) - Z.to_nat bad)) 0 W
                ltac:(lia) ltac:(lia)) as HP.
  cbv zeta in HP.
  rewrite HP by (rewrite Z2Nat.id by lia; lia).
  clear HP. rewrite Z2Nat.id by lia. rewrite Z.add_0_l.
  rewrite print_slots_fault by (try assumption; lia).
  reflexivity.
Qed.

(** The bound on the loop count is never what ends the loop, whatever the
    capacity of the object and whatever the reads give. *)
Lemma print_slots_within_fuel st initialBitIndex fuel c :
  typed st ->
  let bound := if s_full st then to_uint (getSize st * s_bitSize st)
               else s_bitIndex st in
  0 <= c <= bound -> bound - c < Z.of_nat fuel ->
  snd (print_slots fuel initialBitIndex c st) <> LoopBound.
Proof.
  intros T bound. destruct (typed_bs st T) as [Hbs _].
  assert (Hb : 0 <= bound < 65536).
  { unfold bound. destruct (s_full st);
      [apply to_uint_range | apply (ty_bitIndex st T)]. }
  revert c. induction fuel as [| fuel IH]; intros c Hc Hf; [lia |].
  cbn [print_slots].
  rewrite (pbind_method getBitSize _ st _ st (getBitSize_cached st ltac:(lia))).
  rewrite !pbind_gets. fold bound.
  rewrite to_long_small by lia. rewrite (to_ulong_small bound) by lia.
  rewrite (to_ulong_small (c + s_bitSize st - 1)) by lia.
  destruct (Z.ltb_spec (c + s_bitSize st - 1) bound) as [Hlt | Hge];
    [| discriminate].
  rewrite pbind_emit.
  destruct (getValueInternal c st) as [[v st'] |] eqn:Hv.
  - assert (st' = st).
    { rewrite getValueInternal_cached in Hv by lia.
      destruct (read_field _ _ _ _); inversion Hv; reflexivity. }
    subst st'.
    rewrite (pbind_method (getValueInternal c) _ st v st Hv).
    rewrite !pbind_emit. rewrite pbind_gets.
    rewrite (to_ulong_small (c + s_bitSize st)) by lia.
    specialize (IH (c + s_bitSize st) ltac:(lia) ltac:(lia)).
    repeat first
      [ rewrite pbind_emit
      | rewrite pbind_pret
      | match goal with
        | |- context [pbind (if ?b then _ else _) _ _] => destruct b
        end ];
      destruct (print_slots fuel initialBitIndex (c + s_bitSize st) st)
        as [out o]; exact IH.
  - rewrite (pbind_method_fails (getValueInternal c) _ st Hv). discriminate.
Qed.

(** On every object the constructor can build, [printContent2Serial()]
    returns or leaves the block. *)
Lemma printContent2Serial_within_fuel st :
  typed st -> snd (printContent2Serial st) <> LoopBound.
Proof.
  intros T. destruct (typed_bs st T) as [Hbs _].
  unfold printContent2Serial.
  rewrite (pbind_method getValueCount _ st _ st
             (getValueCount_cached st ltac:(lia))).
  rewrite (pbind_method getBitSize _ st _ st
             (getBitSize_cached st ltac:(lia))).
  rewrite !pbind_gets. rewrite pbind_emit. rewrite pbind_gets.
  unfold pbind at 1.
  match goal with
  | |- context [print_slots ?f ?i 0 st] =>
      pose proof (print_slots_within_fuel st i f 0 T) as HF;
      cbv zeta in HF;
      destruct (print_slots f i 0 st) as [out [[] st' | |]]
  end.
  - discriminate.
  - discriminate.
  - exfalso. apply HF; [| | reflexivity].
    + split; [lia |].
      destruct (s_full st);
        [apply to_uint_range | apply (ty_bitIndex st T)].
    + assert (0 <= (if s_full st
                    then to_uint (getSize st * s_bitSize st)
                    else s_bitIndex st)).
      { destruct (s_full st);
          [apply to_uint_range | apply (ty_bitIndex st T)]. }
      lia.
Qed.

(** X12.  [printContent2Serial()] lists the slots written so far, in block
    order and whatever was popped: between ["["] and the closing line ["]"]
    one entry per slot, with the value the slot holds, its bit offset,
    ["P"] exactly when no valid index of [getValue] reads the slot, and
    ["N"] exactly when the next [push] writes it.  The call reads inside the
    block only and leaves the object as it was. *)
Theorem printContent2Serial_lists_slots st :
  wf st -> int_addressable st ->
  printContent2Serial st
  = ([Serial.list_open]
     ++ flat_map (slot_entry st)
                 (map Z.of_nat (seq 0 (Z.to_nat (stored st))))
     ++ [Serial.list_close], Returned tt st).
Proof.
  intros W A. apply printContent2Serial_listing; [exact W |].
  destruct (wf_bs st W) as [Hbs _]. pose proof (wf_stored st W) as Hst.
  unfold int_addressable in A. change (2 ^ 15) with 32768 in A.
  assert (stored st * s_bitSize st <= s_size st * s_bitSize st)
    by (apply Z.mul_le_mono_nonneg_r; lia).
  lia.
Qed.

Lemma printContent2Serial_lists_slots_witness :
  printContent2Serial popped_buffer
  = ([Serial.list_open]
     ++ flat_map (slot_entry popped_buffer)
                 (map Z.of_nat (seq 0 (Z.to_nat (stored popped_buffer))))
     ++ [Serial.list_close], Returned tt popped_buffer).
Proof.
  apply printContent2Serial_lists_slots.
  - apply wf_popped_buffer.
  - unfold int_addressable. vm_compute. discriminate.
Defined.

(** X13.  The listing is lost beyond the [int] offsets.  Once a slot that
    starts at bit 2^15 or later is in use, [printContent2Serial()] prints
    ["["], the entries of the slots before the first such slot [bad] and the
    separator of its entry, and then reads outside the block: the array
    index [(int) p_bitIndex / 8] that [getValueInternal] computes for the
    slot is negative, in front of the block. *)
Theorem printContent2Serial_lost_beyond_int_offsets st :
  wf st -> 32768 <= (stored st - 1) * s_bitSize st ->
  let bad := (32768 + s_bitSize st - 1) / s_bitSize st in
  printContent2Serial st
  = ([Serial.list_open]
     ++ flat_map (slot_entry st) (map Z.of_nat (seq 0 (Z.to_nat bad)))
     ++ [Serial.entry_sep], OutsideBlock)
  /\ 0 <= bad < stored st
  /\ (bad - 1) * s_bitSize st < 32768 <= bad * s_bitSize st
  /\ getValueInternal (bad * s_bitSize st) st = None
  /\ Z.quot (to_int (bad * s_bitSize st)) 8 < 0.
Proof.
  intros W Hadr bad. destruct (wf_bs st W) as [Hbs _].
  destruct (printContent2Serial_fault st W Hadr)
    as (Hprint & Hbad & Hfirst & Hhi).
  fold bad in Hprint, Hbad, Hfirst, Hhi.
  split; [exact Hprint |]. split; [exact Hbad |]. split; [exact Hfirst |].
  split.
  - rewrite getValueInternal_cached by lia.
    rewrite read_field_wrapped by lia. reflexivity.
  - rewrite to_int_high by lia.
    replace (bad * s_bitSize st - 65536)
      with (- (65536 - bad * s_bitSize st)) by lia.
    rewrite Z.quot_opp_l by lia. rewrite Z.quot_div_nonneg by lia.
    assert (1 <= (65536 - bad * s_bitSize st) / 8)
      by (apply Z.div_le_lower_bound; lia).
    lia.
Qed.

Lemma printContent2Serial_lost_beyond_int_offsets_witness :
  exists st,
    run (repeat (Push 5) 2186) (BitBuffer_new RANGE32768 2186 zeros)
    = Some (repeat (RBool true) 2186, st) /\
    printContent2Serial st
    = ([Serial.list_open]
       ++ flat_map (slot_entry st) (map Z.of_nat (seq 0 (Z.to_nat 2185)))
       ++ [Serial.entry_sep], OutsideBlock).
Proof.
  destruct (linear_after_pushes zeros 2186 ltac:(lia))
    as (st & Hrun & L & Hsz & Hbs & _).
  exists st. split; [exact Hrun |].
  assert (Hadr : 32768 <= (stored st - 1) * s_bitSize st).
  { rewrite (linear_stored st _ 0 L), Hbs, repeat_length.
    vm_compute. discriminate. }
  destruct (printContent2Serial_lost_beyond_int_offsets st (proj1 L) Hadr)
    as (Hprint & _).
  rewrite Hbs in Hprint. exact Hprint.
Defined.
